(** * The updater of react-redux: circular node queue and update scheduler

    A shallow embedding of [createUpdater] (the closure returned by the
    updater module) together with the two host scheduling helpers
    [scheduleAsMicrotask] and [scheduleAsTask].

    JavaScript objects are modelled by an arena: a node object is an address
    into [heap]; [null] references are [None].  The closure variables of
    [createUpdater] are the fields of the record [sched]; the host's
    microtask and task queues, the bindings captured by deferred closures
    and what the host observes (calls of callbacks, unhandled faults) are
    fields of the same record.

    Not modelled: the console traces ([_TRACE_WORK_] is [false]), the
    [performance] marks (a mock that does nothing), and the store
    pass-through ([setStore], [dispatch]), which none of the properties
    below involves.  [unstable_batchedUpdates(f)] is taken to call [f]. *)

From stdpp Require Import base list strings pretty.

(** ** JavaScript values

    Snapshots are compared with [===] and thrown values are tested for
    truthiness by [completeUpdate]; both are plain JavaScript values. *)

Inductive value :=
| VUndefined
| VNull
| VNum (n : nat)
| VObj (id : nat)
| VError (msg : string)
| VTypeError.

#[global] Instance value_eq_dec : EqDecision value.
Proof. solve_decision. Defined.

Definition truthy (v : value) : bool :=
  match v with
  | VUndefined | VNull | VNum 0 => false
  | _ => true
  end.

(** [a !== b] on values. *)
Definition strict_ne (a b : value) : bool := bool_decide (a ≠ b).

(** ** Subscriber callbacks

    A callback is host code.  It is modelled by the sequence of calls it
    makes on the updater's entry points and on the [updater] cell of a node
    it holds, possibly ended by a [throw]. *)

#[warnings="-register-all"]
Inductive action :=
| ANewState (s : value)
| ACreate (u : option (list action))
| AUpdating (n : nat)
| ASetCurrent (n : nat) (u : option (list action))
| AThrow (e : value).

Definition callback := list action.

(** ** Nodes and the queue *)

Record node := mkNode {
  index : nat;
  updater_current : option callback;   (* node.updater.current *)
  state : value;
  nextNode : option nat
}.

Definition with_next (nx : option nat) (nd : node) : node :=
  {| index := index nd; updater_current := updater_current nd;
     state := state nd; nextNode := nx |}.

Definition with_current (u : option callback) (nd : node) : node :=
  {| index := index nd; updater_current := u;
     state := state nd; nextNode := nextNode nd |}.

Record queue_t := mkQueue {
  q_state : value;
  lastNode : option nat;
  cursorNode : option nat
}.

(** Deferred work handed to the host. [JRethrow c] is the arrow function
    [() => { throw e }] of [completeUpdate]: it closes over the binding [e]
    of one activation of [completeUpdate], stored at [frames !! c]. *)
Inductive job :=
| JContinueUpdate
| JStartUpdate
| JRethrow (c : nat).

(** One invocation of a node's callback, as the host observes it. *)
Record call := mkCall {
  callee : nat;          (* the node whose updater.current was called *)
  args : list value;     (* the actual arguments *)
  during : value         (* queue.state at the time of the call *)
}.

Record sched := mkSched {
  queue : queue_t;
  heap : list node;
  states : list value;
  stateCt : nat;
  updates : nat;
  stateOnUpdate : nat;
  isWorking : bool;
  workNode : option nat;
  caughtErrors : list value;
  nodeCount : nat;
  (* host *)
  microtasks : list job;
  tasks : list job;
  frames : list value;
  faults : list value;   (* unhandled exceptions seen by the host *)
  calls : list call      (* history of callback invocations *)
}.

Definition set_queue (q : queue_t) (st : sched) : sched :=
  mkSched q (heap st) (states st) (stateCt st) (updates st) (stateOnUpdate st)
    (isWorking st) (workNode st) (caughtErrors st) (nodeCount st)
    (microtasks st) (tasks st) (frames st) (faults st) (calls st).

Definition set_heap (h : list node) (st : sched) : sched :=
  mkSched (queue st) h (states st) (stateCt st) (updates st) (stateOnUpdate st)
    (isWorking st) (workNode st) (caughtErrors st) (nodeCount st)
    (microtasks st) (tasks st) (frames st) (faults st) (calls st).

Definition set_states (l : list value) (st : sched) : sched :=
  mkSched (queue st) (heap st) l (stateCt st) (updates st) (stateOnUpdate st)
    (isWorking st) (workNode st) (caughtErrors st) (nodeCount st)
    (microtasks st) (tasks st) (frames st) (faults st) (calls st).

Definition set_stateCt (n : nat) (st : sched) : sched :=
  mkSched (queue st) (heap st) (states st) n (updates st) (stateOnUpdate st)
    (isWorking st) (workNode st) (caughtErrors st) (nodeCount st)
    (microtasks st) (tasks st) (frames st) (faults st) (calls st).

Definition set_trace (u s : nat) (st : sched) : sched :=
  mkSched (queue st) (heap st) (states st) (stateCt st) u s
    (isWorking st) (workNode st) (caughtErrors st) (nodeCount st)
    (microtasks st) (tasks st) (frames st) (faults st) (calls st).

Definition set_working (b : bool) (w : option nat) (st : sched) : sched :=
  mkSched (queue st) (heap st) (states st) (stateCt st) (updates st)
    (stateOnUpdate st) b w (caughtErrors st) (nodeCount st)
    (microtasks st) (tasks st) (frames st) (faults st) (calls st).

Definition set_caughtErrors (l : list value) (st : sched) : sched :=
  mkSched (queue st) (heap st) (states st) (stateCt st) (updates st)
    (stateOnUpdate st) (isWorking st) (workNode st) l (nodeCount st)
    (microtasks st) (tasks st) (frames st) (faults st) (calls st).

Definition set_nodeCount (n : nat) (st : sched) : sched :=
  mkSched (queue st) (heap st) (states st) (stateCt st) (updates st)
    (stateOnUpdate st) (isWorking st) (workNode st) (caughtErrors st) n
    (microtasks st) (tasks st) (frames st) (faults st) (calls st).

Definition set_microtasks (l : list job) (st : sched) : sched :=
  mkSched (queue st) (heap st) (states st) (stateCt st) (updates st)
    (stateOnUpdate st) (isWorking st) (workNode st) (caughtErrors st)
    (nodeCount st) l (tasks st) (frames st) (faults st) (calls st).

Definition set_tasks (l : list job) (st : sched) : sched :=
  mkSched (queue st) (heap st) (states st) (stateCt st) (updates st)
    (stateOnUpdate st) (isWorking st) (workNode st) (caughtErrors st)
    (nodeCount st) (microtasks st) l (frames st) (faults st) (calls st).

Definition set_frames (l : list value) (st : sched) : sched :=
  mkSched (queue st) (heap st) (states st) (stateCt st) (updates st)
    (stateOnUpdate st) (isWorking st) (workNode st) (caughtErrors st)
    (nodeCount st) (microtasks st) (tasks st) l (faults st) (calls st).

Definition set_faults (l : list value) (st : sched) : sched :=
  mkSched (queue st) (heap st) (states st) (stateCt st) (updates st)
    (stateOnUpdate st) (isWorking st) (workNode st) (caughtErrors st)
    (nodeCount st) (microtasks st) (tasks st) (frames st) l (calls st).

Definition set_calls (l : list call) (st : sched) : sched :=
  mkSched (queue st) (heap st) (states st) (stateCt st) (updates st)
    (stateOnUpdate st) (isWorking st) (workNode st) (caughtErrors st)
    (nodeCount st) (microtasks st) (tasks st) (frames st) (faults st) l.

Definition set_q_state (v : value) (st : sched) : sched :=
  set_queue (mkQueue v (lastNode (queue st)) (cursorNode (queue st))) st.

Definition set_lastNode (l : option nat) (st : sched) : sched :=
  set_queue (mkQueue (q_state (queue st)) l (cursorNode (queue st))) st.

Definition set_cursorNode (c : option nat) (st : sched) : sched :=
  set_queue (mkQueue (q_state (queue st)) (lastNode (queue st)) c) st.

(** [createUpdater()]: the initial closure state. *)
Definition createUpdater : sched :=
  mkSched (mkQueue VNull None None) [] [] 0 0 0 false None [] 0 [] [] [] [] [].

(** Outcome of a call: it returns, or it throws a value. *)
Inductive outcome :=
| Normal
| Throw (e : value).

(** ** The circular queue *)

(** [a.nextNode] *)
Definition next_of (h : list node) (a : nat) : option nat :=
  nd ← h !! a; nextNode nd.

(** [a.nextNode = nx] *)
Definition set_next (a : nat) (nx : option nat) (h : list node) : list node :=
  alter (with_next nx) a h.

Definition appendNodeToQueue (n : nat) (st : sched) : sched :=
  match lastNode (queue st) with
  | None =>
      let st := set_lastNode (Some n) st in
      let st := set_heap (set_next n (Some n) (heap st)) st in
      set_cursorNode (Some n) st
  | Some l =>
      let cursor := cursorNode (queue st) in
      let st := set_heap (set_next n (next_of (heap st) l) (heap st)) st in
      let st := set_heap (set_next l (Some n) (heap st)) st in
      let st := if bool_decide (cursor = Some l)
                then set_cursorNode (Some n) st else st in
      set_lastNode (Some n) st
  end.

(** [removeCurrentNode] dereferences [cursorNode] and [cursorNode.nextNode];
    on a [null] there the host raises a TypeError. *)
Definition removeCurrentNode (st : sched) : outcome * sched :=
  match lastNode (queue st) with
  | None => (Normal, st)
  | Some l =>
      if bool_decide (next_of (heap st) l = Some l) then
        let st := set_heap (set_next l None (heap st)) st in
        let st := set_lastNode None st in
        (Normal, set_cursorNode None st)
      else
        match cursorNode (queue st) with
        | None => (Throw VTypeError, st)
        | Some c =>
            match next_of (heap st) c with
            | None => (Throw VTypeError, st)
            | Some r =>
                let st := if bool_decide (r = l)
                          then set_lastNode (Some c) st else st in
                (Normal, set_heap (set_next c (next_of (heap st) r) (heap st)) st)
            end
        end
  end.

(** ** Host scheduling helpers

    [_IS_TEST_] is [false], so [scheduleAsMicrotask] always goes through a
    resolved promise; [scheduleAsTask] is [setTimeout(fn, 0)]. *)

Definition scheduleAsMicrotask (j : job) (st : sched) : sched :=
  set_microtasks (microtasks st ++ [j]) st.

Definition scheduleAsTask (j : job) (st : sched) : sched :=
  set_tasks (tasks st ++ [j]) st.

(** ** Error collector *)

(** The [while ((e = caughtErrors.pop()))] loop of [completeUpdate], over
    the buffer read from its end ([errs] is the buffer reversed).  [c] is
    the address of the single binding [e] of this activation: every
    assignment overwrites it, and every arrow function scheduled here
    refers to it. *)
Fixpoint drainErrors (c : nat) (errs : list value) (st : sched) : sched :=
  match errs with
  | [] =>
      (* pop() on the empty array yields undefined *)
      set_caughtErrors [] (set_frames (<[c := VUndefined]> (frames st)) st)
  | e :: rest =>
      let st := set_caughtErrors (rev rest) st in
      let st := set_frames (<[c := e]> (frames st)) st in
      if truthy e then drainErrors c rest (scheduleAsTask (JRethrow c) st)
      else st
  end.

Definition checkForNextUpdate (st : sched) : sched :=
  if isWorking st then st else scheduleAsTask JStartUpdate st.

Definition completeUpdate (st : sched) : sched :=
  let c := length (frames st) in
  let st := set_frames (frames st ++ [VUndefined]) st in   (* let e *)
  let st := drainErrors c (rev (caughtErrors st)) st in
  checkForNextUpdate st.

(** ** Node creation and the [updating] entry point *)

Definition create (u : option callback) (st : sched) : nat * sched :=
  let a := length (heap st) in
  let nd := mkNode (nodeCount st) u (q_state (queue st)) None in
  let st := set_nodeCount (S (nodeCount st)) st in
  let st := set_heap (heap st ++ [nd]) st in
  (a, appendNodeToQueue a st).

Definition updating (n : nat) (st : sched) : sched :=
  set_working true (Some n) st.

(** ** Update intake and callbacks

    [pass] stands for [unstable_batchedUpdates(doUpdateWork)]: the batching
    wrapper calls its argument synchronously. *)

Definition unfinished_update : value :=
  VError "startUpdate, called when not working but there is an unfinished update".

Section Intake.
Variable pass : sched → option (outcome * sched).

Definition startUpdate (st : sched) : option (outcome * sched) :=
  if isWorking st then Some (Normal, st)
  else
    match last (states st) with
    | None => Some (Normal, st)                 (* states.length === 0 *)
    | Some s =>
        let st := set_q_state s st in           (* queue.state = states.pop() *)
        let st := set_states [] st in           (* states.length = 0 *)
        match lastNode (queue st) with
        | None => Some (Normal, st)
        | Some l =>
            if bool_decide (cursorNode (queue st) ≠ Some l)
            then Some (Throw unfinished_update, st)
            else
              let st := set_trace (S (updates st)) (stateCt st) st in
              pass st
        end
    end.

Definition newState (s : value) (st : sched) : option (outcome * sched) :=
  if strict_ne (q_state (queue st)) s then
    let st := set_stateCt (S (stateCt st)) st in
    let st := set_states (states st ++ [s]) st in
    startUpdate st
  else Some (Normal, st).

(** Running the body of a callback.  An exception raised by one of its
    calls is not handled by the callback and ends it. *)
Fixpoint run_callback (acts : callback) (st : sched)
  : option (outcome * sched) :=
  match acts with
  | [] => Some (Normal, st)
  | ANewState s :: k =>
      match newState s st with
      | Some (Normal, st') => run_callback k st'
      | r => r
      end
  | ACreate u :: k => run_callback k (snd (create u st))
  | AUpdating n :: k => run_callback k (updating n st)
  | ASetCurrent n u :: k =>
      run_callback k (set_heap (alter (with_current u) n (heap st)) st)
  | AThrow e :: _ => Some (Throw e, st)
  end.
End Intake.

(** ** The scheduler loop *)

Definition doUpdateWork_with (loop : sched → option (outcome * sched))
    (st : sched) : option (outcome * sched) :=
  if isWorking st then Some (Normal, st)
  else
    match lastNode (queue st) with
    | None => Some (Normal, completeUpdate st)
    | Some _ => loop st
    end.

(** One reading of [queue.cursorNode.nextNode] in the labelled
    [do ... while] loop of [doUpdateWork]: either the node read is dead and
    is removed (one turn of the inner [while]), or it is processed (the rest
    of the body of the [do]).  [loop] is the loop itself, taken up again at
    the next reading; it also runs the passes that a callback starts by
    submitting a state.  Leaving the loop falls through to
    [completeUpdate]. *)
Definition workStep (loop : sched → option (outcome * sched)) (st : sched)
  : option (outcome * sched) :=
  match cursorNode (queue st) with
  | None => Some (Throw VTypeError, st)
  | Some c =>
      match n ← next_of (heap st) c; nd ← heap st !! n; Some (n, nd) with
      | None => Some (Throw VTypeError, st)
      | Some (n, nd) =>
          match updater_current nd with
          | None =>
              match removeCurrentNode st with
              | (Throw e, st1) => Some (Throw e, st1)
              | (Normal, st1) =>
                  match lastNode (queue st1) with
                  | None => Some (Normal, completeUpdate st1)
                  | Some _ => loop st1
                  end
              end
          | Some cb =>
              let invoked :=
                if strict_ne (state nd) (q_state (queue st)) then
                  let st0 :=
                    set_calls (calls st ++ [mkCall n [] (q_state (queue st))]) st in
                  match run_callback (doUpdateWork_with loop) cb st0 with
                  | None => None
                  | Some (Normal, st1) => Some st1
                  | Some (Throw e, st1) =>
                      Some (set_caughtErrors (caughtErrors st1 ++ [e]) st1)
                  end
                else Some st in
              match invoked with
              | None => None
              | Some st1 =>
                  let st2 := set_cursorNode (Some n) st1 in
                  if isWorking st2 then
                    Some (Normal, scheduleAsMicrotask JContinueUpdate st2)
                  else if bool_decide
                            (cursorNode (queue st2) ≠ lastNode (queue st2))
                  then loop st2
                  else Some (Normal, completeUpdate st2)
              end
          end
      end
  end.

(** The loop, bounded: [fuel] bounds the number of readings plus the depth
    of nested passes; [None] is "no result within the bound". *)
Fixpoint workLoop (fuel : nat) (st : sched) : option (outcome * sched) :=
  match fuel with
  | 0 => None
  | S fuel' => workStep (workLoop fuel') st
  end.

Definition doUpdateWork (fuel : nat) : sched → option (outcome * sched) :=
  doUpdateWork_with (workLoop fuel).

Definition continueUpdate (fuel : nat) (st : sched) : option (outcome * sched) :=
  doUpdateWork fuel (set_working false None st).

(** ** The host's event loop *)

Definition run_job (fuel : nat) (j : job) (st : sched)
  : option (outcome * sched) :=
  match j with
  | JContinueUpdate => continueUpdate fuel st
  | JStartUpdate => startUpdate (doUpdateWork fuel) st
  | JRethrow c => Some (Throw (default VUndefined (frames st !! c)), st)
  end.

(** An exception that escapes a job is an unhandled fault. *)
Definition host_run (fuel : nat) (j : job) (st : sched) : option sched :=
  match run_job fuel j st with
  | None => None
  | Some (Normal, st') => Some st'
  | Some (Throw e, st') => Some (set_faults (faults st' ++ [e]) st')
  end.

(** Microtasks are drained before the next task is taken. [None]: the
    queues are not empty after [fuel] jobs. *)
Fixpoint event_loop (fuel : nat) (st : sched) : option sched :=
  match microtasks st, tasks st with
  | [], [] => Some st
  | j :: js, _ =>
      match fuel with
      | 0 => None
      | S fuel' =>
          st' ← host_run fuel' j (set_microtasks js st); event_loop fuel' st'
      end
  | [], j :: js =>
      match fuel with
      | 0 => None
      | S fuel' =>
          st' ← host_run fuel' j (set_tasks js st); event_loop fuel' st'
      end
  end.

(** ** The ring invariant *)

(** [walk h k a]: the [k] nodes met by following [nextNode] from [a]
    ([a] itself excluded); [None] when a [null] link is met. *)
Fixpoint walk (h : list node) (k : nat) (a : nat) : option (list nat) :=
  match k with
  | 0 => Some []
  | S k' => b ← next_of h a; w ← walk h k' b; Some (b :: w)
  end.

(** A node is resident when it is the tail or is met by following links
    from the tail. *)
Definition resident (st : sched) (x : nat) : Prop :=
  ∃ t, lastNode (queue st) = Some t ∧
       (x = t ∨ ∃ k w, walk (heap st) k t = Some w ∧ x ∈ w).

(** Following links from a resident node comes back to it after meeting
    every resident node exactly once. *)
Definition circular (st : sched) : Prop :=
  ∀ x, resident st x →
    ∃ k w, walk (heap st) k x = Some w ∧ last w = Some x ∧ NoDup w ∧
           ∀ y, resident st y ↔ y ∈ w.

(** The cursor is resident whenever the ring is not empty, so that
    [cursorNode.nextNode] is the resident node due next. *)
Definition cursor_due (st : sched) : Prop :=
  match lastNode (queue st) with
  | None => cursorNode (queue st) = None
  | Some _ =>
      ∃ c d, cursorNode (queue st) = Some c ∧ resident st c ∧
             next_of (heap st) c = Some d ∧ resident st d
  end.

Definition ring_invariant (st : sched) : Prop :=
  circular st ∧ cursor_due st.

(** [chain h l z]: every node of [l] links to the one after it, and the
    last one links to [z]. *)
Fixpoint chain (h : list node) (l : list nat) (z : nat) : Prop :=
  match l with
  | [] => True
  | x :: l' => next_of h x = Some (hd z l') ∧ chain h l' z
  end.

(** [cyc h C]: the nodes of [C] form a cycle of links, in that order. *)
Definition cyc (h : list node) (C : list nat) : Prop :=
  NoDup C ∧ chain h C (hd 0 C).

(** [ring st R]: [R] lists the ring from its head to its tail. *)
Definition ring (st : sched) (R : list nat) : Prop :=
  cyc (heap st) R ∧ lastNode (queue st) = last R ∧
  match cursorNode (queue st) with
  | None => R = []
  | Some c => c ∈ R
  end.

(** ** Auxiliary notions for the proofs *)

(** A node is live when its [updater.current] is not [null]. *)
Definition live (h : list node) (a : nat) : bool :=
  match h !! a with
  | Some nd => bool_decide (is_Some (updater_current nd))
  | None => false
  end.

(** A node is stale for [s] when its stamp is not [s]. *)
Definition stale (h : list node) (s : value) (a : nat) : bool :=
  match h !! a with
  | Some nd => strict_ne (state nd) s
  | None => false
  end.

(** [lap st todo done]: read from the node after the cursor, the ring is
    [todo] (the nodes up to and including the tail) followed by [done] (the
    nodes after the tail, up to and including the cursor). *)
Definition lap (st : sched) (todo done : list nat) : Prop :=
  cyc (heap st) (todo ++ done) ∧
  cursorNode (queue st) = last (todo ++ done) ∧
  lastNode (queue st) = last todo ∧
  (todo = [] → done = []).

(** What a node is, apart from its place in the ring. *)
Definition erase (h : list node) : list node := with_next None <$> h.

(** [st1] differs from [st] only in the ring's links and pointers. *)
Definition relinked (st st1 : sched) : Prop :=
  st1 = set_heap (heap st1) (set_queue (queue st1) st) ∧
  q_state (queue st1) = q_state (queue st) ∧
  erase (heap st1) = erase (heap st).

(** A passive callback does not call back into the updater: it returns, or
    it throws. *)
Definition passive (cb : callback) : Prop :=
  match cb with
  | [] | AThrow _ :: _ => True
  | _ => False
  end.

(** The value a passive callback throws, if it throws. *)
Definition thrown (cb : callback) : option value :=
  match cb with
  | AThrow e :: _ => Some e
  | _ => None
  end.

(** Every callback held by a node is passive. *)
Definition passive_heap (h : list node) : Prop :=
  ∀ a nd cb, h !! a = Some nd → updater_current nd = Some cb → passive cb.

(** What processing the live node [a] does when its callback is passive:
    nothing if the node's stamp is the queue's state, else the call and,
    if it throws, the buffering of the thrown value. *)
Definition deliver (st : sched) (a : nat) : sched :=
  match heap st !! a with
  | Some nd =>
      if strict_ne (state nd) (q_state (queue st)) then
        let st0 :=
          set_calls (calls st ++ [mkCall a [] (q_state (queue st))]) st in
        match updater_current nd ≫= thrown with
        | Some e => set_caughtErrors (caughtErrors st0 ++ [e]) st0
        | None => st0
        end
      else st
  | None => st
  end.

(** [st] with the heap and the queue record replaced. *)
Definition relink (h : list node) (q : queue_t) (st : sched) : sched :=
  set_heap h (set_queue q st).

(** The nodes processed, in order, by a pass that starts with [todo] ahead
    of the cursor and [done] behind the tail: the live nodes of [todo], and
    once more every surviving node when the tail was dead. *)
Definition visits (h : list node) (todo done : list nat) : list nat :=
  let L := filter (λ a, live h a = true) todo in
  match last todo with
  | Some t => if live h t then L else L ++ done ++ L
  | None => L
  end.

(** The updater after registering subscribers with the given cells. *)
Definition ring_of (cells : list (option callback)) : sched :=
  foldl (λ st u, (create u st).2) createUpdater cells.

(** [passive], decided. *)
Definition passiveb (cb : callback) : bool :=
  match cb with
  | [] | AThrow _ :: _ => true
  | _ => false
  end.

Definition passive_heapb (h : list node) : bool :=
  forallb (λ nd, from_option passiveb true (updater_current nd)) h.

(** [grows st st']: the submission counter has not gone down and every
    node of [st] is still there with the stamp and the index it had. *)
Definition grows (st st' : sched) : Prop :=
  stateCt st ≤ stateCt st' ∧
  ∀ a nd, heap st !! a = Some nd →
    ∃ nd', heap st' !! a = Some nd' ∧ state nd' = state nd ∧
           index nd' = index nd.

Definition grows_result (st : sched) (r : option (outcome * sched)) : Prop :=
  ∀ o st', r = Some (o, st') → grows st st'.

(** A host script that submits a state and returns to the event loop; an
    exception that escapes the submission is an unhandled fault too. *)
Definition host_submit (fuel : nat) (s : value) (st : sched) : option sched :=
  match newState (doUpdateWork fuel) s st with
  | None => None
  | Some (Normal, st') => event_loop fuel st'
  | Some (Throw e, st') => event_loop fuel (set_faults (faults st' ++ [e]) st')
  end.

(** ** Sample updaters *)

(** A ring of one node, and a second node allocated but not yet appended. *)
Definition one_linked_one_fresh : sched :=
  let st := ring_of [Some []] in
  set_heap (heap st ++ [mkNode 1 None VNull None]) st.

(** Three subscribers (the second one torn down, the third one throwing)
    and a queue state they have not seen. *)
Definition three_behind : sched :=
  set_q_state (VObj 1)
    (ring_of [Some []; None; Some [AThrow (VError "boom")]]).

(** Two subscribers, a state pending, and the cursor left off the tail. *)
Definition unfinished : sched :=
  set_cursorNode (Some 0)
    (set_states [VObj 1] (ring_of [Some []; Some []])).

(** ** The store pass-through

    The closure variable [store] is kept beside the scheduler state.  A
    store is host code: it is known by its reference, by what its
    [getState()] does when [setStore] calls it and by what its [dispatch]
    does with the arguments it is given (return a value or throw one). *)

Inductive returned :=
| Return (v : value)
| Raise (e : value).

Record store_t := mkStore {
  store_ref : nat;
  getState : returned;
  store_dispatch : list value → returned
}.

Record updater := mkUpdater {
  core : sched;
  store : option store_t
}.

Definition no_store : value :=
  VError "dispatch was called when no store was associated with this ReduxContext".

(** [store !== storeToSet]: comparison of references. *)
Definition other_store (cur : option store_t) (s : store_t) : bool :=
  match cur with
  | None => true
  | Some c => bool_decide (store_ref c ≠ store_ref s)
  end.

(** [store = storeToSet] is done before [store.getState()] is called and
    before the state is submitted, so the store stays attached when either
    of them throws. *)
Definition setStore (fuel : nat) (s : store_t) (up : updater)
  : option (outcome * updater) :=
  if other_store (store up) s then
    match getState s with
    | Raise e => Some (Throw e, mkUpdater (core up) (Some s))
    | Return v =>
        match newState (doUpdateWork fuel) v (core up) with
        | None => None
        | Some (o, st') => Some (o, mkUpdater st' (Some s))
        end
    end
  else Some (Normal, up).

Definition dispatch (args : list value) (up : updater) : returned :=
  match store up with
  | None => Raise no_store
  | Some s => store_dispatch s args
  end.

(** ** The ring dump *)

(** What [printQueue] does: it logs a line, or a [null] link makes the host
    raise a TypeError. *)
Inductive printed :=
| Logged (line : string)
| Raised (e : value).

(** The template [cur(i)->j] or [i->j] for a node of index [i] whose
    successor has index [j]. *)
Definition nodeStr (is_cursor : bool) (i j : nat) : string :=
  if is_cursor then "cur(" +:+ pretty i +:+ ")->" +:+ pretty j
  else pretty i +:+ "->" +:+ pretty j.

(** The [do ... while (node !== queue.lastNode)] loop of [printQueue],
    entered with [node]; it yields [nodeStrs], or [None] when a [null] is
    dereferenced.  [fuel] bounds the number of turns. *)
Fixpoint printLoop (fuel : nat) (h : list node) (q : queue_t) (node : nat)
  : option (option (list string)) :=
  match fuel with
  | 0 => None
  | S fuel' =>
      match n ← next_of h node; nd ← h !! n;
            nx ← nextNode nd ≫= (λ m, h !! m); Some (n, nd, nx) with
      | None => Some None
      | Some (n, nd, nx) =>
          let str :=
            nodeStr (bool_decide (cursorNode q = Some n)) (index nd) (index nx) in
          if bool_decide (Some n ≠ lastNode q) then
            match printLoop fuel' h q n with
            | Some (Some strs) => Some (Some (str :: strs))
            | r => r
            end
          else Some (Some [str])
      end
  end.

Definition printQueue (fuel : nat) (st : sched) : option printed :=
  match lastNode (queue st) with
  | None => Some (Logged "printQueue, queue is empty")
  | Some t =>
      match printLoop fuel (heap st) (queue st) t with
      | None => None
      | Some None => Some (Raised VTypeError)
      | Some (Some strs) =>
          Some (Logged ("printQueue, queue " +:+ String.concat ", " strs))
      end
  end.

(** The entry of the dump for the resident node [a]. *)
Definition dump_entry (st : sched) (a : nat) : string :=
  match nd ← heap st !! a; nx ← nextNode nd ≫= (λ m, heap st !! m);
        Some (nd, nx) with
  | Some (nd, nx) =>
      nodeStr (bool_decide (cursorNode (queue st) = Some a))
        (index nd) (index nx)
  | None => ""
  end.

(** ** Further auxiliary notions *)

(** The updater as [newState s] hands it to the loop when it starts a
    pass: [s] counted, installed as the queue's state, the pending buffer
    emptied, the pass counted. *)
Definition pass_start (s : value) (st : sched) : sched :=
  set_trace (S (updates st)) (S (stateCt st))
    (set_states [] (set_q_state s (set_stateCt (S (stateCt st)) st))).

(** What the callback of node [a] throws, if it is passive and throws. *)
Definition throws_of (h : list node) (a : nat) : option value :=
  nd ← h !! a; cb ← updater_current nd; thrown cb.

(** The nodes of [l] that a pass for [s] calls: live and stale. *)
Definition due (h : list node) (s : value) (l : list nat) : list nat :=
  filter (λ a, live h a = true ∧ stale h s a = true) l.

(** Node indices are the order of creation. *)
Definition indexed (st : sched) : Prop :=
  nodeCount st = length (heap st) ∧
  ∀ a nd, heap st !! a = Some nd → index nd = a.

(** The callback held by the node [a], when it holds one. *)
Definition callback_of (h : list node) (a : nat) : option callback :=
  nd ← h !! a; updater_current nd.

(** The callbacks of the nodes of [l] are passive. *)
Definition passive_on (h : list node) (l : list nat) : Prop :=
  ∀ a cb, a ∈ l → callback_of h a = Some cb → passive cb.

(** What processing the node [a] does when its stamp is not the queue's
    state and its callback is [updating(w)] followed by a passive rest
    [k]: the call, the working flag, the buffering of what [k] throws, the
    cursor set on [a], and the continuation queued as a microtask. *)
Definition suspend (w : nat) (k : callback) (a : nat) (st : sched) : sched :=
  let st0 :=
    updating w
      (set_calls (calls st ++ [mkCall a [] (q_state (queue st))]) st) in
  let st1 :=
    match thrown k with
    | Some e => set_caughtErrors (caughtErrors st0 ++ [e]) st0
    | None => st0
    end in
  scheduleAsMicrotask JContinueUpdate (set_cursorNode (Some a) st1).

(** What processing the node [a] does when its stamp is not the queue's
    state, the cursor is off the tail, and its callback begins by
    submitting a state [s2] that is not the queue's state: the call, the
    submission counted, [s2] installed as the queue's state and the pending
    buffer emptied by [startUpdate], whose "unfinished update" error ends
    the callback and is buffered, and the cursor set on [a]. *)
Definition resubmit (s2 : value) (a : nat) (st : sched) : sched :=
  let st0 :=
    set_calls (calls st ++ [mkCall a [] (q_state (queue st))]) st in
  let st1 :=
    set_states [] (set_q_state s2 (set_stateCt (S (stateCt st0)) st0)) in
  set_cursorNode (Some a)
    (set_caughtErrors (caughtErrors st1 ++ [unfinished_update]) st1).

(** Buffering what the passive rest [k] of a callback throws. *)
Definition buffer_thrown (k : callback) (st : sched) : sched :=
  match thrown k with
  | Some e => set_caughtErrors (caughtErrors st ++ [e]) st
  | None => st
  end.

(** What processing the live node [a] does when its callback begins by
    submitting the queue's own state, which does nothing, and goes on with
    a passive rest [k]: nothing if the node's stamp is the queue's state,
    else the call and the buffering of what [k] throws. *)
Definition deliver_rest (k : callback) (st : sched) (a : nat) : sched :=
  if stale (heap st) (q_state (queue st)) a then
    buffer_thrown k
      (set_calls (calls st ++ [mkCall a [] (q_state (queue st))]) st)
  else st.


(** Three subscribers under the initial state: the second one torn down,
    the third one throwing. *)
Definition three_subscribers : sched :=
  ring_of [Some []; None; Some [AThrow (VError "boom")]].


(** Three subscribers, a pass for [VObj 1] suspended by the first. *)
Definition suspended_after_first : sched :=
  updating 0
    (set_cursorNode (Some 0)
       (set_q_state (VObj 1)
          (ring_of [Some [AUpdating 0]; Some []; Some []]))).

(** Three subscribers, the second of which marks itself as updating. *)
Definition suspending_second : sched :=
  ring_of [Some []; Some [AUpdating 1]; Some []].



(** Three subscribers, the second of which submits [VObj 2]. *)
Definition submitting_second : sched :=
  ring_of [Some []; Some [ANewState (VObj 2)]; Some []].

(** A torn-down subscriber followed by three live ones, the first of
    which submits [VObj 2]. *)
Definition submitting_first : sched :=
  ring_of [None; Some [ANewState (VObj 2)]; Some []; Some []].

(** [passive_on], decided. *)
Definition passive_onb (h : list node) (l : list nat) : bool :=
  forallb (λ a, from_option passiveb true (callback_of h a)) l.

(** A store whose state is [VObj 1] and whose [dispatch] returns its first
    argument. *)
Definition echo_store : store_t :=
  mkStore 7 (Return (VObj 1)) (λ args, Return (default VUndefined (head args))).

(** * Proofs *)

Section chain_lemmas.
Implicit Types (h : list node) (l : list nat).

Lemma next_of_set_next_eq h a nx :
  a < length h → next_of (set_next a nx h) a = nx.
Proof.
  intros Ha. unfold next_of, set_next.
  destruct (lookup_lt_is_Some_2 h a Ha) as [nd Hnd].
  rewrite list_lookup_alter_eq, Hnd. reflexivity.
Qed.

Lemma next_of_set_next_ne h a b nx :
  a ≠ b → next_of (set_next a nx h) b = next_of h b.
Proof.
  intros Hab. unfold next_of, set_next.
  rewrite list_lookup_alter_ne by done. reflexivity.
Qed.

Lemma next_of_lt h a b : next_of h a = Some b → a < length h.
Proof.
  unfold next_of. intros H. apply lookup_lt_is_Some.
  destruct (h !! a); [eauto | discriminate].
Qed.

Lemma next_of_snoc h nd a : a < length h → next_of (h ++ [nd]) a = next_of h a.
Proof. intros Ha. unfold next_of. rewrite lookup_app_l by done. reflexivity. Qed.

Lemma chain_app h l1 l2 z :
  chain h (l1 ++ l2) z ↔ chain h l1 (hd z l2) ∧ chain h l2 z.
Proof.
  induction l1 as [|x l1 IH]; simpl; [tauto|].
  rewrite IH. destruct l1; simpl; tauto.
Qed.

Lemma chain_frame h h' l z :
  (∀ x, x ∈ l → next_of h' x = next_of h x) → chain h l z → chain h' l z.
Proof.
  induction l as [|x l IH]; simpl; [done|].
  intros Hf [Hx Hl]. split.
  - rewrite Hf; [done | left].
  - apply IH; [|done]. intros y Hy. apply Hf. by right.
Qed.

Lemma chain_lt h l z x : chain h l z → x ∈ l → x < length h.
Proof.
  induction l as [|y l IH]; simpl; [by intros _ ?%elem_of_nil|].
  intros [Hy Hl] [->|Hx]%elem_of_cons; [by eapply next_of_lt | auto].
Qed.

(** The successor of a node inside a chain. *)
Lemma chain_next h l1 x l2 z :
  chain h (l1 ++ x :: l2) z → next_of h x = Some (hd z l2).
Proof. rewrite chain_app. simpl. tauto. Qed.

Lemma cyc_rotate1 h x C : cyc h (x :: C) → cyc h (C ++ [x]).
Proof.
  intros [Hnd Hch]. split.
  - apply NoDup_app. apply NoDup_cons in Hnd as [Hx HC].
    split_and!; [done | | apply NoDup_singleton].
    intros y Hy ->%list_elem_of_singleton. done.
  - simpl in Hch. destruct Hch as [Hx HC]. apply chain_app. simpl.
    destruct C as [|y C]; simpl in *; auto.
Qed.

Lemma cyc_swap h A B : cyc h (A ++ B) → cyc h (B ++ A).
Proof.
  revert B. induction A as [|x A IH]; intros B; simpl.
  - by rewrite app_nil_r.
  - intros H%cyc_rotate1. rewrite <- app_assoc in H. apply IH in H.
    by rewrite <- app_assoc in H.
Qed.

Lemma cyc_next_in h C x :
  cyc h C → x ∈ C → ∃ y, next_of h x = Some y ∧ y ∈ C.
Proof.
  intros [_ Hch] Hx. apply list_elem_of_split in Hx as (l1 & l2 & ->).
  pose proof (chain_next _ _ _ _ _ Hch) as Hn.
  eexists; split; [done|].
  destruct l2 as [|y l2]; simpl.
  - destruct l1; simpl; [left | left].
  - apply elem_of_app. right. right. left.
Qed.
End chain_lemmas.

Section ring_lemmas.
Implicit Types (h : list node) (l w R C : list nat) (st : sched).

Lemma walk_S h k a :
  walk h (S k) a = b ← next_of h a; w ← walk h k b; Some (b :: w).
Proof. reflexivity. Qed.

Lemma walk_chain h l x z :
  chain h (x :: l) z → walk h (S (length l)) x = Some (l ++ [z]).
Proof.
  revert x. induction l as [|y l IH]; intros x [Hx Hl].
  - simpl in *. by rewrite Hx.
  - simpl in Hx. specialize (IH y Hl).
    rewrite walk_S, Hx. simpl length. cbn [mbind option_bind].
    rewrite IH. reflexivity.
Qed.

Lemma chain_walk h k a w z :
  walk h k a = Some (w ++ [z]) → chain h (a :: w) z.
Proof.
  revert a w. induction k as [|k IH]; intros a w.
  - intros [=]. by destruct w.
  - rewrite walk_S.
    destruct (next_of h a) as [b|] eqn:Hb; cbn [mbind option_bind]; [|done].
    destruct (walk h k b) as [w'|] eqn:Hw; cbn [mbind option_bind]; [|done].
    intros [= Heq]. destruct w as [|y w]; simpl in *.
    + destruct w'; [|by destruct w']. by simplify_eq.
    + simplify_eq. split; [done|]. by apply IH.
Qed.

Lemma walk_in_cyc h C k x w :
  cyc h C → x ∈ C → walk h k x = Some w → ∀ y, y ∈ w → y ∈ C.
Proof.
  intros HC. revert x w. induction k as [|k IH]; intros x w Hx.
  - intros [= <-] y Hy. by apply elem_of_nil in Hy.
  - rewrite walk_S.
    destruct (cyc_next_in _ _ _ HC Hx) as (b & Hb & HbC). rewrite Hb.
    cbn [mbind option_bind].
    destruct (walk h k b) as [w'|] eqn:Hw; cbn [mbind option_bind]; [|done].
    intros [= <-] y [->|Hy]%elem_of_cons; [done|]. by eapply IH.
Qed.

(** From a node of a cycle, one lap meets the rest of the cycle and ends
    on the node itself. *)
Lemma walk_lap h R1 x R2 :
  cyc h (R1 ++ x :: R2) →
  walk h (length (R1 ++ x :: R2)) x = Some (R2 ++ R1 ++ [x]).
Proof.
  intros HC. apply (cyc_swap _ R1 (x :: R2)) in HC. destruct HC as [_ Hch].
  simpl in Hch. replace (length (R1 ++ x :: R2)) with (S (length (R2 ++ R1)))
    by (rewrite !length_app; simpl; lia).
  rewrite (walk_chain h (R2 ++ R1) x x); [by rewrite <- app_assoc|].
  simpl. done.
Qed.

Lemma last_elem_of {A} (k : list A) x : last k = Some x → x ∈ k.
Proof.
  intros H. destruct (last_Some k x) as [Hl _]. destruct (Hl H) as [l' ->].
  apply elem_of_app. right. left.
Qed.

Lemma ring_resident st R y : ring st R → (resident st y ↔ y ∈ R).
Proof.
  intros (HC & Hlast & Hcur). split.
  - intros (t & Ht & Hy). rewrite Ht in Hlast. symmetry in Hlast.
    apply last_elem_of in Hlast as HtR.
    destruct Hy as [->|(k & w & Hw & Hy)]; [done|].
    by eapply walk_in_cyc.
  - intros Hy. destruct (last R) as [t|] eqn:Ht.
    + exists t. split; [done|]. right.
      apply last_elem_of in Ht as HtR.
      apply list_elem_of_split in HtR as (R1 & R2 & ->).
      eexists _, _. split; [by apply walk_lap|].
      rewrite !elem_of_app, elem_of_cons in Hy.
      rewrite !elem_of_app, list_elem_of_singleton. tauto.
    + apply last_None in Ht. subst R. by apply elem_of_nil in Hy.
Qed.

Lemma ring_sound st R : ring st R → ring_invariant st.
Proof.
  intros HR. pose proof HR as (HC & Hlast & Hcur). split.
  - intros x Hx. apply (ring_resident _ _ _ HR) in Hx.
    apply list_elem_of_split in Hx as (R1 & R2 & ->).
    eexists _, _. split; [by apply walk_lap|].
    split; [by rewrite !app_assoc, last_snoc|].
    assert (R2 ++ R1 ++ [x] ≡ₚ R1 ++ x :: R2) as Hp.
    { rewrite Permutation_app_comm. by rewrite <- app_assoc. }
    split; [rewrite Hp; apply HC|].
    intros y. rewrite (ring_resident _ _ _ HR). by rewrite Hp.
  - unfold cursor_due. rewrite Hlast. destruct (last R) as [t|] eqn:Ht.
    + destruct (cursorNode (queue st)) as [c|].
      * destruct (cyc_next_in _ _ _ HC Hcur) as (d & Hd & HdR).
        exists c, d. split_and!; [done| |done|]; by apply (ring_resident _ _ _ HR).
      * subst R. done.
    + apply last_None in Ht. subst R.
      destruct (cursorNode (queue st)) as [c|]; [|done].
      by apply elem_of_nil in Hcur.
Qed.

Lemma ring_complete st : ring_invariant st → ∃ R, ring st R.
Proof.
  intros [Hcirc Hdue]. unfold cursor_due in Hdue.
  destruct (lastNode (queue st)) as [t|] eqn:Ht.
  - assert (resident st t) as Hres by (exists t; auto).
    destruct (Hcirc t Hres) as (k & w & Hw & Hl & Hnd & Hall).
    exists w. destruct (last_Some w t) as [Hsp _].
    destruct (Hsp Hl) as [w' ->]. apply chain_walk in Hw.
    split_and!.
    + apply (cyc_rotate1 _ t w'). split; [|done].
      by rewrite <- (Permutation_cons_append w' t) in Hnd.
    + by rewrite Hl.
    + destruct Hdue as (c & d & -> & Hc & _). by apply Hall.
  - exists []. split_and!; [split; [constructor | done] | done |].
    by rewrite Hdue.
Qed.
End ring_lemmas.

(** ** The ring operations on a well-formed ring *)

Section ring_operations.
Implicit Types (h : list node) (l R : list nat) (st : sched).

Lemma cyc_lt h C x : cyc h C → x ∈ C → x < length h.
Proof. intros [_ Hch]. by eapply chain_lt. Qed.

Lemma length_set_next h a nx : length (set_next a nx h) = length h.
Proof. unfold set_next. by rewrite length_alter. Qed.

Lemma cyc_nil h : cyc h [].
Proof. split; [constructor | done]. Qed.

Lemma cyc_singleton h a : next_of h a = Some a → cyc h [a].
Proof. intros Ha. split; [apply NoDup_singleton | simpl; auto]. Qed.

(** Splicing a fresh node [a] after the tail of the cycle. *)
Lemma cyc_snoc h R t a :
  cyc h R → last R = Some t → a ∉ R → a < length h →
  cyc (set_next t (Some a) (set_next a (next_of h t) h)) (R ++ [a]).
Proof.
  intros [Hnd Hch] Ht Ha Hlt.
  destruct (last_Some R t) as [Hsp _]. destruct (Hsp Ht) as [R0 ->].
  clear Hsp Ht.
  assert (t ≠ a) as Hta.
  { intros ->. apply Ha, elem_of_app. right. left. }
  assert (a ∉ R0) as Ha0.
  { intros ?. apply Ha, elem_of_app. by left. }
  apply NoDup_app in Hnd as (Hnd0 & Hdisj & _).
  assert (t ∉ R0) as Ht0.
  { intros Hin. apply (Hdisj _ Hin). left. }
  assert (t < length h) as Htlt.
  { eapply chain_lt; [done|]. apply elem_of_app. right. left. }
  split.
  - apply NoDup_app. split_and!.
    + apply NoDup_app. split_and!; [done|done|apply NoDup_singleton].
    + intros y Hy ->%list_elem_of_singleton. done.
    + apply NoDup_singleton.
  - apply chain_app in Hch as [Hch0 Hcht]. simpl in Hcht, Hch0.
    destruct Hcht as [Hnt _].
    rewrite <- app_assoc. apply chain_app. split.
    + simpl. eapply chain_frame; [|done].
      intros x Hx. rewrite !next_of_set_next_ne; [done|..]; by intros ->.
    + simpl. split_and!; [| |done].
      * by rewrite next_of_set_next_eq by (by rewrite length_set_next).
      * rewrite next_of_set_next_ne by done.
        rewrite next_of_set_next_eq by done. rewrite Hnt.
        by destruct R0.
Qed.

Lemma appendNodeToQueue_ring st R a :
  ring st R → a ∉ R → a < length (heap st) →
  ring (appendNodeToQueue a st) (R ++ [a]).
Proof.
  intros (HC & Hlast & Hcur) Ha Hlt. unfold appendNodeToQueue.
  destruct (lastNode (queue st)) as [t|] eqn:Ht.
  - symmetry in Hlast.
    pose proof (cyc_snoc _ _ _ _ HC Hlast Ha Hlt) as HC'.
    case_bool_decide as Hc; (split_and!; [done | by rewrite last_snoc |]).
    + simpl. apply elem_of_app. right. left.
    + simpl. destruct (cursorNode (queue st)) as [c|].
      * apply elem_of_app. by left.
      * subst R. done.
  - symmetry in Hlast. apply last_None in Hlast. subst R. simpl.
    split_and!; [|done|left].
    apply cyc_singleton. by apply next_of_set_next_eq.
Qed.

Lemma create_ring st R u :
  ring st R → ring (create u st).2 (R ++ [length (heap st)]).
Proof.
  intros HR. pose proof HR as (HC & Hlast & Hcur). unfold create. simpl.
  apply appendNodeToQueue_ring.
  - split_and!; simpl; [|done|done].
    destruct HC as [Hnd Hch]. split; [done|].
    eapply chain_frame; [|done].
    intros x Hx. apply next_of_snoc. by eapply chain_lt.
  - intros Hin. pose proof (cyc_lt _ _ _ HC Hin). lia.
  - simpl. rewrite length_app. simpl. lia.
Qed.
End ring_operations.

(** ** The ring as the loop reads it *)

Section lap_lemmas.
Implicit Types (h : list node) (l R C : list nat) (st : sched).

Lemma erase_set_next h a nx : erase (set_next a nx h) = erase h.
Proof.
  unfold erase, set_next. apply list_eq. intros i.
  rewrite !list_lookup_fmap.
  destruct (decide (a = i)) as [->|Hne].
  - rewrite list_lookup_alter_eq. by destruct (h !! i).
  - by rewrite list_lookup_alter_ne.
Qed.

Lemma last_cons_ne {A} (x : A) (k : list A) : k ≠ [] → last (x :: k) = last k.
Proof. by destruct k. Qed.

Lemma cyc_self_loop h C x :
  cyc h C → x ∈ C → next_of h x = Some x → C = [x].
Proof.
  intros [Hnd Hch] Hx Hn.
  apply list_elem_of_split in Hx as (l1 & l2 & ->).
  rewrite (chain_next _ _ _ _ _ Hch) in Hn. injection Hn as Hn.
  apply NoDup_app in Hnd as (_ & Hdisj & Hnd2).
  apply NoDup_cons in Hnd2 as [Hx2 _].
  destruct l2 as [|y l2]; simpl in Hn.
  - destruct l1 as [|z l1]; [done|]. simpl in Hn. subst z.
    exfalso. apply (Hdisj x); left.
  - subst y. exfalso. apply Hx2. left.
Qed.

(** Unlinking the first node of a cycle read from after the cursor. *)
Lemma cyc_unlink h r C1 c :
  cyc h (r :: C1) → last C1 = Some c →
  next_of h c = Some r ∧
  cyc (set_next c (next_of h r) h) C1.
Proof.
  intros [Hnd Hch] Hc.
  destruct (last_Some C1 c) as [Hsp _]. destruct (Hsp Hc) as [C0 ->].
  clear Hsp Hc. simpl in Hch. destruct Hch as [Hr Hch].
  apply chain_app in Hch as [Hch0 Hchc]. simpl in Hch0, Hchc.
  destruct Hchc as [Hc _]. split; [done|].
  apply NoDup_cons in Hnd as [_ Hnd].
  split; [done|]. apply chain_app. split.
  - simpl. eapply chain_frame; [|done].
    intros x Hx. apply next_of_set_next_ne. intros ->.
    apply NoDup_app in Hnd as (_ & Hdisj & _). apply (Hdisj _ Hx). left.
  - simpl. split; [|done].
    rewrite next_of_set_next_eq by (by eapply next_of_lt).
    rewrite Hr. by destruct C0.
Qed.

Lemma removeCurrentNode_lap st r todo done :
  lap st (r :: todo) done →
  ∃ st1, removeCurrentNode st = (Normal, st1) ∧ relinked st st1 ∧
         match todo with
         | [] => lap st1 done []
         | _ :: _ => lap st1 todo done
         end.
Proof.
  intros (HC & Hcur & Hlast & _). unfold removeCurrentNode.
  rewrite Hlast. simpl in HC, Hcur.
  destruct (last (r :: todo)) as [t|] eqn:Ht; [|by apply last_None in Ht].
  assert (t ∈ r :: todo ++ done) as HtC.
  { apply last_elem_of in Ht. rewrite app_comm_cons.
    apply elem_of_app. by left. }
  case_bool_decide as Hself.
  - (* the tail is its own successor: the ring has one node *)
    pose proof (cyc_self_loop _ _ _ HC HtC Hself) as Heq.
    injection Heq as -> Happ. apply app_nil in Happ as [-> ->].
    eexists. split; [done|]. split.
    + split_and!; simpl; [by destruct st | done | apply erase_set_next].
    + split_and!; simpl; [apply cyc_nil | done | done | done].
  - assert (todo ++ done ≠ []) as Hne.
    { intros Hnil. rewrite Hnil in HC, HtC.
      apply list_elem_of_singleton in HtC as ->.
      apply Hself. destruct HC as [_ [Hn _]]. done. }
    rewrite last_cons_ne in Hcur by done. rewrite Hcur.
    destruct (last (todo ++ done)) as [c|] eqn:Hc;
      [|by apply last_None in Hc].
    destruct (cyc_unlink _ _ _ _ HC Hc) as [Hnc HC1].
    rewrite Hnc. eexists. split; [done|].
    pose proof HC as [Hnd _]. apply NoDup_cons in Hnd as [Hr _].
    destruct todo as [|y todo].
    + simpl in Ht. injection Ht as ->. rewrite bool_decide_eq_true_2 by done.
      simpl in Hc, HC1, Hne. split.
      * split_and!; simpl; [by destruct st | done | apply erase_set_next].
      * split_and!; simpl; rewrite ?app_nil_r; try done; congruence.
    + assert (r ≠ t) as Hrt.
      { intros ->. apply Hr. apply elem_of_app. left.
        apply last_elem_of. by rewrite last_cons_ne in Ht. }
      rewrite bool_decide_eq_false_2 by done. split.
      * split_and!; simpl; [by destruct st | done | apply erase_set_next].
      * rewrite last_cons_ne in Ht by done.
        split_and!; simpl; try done; try congruence.
        by rewrite Hcur, <- Hc.
Qed.

Lemma ring_lap st R :
  ring st R → ∃ todo done, lap st todo done ∧ R = done ++ todo.
Proof.
  intros (HC & Hlast & Hcur).
  destruct (cursorNode (queue st)) as [c|] eqn:Hc.
  - apply list_elem_of_split in Hcur as (R1 & R2 & ->).
    destruct R2 as [|y R2].
    + exists (R1 ++ [c]), []. split; [|done].
      unfold lap. rewrite !app_nil_r. rewrite last_snoc in *.
      split_and!; try done.
    + exists (y :: R2), (R1 ++ [c]). split; [|by rewrite <- app_assoc].
      split_and!; try done.
      * apply (cyc_swap _ (R1 ++ [c]) (y :: R2)). by rewrite <- app_assoc.
      * by rewrite app_assoc, last_snoc.
      * rewrite Hlast. rewrite last_app. simpl.
        by destruct (last (y :: R2)) eqn:E; [|apply last_None in E].
  - subst R. exists [], []. split; [|done].
    split_and!; simpl; done.
Qed.

Lemma lap_ring st todo done : lap st todo done → ring st (done ++ todo).
Proof.
  intros (HC & Hcur & Hlast & Hnil). split_and!.
  - by apply cyc_swap.
  - rewrite Hlast. destruct todo as [|y todo].
    + by rewrite (Hnil eq_refl).
    + rewrite last_app. by destruct (last (y :: todo)) eqn:E; [|apply last_None in E].
  - rewrite Hcur. destruct (last (todo ++ done)) as [c|] eqn:Hc.
    + apply last_elem_of in Hc. rewrite !elem_of_app in *. tauto.
    + apply last_None, app_nil in Hc as [-> ->]. done.
Qed.
End lap_lemmas.

(** ** Specification of the ring operations *)

Section ring_specs.
Implicit Types (st : sched) (R : list nat).

Lemma ring_createUpdater : ring createUpdater [].
Proof. split_and!; [apply cyc_nil | done | done]. Qed.

Lemma filter_ne_notin (r : nat) (l : list nat) :
  r ∉ l → filter (λ y, y ≠ r) l = l.
Proof.
  induction l as [|x l IH]; [done|]. intros Hr.
  apply not_elem_of_cons in Hr as [Hx Hl].
  rewrite filter_cons_True by done. by rewrite IH.
Qed.

Lemma cyc_last_next h r C1 c :
  cyc h (r :: C1) → last (r :: C1) = Some c → next_of h c = Some r.
Proof.
  intros HC Hc. destruct C1 as [|y C1].
  - injection Hc as <-. by destruct HC as [_ [? _]].
  - rewrite last_cons_ne in Hc by done.
    by destruct (cyc_unlink _ _ _ _ HC Hc).
Qed.

Lemma removeCurrentNode_ring st R :
  ring st R → lastNode (queue st) ≠ None →
  ∃ c r st',
    cursorNode (queue st) = Some c ∧ next_of (heap st) c = Some r ∧
    removeCurrentNode st = (Normal, st') ∧ relinked st st' ∧
    r ∈ R ∧ ring st' (filter (λ y, y ≠ r) R) ∧
    (R = [r] → lastNode (queue st') = None ∧ cursorNode (queue st') = None) ∧
    (R ≠ [r] → c ≠ r ∧ cursorNode (queue st') = Some c ∧
       lastNode (queue st') =
         if bool_decide (lastNode (queue st) = Some r) then Some c
         else lastNode (queue st)).
Proof.
  intros HR Hne. destruct (ring_lap _ _ HR) as (todo & done & Hlap & ->).
  pose proof Hlap as (HC & Hcur & Hlast & _).
  destruct todo as [|r todo]; [by rewrite Hlast in Hne|].
  destruct (last ((r :: todo) ++ done)) as [c|] eqn:Hc;
    [|by apply last_None in Hc].
  pose proof (cyc_last_next _ _ _ _ HC Hc) as Hnc.
  destruct (removeCurrentNode_lap _ _ _ _ Hlap) as (st' & Hrm & Hrel & Hshape).
  exists c, r, st'. split_and!; try done.
  { apply elem_of_app. right. left. }
  - pose proof HC as [Hnd _]. simpl in Hnd.
    apply NoDup_cons in Hnd as [Hr Hnd]. rewrite elem_of_app in Hr.
    assert (filter (λ y, y ≠ r) (done ++ r :: todo) = done ++ todo) as ->.
    { rewrite filter_app, filter_cons_False by naive_solver.
      rewrite !filter_ne_notin; [done|tauto..]. }
    destruct todo; [|by apply lap_ring].
    apply lap_ring in Hshape. by rewrite app_nil_r.
  - intros Heq. destruct done as [|d done].
    + injection Heq as ->. destruct Hshape as (_ & Hc' & Hl' & _). done.
    + exfalso. destruct done; simplify_eq.
  - intros Hnr. assert (todo ++ done ≠ []) as Hne'.
    { intros [-> ->]%app_nil. done. }
    pose proof HC as [Hnd _]. simpl in Hnd.
    apply NoDup_cons in Hnd as [Hr Hnd].
    simpl in Hc. rewrite last_cons_ne in Hc by done.
    assert (c ≠ r) as Hcr.
    { intros ->. by apply Hr, last_elem_of. }
    split; [done|]. rewrite Hlast.
    destruct todo as [|y todo].
    + simpl. rewrite bool_decide_eq_true_2 by done.
      destruct Hshape as (_ & Hc' & Hl' & _). rewrite app_nil_r in Hc'.
      simpl in Hc. by rewrite Hc', Hl', Hc.
    + rewrite last_cons_ne by done.
      destruct Hshape as (_ & Hc' & Hl' & _).
      rewrite Hc', Hl', Hc. split; [done|].
      rewrite bool_decide_eq_false_2; [done|].
      intros Hy. apply Hr, elem_of_app. left. by apply last_elem_of.
Qed.
End ring_specs.

(** C6. The ring invariant holds for the empty queue of [createUpdater] and
    is preserved by appending a node that is allocated and not yet in the
    ring (as [create] does with the node it has just built) and by
    [removeCurrentNode] on a non-empty ring, which then returns normally. *)
Theorem ring_invariant_preserved :
  ring_invariant createUpdater ∧
  (∀ st n, ring_invariant st → n < length (heap st) → ¬ resident st n →
           ring_invariant (appendNodeToQueue n st)) ∧
  (∀ st u, ring_invariant st → ring_invariant (create u st).2) ∧
  (∀ st, ring_invariant st → lastNode (queue st) ≠ None →
         (removeCurrentNode st).1 = Normal ∧
         ring_invariant (removeCurrentNode st).2).
Proof.
  split_and!.
  - apply (ring_sound _ []), ring_createUpdater.
  - intros st n [R HR]%ring_complete Hn Hres.
    apply (ring_sound _ (R ++ [n])), appendNodeToQueue_ring; [done| |done].
    by rewrite <- (ring_resident _ _ _ HR).
  - intros st u [R HR]%ring_complete.
    eapply ring_sound, create_ring, HR.
  - intros st [R HR]%ring_complete Hne.
    destruct (removeCurrentNode_ring _ _ HR Hne)
      as (c & r & st' & _ & _ & -> & _ & _ & HR' & _).
    split; [done|]. by eapply ring_sound.
Qed.

(** C7. Appending a fresh node to an empty ring makes it its own successor,
    the sole resident, the cursor and the tail.  On a ring with tail [t] the
    node takes over the tail's successor (the head), becomes the tail's
    successor and the new tail, no other link changes, and the cursor moves
    to the new node exactly when it was on the old tail. *)
Theorem appendNodeToQueue_spec st n :
  ring_invariant st → n < length (heap st) → ¬ resident st n →
  let st' := appendNodeToQueue n st in
  lastNode (queue st') = Some n ∧
  (∀ y, resident st' y ↔ resident st y ∨ y = n) ∧
  match lastNode (queue st) with
  | None =>
      next_of (heap st') n = Some n ∧ cursorNode (queue st') = Some n ∧
      (∀ y, resident st' y ↔ y = n)
  | Some t =>
      next_of (heap st') n = next_of (heap st) t ∧
      next_of (heap st') t = Some n ∧
      (∀ y, y ≠ n → y ≠ t → next_of (heap st') y = next_of (heap st) y) ∧
      (cursorNode (queue st') = Some n ↔ cursorNode (queue st) = Some t) ∧
      (cursorNode (queue st) ≠ Some t →
       cursorNode (queue st') = cursorNode (queue st))
  end.
Proof.
  intros [R HR]%ring_complete Hn Hres st'.
  assert (n ∉ R) as HnR by (by rewrite <- (ring_resident _ _ _ HR)).
  pose proof (appendNodeToQueue_ring _ _ _ HR HnR Hn) as HR'. fold st' in HR'.
  assert (∀ y, resident st' y ↔ resident st y ∨ y = n) as Hres'.
  { intros y. rewrite (ring_resident _ _ _ HR'), (ring_resident _ _ _ HR).
    by rewrite elem_of_app, list_elem_of_singleton. }
  pose proof HR as (HC & Hlast & Hcur).
  split_and!; [|done|].
  { destruct HR' as (_ & -> & _). by rewrite last_snoc. }
  subst st'. unfold appendNodeToQueue in *.
  destruct (lastNode (queue st)) as [t|] eqn:Ht.
  - assert (t ∈ R) as HtR by (by apply last_elem_of).
    assert (t ≠ n) as Htn by (by intros ->).
    assert (t < length (heap st)) as Htlt by (by eapply cyc_lt).
    assert (cursorNode (queue st) ≠ Some n) as Hcn.
    { intros Hc. rewrite Hc in Hcur. done. }
    case_bool_decide as Hc; simpl; split_and!;
      rewrite ?next_of_set_next_ne by done;
      rewrite ?next_of_set_next_eq by (by rewrite ?length_set_next);
      try done.
    all: try (intros y ? ?; by rewrite !next_of_set_next_ne by done).
  - symmetry in Hlast. apply last_None in Hlast. subst R. simpl.
    split_and!; [by apply next_of_set_next_eq | done |].
    intros y. rewrite (ring_resident _ _ _ HR'). simpl.
    by rewrite list_elem_of_singleton.
Qed.


(** ** Passes over a ring of passive subscribers *)

Section pass_lemmas.
Implicit Types (h : list node) (l R : list nat) (st : sched).

Lemma run_callback_passive pass cb st :
  passive cb →
  run_callback pass cb st = Some (from_option Throw Normal (thrown cb), st).
Proof. destruct cb as [|[] cb]; simpl; done. Qed.

Lemma erase_lookup h h' a :
  erase h' = erase h →
  (with_next None <$> h' !! a) = (with_next None <$> h !! a).
Proof. intros He. unfold erase in He. by rewrite <- !list_lookup_fmap, He. Qed.

Lemma erase_live h h' a : erase h' = erase h → live h' a = live h a.
Proof.
  intros He. pose proof (erase_lookup _ _ a He) as Ha. unfold live.
  destruct (h' !! a) as [[]|], (h !! a) as [[]|]; simpl in *; by simplify_eq.
Qed.

Lemma erase_passive h h' : erase h' = erase h → passive_heap h → passive_heap h'.
Proof.
  intros He Hp a nd cb Ha Hcb. pose proof (erase_lookup _ _ a He) as Hl.
  rewrite Ha in Hl. destruct (h !! a) as [nd'|] eqn:Hnd'; [|done].
  apply (Hp a nd' cb); [done|]. simpl in Hl.
  destruct nd, nd'; simpl in *; by simplify_eq.
Qed.

Lemma relink_relink h q h' q' st :
  relink h q (relink h' q' st) = relink h q st.
Proof. reflexivity. Qed.

Lemma relink_self st : relink (heap st) (queue st) st = st.
Proof. by destruct st. Qed.

Lemma deliver_relink h q st a :
  q_state q = q_state (queue st) → erase h = erase (heap st) →
  deliver (relink h q st) a = relink h q (deliver st a).
Proof.
  intros Hq He. pose proof (erase_lookup _ _ a He) as Ha.
  unfold deliver. simpl. rewrite Hq.
  destruct (h !! a) as [[i u s n]|], (heap st !! a) as [[i' u' s' n']|];
    simpl in *; simplify_eq; [|done].
  destruct (strict_ne s' (q_state (queue st))); [|done].
  by destruct (u' ≫= thrown).
Qed.

Lemma deliver_heap st a : heap (deliver st a) = heap st.
Proof.
  unfold deliver. destruct (heap st !! a) as [nd|]; [|done].
  destruct (strict_ne _ _); [|done]. by destruct (_ ≫= thrown).
Qed.

Lemma deliver_queue st a : queue (deliver st a) = queue st.
Proof.
  unfold deliver. destruct (heap st !! a) as [nd|]; [|done].
  destruct (strict_ne _ _); [|done]. by destruct (_ ≫= thrown).
Qed.

Lemma deliver_isWorking st a : isWorking (deliver st a) = isWorking st.
Proof.
  unfold deliver. destruct (heap st !! a) as [nd|]; [|done].
  destruct (strict_ne _ _); [|done]. by destruct (_ ≫= thrown).
Qed.

Lemma foldl_deliver_relink h q st l :
  q_state q = q_state (queue st) → erase h = erase (heap st) →
  foldl deliver (relink h q st) l = relink h q (foldl deliver st l).
Proof.
  revert st. induction l as [|a l IH]; intros st Hq He; [done|]. simpl.
  rewrite deliver_relink by done. apply IH.
  - by rewrite deliver_queue.
  - by rewrite deliver_heap.
Qed.

Lemma foldl_deliver_heap st l : heap (foldl deliver st l) = heap st.
Proof.
  revert st. induction l as [|a l IH]; intros st; [done|]. simpl.
  by rewrite IH, deliver_heap.
Qed.

Lemma foldl_deliver_queue st l : queue (foldl deliver st l) = queue st.
Proof.
  revert st. induction l as [|a l IH]; intros st; [done|]. simpl.
  by rewrite IH, deliver_queue.
Qed.

Lemma foldl_deliver_isWorking st l :
  isWorking (foldl deliver st l) = isWorking st.
Proof.
  revert st. induction l as [|a l IH]; intros st; [done|]. simpl.
  by rewrite IH, deliver_isWorking.
Qed.
End pass_lemmas.

Section step_lemmas.
Implicit Types (h : list node) (l R : list nat) (st : sched).
Variable loop : sched → option (outcome * sched).

Lemma lap_head st r todo done :
  lap st (r :: todo) done →
  ∃ c nd, cursorNode (queue st) = Some c ∧ next_of (heap st) c = Some r ∧
          heap st !! r = Some nd.
Proof.
  intros (HC & Hcur & _).
  destruct (last ((r :: todo) ++ done)) as [c|] eqn:Hc;
    [|by apply last_None in Hc].
  pose proof (cyc_last_next _ _ _ _ HC Hc) as Hn.
  assert (r < length (heap st)) as Hr by (eapply cyc_lt; [done|left]).
  destruct (lookup_lt_is_Some_2 _ _ Hr) as [nd Hnd]. by exists c, nd.
Qed.

Lemma workStep_dead st r todo done :
  lap st (r :: todo) done → live (heap st) r = false →
  ∃ st1, relinked st st1 ∧
    match todo with
    | [] => lap st1 done []
    | _ :: _ => lap st1 todo done
    end ∧
    workStep loop st =
      match lastNode (queue st1) with
      | None => Some (Normal, completeUpdate st1)
      | Some _ => loop st1
      end.
Proof.
  intros Hlap Hdead.
  destruct (lap_head _ _ _ _ Hlap) as (c & nd & Hc & Hn & Hnd).
  destruct (removeCurrentNode_lap _ _ _ _ Hlap) as (st1 & Hrm & Hrel & Hshape).
  exists st1. split_and!; [done|done|].
  unfold workStep. rewrite Hc, Hn. simpl. rewrite Hnd. simpl.
  unfold live in Hdead. rewrite Hnd in Hdead.
  destruct (updater_current nd) as [cb|].
  - exfalso. apply bool_decide_eq_false in Hdead. apply Hdead. eauto.
  - by rewrite Hrm.
Qed.

Lemma set_cursorNode_relink st c :
  set_cursorNode c st =
  relink (heap st) (mkQueue (q_state (queue st)) (lastNode (queue st)) c) st.
Proof. by destruct st. Qed.

Lemma workStep_live st r todo done :
  lap st (r :: todo) done → live (heap st) r = true →
  passive_heap (heap st) → isWorking st = false →
  let st2 :=
    relink (heap st)
      (mkQueue (q_state (queue st)) (lastNode (queue st)) (Some r))
      (deliver st r) in
  workStep loop st =
    match todo with
    | [] => Some (Normal, completeUpdate st2)
    | _ :: _ => loop st2
    end ∧
  match todo with
  | [] => lap st2 (done ++ [r]) []
  | _ :: _ => lap st2 todo (done ++ [r])
  end.
Proof.
  intros Hlap Hlive Hpas Hwork st2.
  destruct (lap_head _ _ _ _ Hlap) as (c & nd & Hc & Hn & Hnd).
  pose proof Hlap as (HC & _ & Hlast & _).
  assert (set_cursorNode (Some r) (deliver st r) = st2) as Hst2.
  { rewrite set_cursorNode_relink. by rewrite deliver_heap, deliver_queue. }
  assert (isWorking st2 = false) as Hw2.
  { subst st2. simpl. by rewrite deliver_isWorking. }
  assert (cursorNode (queue st2) = Some r) as Hc2 by done.
  assert (lastNode (queue st2) = lastNode (queue st)) as Hl2 by done.
  split.
  - unfold workStep. rewrite Hc, Hn. simpl. rewrite Hnd. simpl.
    unfold live in Hlive. rewrite Hnd in Hlive.
    destruct (updater_current nd) as [cb|] eqn:Hcb;
      [|by apply bool_decide_eq_true in Hlive as [? ?]].
    assert ((if strict_ne (state nd) (q_state (queue st)) then
               match run_callback (doUpdateWork_with loop) cb
                 (set_calls (calls st ++ [mkCall r [] (q_state (queue st))]) st)
               with
               | None => None
               | Some (Normal, st1) => Some st1
               | Some (Throw e, st1) =>
                   Some (set_caughtErrors (caughtErrors st1 ++ [e]) st1)
               end
             else Some st) = Some (deliver st r)) as ->.
    { unfold deliver. rewrite Hnd, Hcb. simpl.
      destruct (strict_ne _ _); [|done].
      rewrite run_callback_passive by (by eapply Hpas).
      by destruct (thrown cb). }
    rewrite Hst2, deliver_isWorking, Hwork, deliver_queue, Hlast.
    destruct todo as [|y todo].
    + by rewrite bool_decide_eq_false_2 by (intros ?; done).
    + rewrite bool_decide_eq_true_2; [done|].
      rewrite last_cons_ne by done. intros Hr.
      destruct HC as [Hnd' _]. simpl in Hnd'.
      apply NoDup_cons in Hnd' as [Hr' _]. apply Hr'.
      change (r ∈ (y :: todo) ++ done).
      apply elem_of_app. left. by apply last_elem_of.
  - change (cyc (heap st) (r :: todo ++ done)) in HC.
    apply cyc_rotate1 in HC. rewrite <- app_assoc in HC.
    assert (heap st2 = heap st) as Hh2 by done.
    destruct todo as [|y todo]; unfold lap; rewrite Hh2, Hc2, Hl2, Hlast.
    + simpl in *. rewrite app_nil_r, last_snoc. split_and!; done.
    + split_and!; try done.
      by rewrite app_assoc, last_snoc.
Qed.
End step_lemmas.

Section lap_runs.
Implicit Types (h : list node) (l R : list nat) (st : sched).

Lemma visits_erase h h' todo done :
  erase h' = erase h → visits h' todo done = visits h todo done.
Proof.
  intros He. unfold visits.
  rewrite (list_filter_iff (λ a, live h' a = true) (λ a, live h a = true))
    by (intros a; by rewrite (erase_live _ _ a He)).
  destruct (last todo) as [t|]; [|done]. by rewrite (erase_live _ _ t He).
Qed.

Lemma visits_cons_live h r T dn :
  live h r = true → T ≠ [] →
  visits h (r :: T) dn = r :: visits h T (dn ++ [r]).
Proof.
  intros Hr HT. unfold visits. rewrite filter_cons_True by done.
  rewrite (last_cons_ne r) by done.
  destruct (last T) as [t|]; [|done].
  destruct (live h t); [done|]. simpl. by rewrite <- !app_assoc.
Qed.

Lemma visits_cons_dead h r T dn :
  live h r = false → T ≠ [] → visits h (r :: T) dn = visits h T dn.
Proof.
  intros Hr HT. unfold visits. rewrite filter_cons_False by (by rewrite Hr).
  by rewrite (last_cons_ne r) by done.
Qed.

Lemma relinked_eq st st1 :
  relinked st st1 → st1 = relink (heap st1) (queue st1) st.
Proof. by intros [? _]. Qed.

Lemma foldl_deliver_relinked st st1 l :
  relinked st st1 →
  foldl deliver st1 l = relink (heap st1) (queue st1) (foldl deliver st l).
Proof.
  intros (Hst1 & Hq & He). rewrite Hst1 at 1.
  by apply foldl_deliver_relink.
Qed.

(** One lap over live nodes: each is processed once, in ring order. *)
Lemma workLoop_live_lap todo : ∀ done st fuel,
  lap st todo done → todo ≠ [] →
  (∀ a, a ∈ todo → live (heap st) a = true) →
  passive_heap (heap st) → isWorking st = false →
  length todo ≤ fuel →
  workLoop fuel st =
    Some (Normal,
          completeUpdate
            (relink (heap st)
               (mkQueue (q_state (queue st)) (last todo) (last todo))
               (foldl deliver st todo))).
Proof.
  induction todo as [|r T IH]; intros dn st fuel Hlap Hne Hlive Hpas Hw Hf;
    [done|].
  destruct fuel as [|f]; [simpl in Hf; lia|]. simpl in Hf.
  change (workLoop (S f) st) with (workStep (workLoop f) st).
  destruct (workStep_live (workLoop f) _ _ _ _ Hlap) as [-> Hlap2];
    [apply Hlive; left | done | done |].
  pose proof Hlap as (_ & _ & Hlast & _).
  destruct T as [|y T].
  - simpl in *. by rewrite Hlast.
  - rewrite (IH _ _ _ Hlap2); try done.
    + simpl heap. simpl q_state. rewrite (last_cons_ne r) by done.
      rewrite foldl_deliver_relink by
        (by rewrite ?deliver_queue, ?deliver_heap).
      by rewrite relink_relink.
    + intros a Ha. simpl. apply Hlive. by right.
    + simpl. by rewrite deliver_isWorking.
    + simpl in *. lia.
Qed.

(** A pass from any point of the ring: dead nodes are removed as they
    are read; when the tail itself is dead, the loop does not stop at the
    new tail and goes round the surviving nodes once more. *)
Lemma workLoop_lap todo : ∀ done st fuel,
  lap st todo done → todo ≠ [] →
  (∀ a, a ∈ done → live (heap st) a = true) →
  passive_heap (heap st) → isWorking st = false →
  2 * length todo + length done ≤ fuel →
  ∃ h', erase h' = erase (heap st) ∧
    let S := done ++ filter (λ a, live (heap st) a = true) todo in
    cyc h' S ∧
    workLoop fuel st =
      Some (Normal,
            completeUpdate
              (relink h' (mkQueue (q_state (queue st)) (last S) (last S))
                 (foldl deliver st (visits (heap st) todo done)))).
Proof.
  induction todo as [|r T IH]; intros dn st fuel Hlap Hne Hlive Hpas Hw Hf;
    [done|].
  destruct fuel as [|f]; [simpl in Hf; lia|]. simpl in Hf.
  change (workLoop (S f) st) with (workStep (workLoop f) st).
  pose proof Hlap as (_ & _ & Hlast & _).
  destruct (live (heap st) r) eqn:Hr.
  - (* the node read is live *)
    destruct (workStep_live (workLoop f) _ _ _ _ Hlap) as [-> Hlap2];
      [done..|].
    rewrite filter_cons_True by done.
    destruct T as [|y T].
    + exists (heap st). split; [done|]. simpl.
      destruct Hlap2 as (HC2 & _). rewrite app_nil_r in HC2.
      split; [done|].
      unfold visits. simpl. rewrite Hr, filter_cons_True by done.
      rewrite filter_nil, last_snoc. simpl in *. by rewrite Hlast.
    + destruct (IH (dn ++ [r]) _ f Hlap2) as (h' & He & HC' & ->);
        try done.
      { intros a [Ha| ->%list_elem_of_singleton]%elem_of_app; simpl; auto. }
      { simpl. by rewrite deliver_isWorking. }
      { rewrite length_app. simpl in *. lia. }
      simpl heap in *. simpl q_state in *.
      rewrite <- app_assoc in HC'. simpl in HC'.
      exists h'. split; [done|]. cbn zeta. split; [done|].
      rewrite <- app_assoc. simpl.
      rewrite foldl_deliver_relink by
        (by rewrite ?deliver_queue, ?deliver_heap).
      rewrite relink_relink.
      by rewrite (visits_cons_live (heap st) r (y :: T)).
  - (* the node read is dead *)
    destruct (workStep_dead (workLoop f) _ _ _ _ Hlap Hr)
      as (st1 & Hrel & Hshape & ->).
    pose proof (relinked_eq _ _ Hrel) as Hst1.
    pose proof Hrel as (_ & Hq1 & He1).
    rewrite filter_cons_False by (by rewrite Hr).
    assert (isWorking st1 = false) as Hw1 by (by rewrite Hst1).
    destruct T as [|y T].
    + (* it was the tail *)
      assert (visits (heap st) [r] dn = dn) as ->.
      { unfold visits. simpl. rewrite Hr.
        rewrite filter_cons_False by (by rewrite Hr).
        by rewrite filter_nil, app_nil_r. }
      rewrite filter_nil, app_nil_r.
      exists (heap st1). split; [done|]. cbn zeta.
      pose proof Hshape as (HC1 & Hc1 & Hl1 & _).
      rewrite app_nil_r in HC1, Hc1. split; [done|].
      rewrite Hl1. destruct (last dn) as [t|] eqn:Ht.
      * rewrite (workLoop_live_lap dn [] st1 f); try done.
        -- rewrite Ht, Hq1.
           by rewrite (foldl_deliver_relinked _ _ _ Hrel), relink_relink.
        -- intros ->. done.
        -- intros a Ha. rewrite (erase_live _ _ a He1). auto.
        -- by eapply erase_passive.
        -- simpl in *. lia.
      * apply last_None in Ht. subst dn. simpl.
        do 3 f_equal. rewrite Hst1 at 1. f_equal.
        destruct (queue st1); simpl in *. by subst.
    + destruct (IH dn st1 f Hshape) as (h' & He & HC' & ->); try done.
      { intros a Ha. rewrite (erase_live _ _ a He1). auto. }
      { by eapply erase_passive. }
      { simpl in *. lia. }
      exists h'. split; [by rewrite He|]. cbn zeta in *.
      rewrite (list_filter_iff (λ a, live (heap st1) a = true)
                 (λ a, live (heap st) a = true)) in *
        by (intros a; by rewrite (erase_live _ _ a He1)).
      split; [done|]. rewrite Hq1, (visits_erase _ _ _ _ He1).
      destruct Hshape as (_ & _ & -> & _).
      destruct (last (y :: T)) eqn:Hy; [|by apply last_None in Hy].
      rewrite (foldl_deliver_relinked _ _ _ Hrel), relink_relink.
      by rewrite (visits_cons_dead (heap st) r (y :: T)).
Qed.
End lap_runs.

Section pass_results.
Implicit Types (h : list node) (l R : list nat) (st : sched).

Lemma drainErrors_frame c errs st :
  let st' := drainErrors c errs st in
  heap st' = heap st ∧ queue st' = queue st ∧ calls st' = calls st ∧
  isWorking st' = isWorking st ∧ states st' = states st ∧
  updates st' = updates st ∧ microtasks st' = microtasks st ∧
  faults st' = faults st.
Proof.
  revert st. induction errs as [|e errs IH]; intros st; simpl; [done|].
  destruct (truthy e); [|done].
  specialize (IH (scheduleAsTask (JRethrow c)
    (set_frames (<[c:=e]> (frames st)) (set_caughtErrors (rev errs) st)))).
  cbn zeta in IH. by destruct IH as (-> & -> & -> & -> & -> & -> & -> & ->).
Qed.

Lemma completeUpdate_frame st :
  let st' := completeUpdate st in
  heap st' = heap st ∧ queue st' = queue st ∧ calls st' = calls st ∧
  isWorking st' = isWorking st ∧ states st' = states st ∧
  updates st' = updates st ∧ microtasks st' = microtasks st ∧
  faults st' = faults st.
Proof.
  unfold completeUpdate, checkForNextUpdate. cbn zeta.
  set (st1 := set_frames (frames st ++ [VUndefined]) st).
  pose proof (drainErrors_frame (length (frames st))
                (rev (caughtErrors st)) st1) as H.
  cbn zeta in H. destruct H as (? & ? & ? & ? & ? & ? & ? & ?).
  change (heap st1) with (heap st) in *.
  change (queue st1) with (queue st) in *.
  change (calls st1) with (calls st) in *.
  change (isWorking st1) with (isWorking st) in *.
  change (states st1) with (states st) in *.
  change (updates st1) with (updates st) in *.
  change (microtasks st1) with (microtasks st) in *.
  change (faults st1) with (faults st) in *.
  destruct (isWorking (drainErrors _ _ _)) eqn:Hw;
    simpl; split_and!; congruence.
Qed.

Lemma calls_deliver st a :
  calls (deliver st a) =
  calls st ++ (if stale (heap st) (q_state (queue st)) a
               then [mkCall a [] (q_state (queue st))] else []).
Proof.
  unfold deliver, stale. destruct (heap st !! a) as [nd|];
    [|by rewrite app_nil_r].
  destruct (strict_ne _ _); [|by rewrite app_nil_r].
  by destruct (updater_current nd ≫= thrown).
Qed.

Lemma calls_foldl_deliver st l :
  calls (foldl deliver st l) =
  calls st ++
    ((λ a, mkCall a [] (q_state (queue st))) <$>
       filter (λ a, stale (heap st) (q_state (queue st)) a = true) l).
Proof.
  revert st. induction l as [|a l IH]; intros st; simpl.
  { by rewrite app_nil_r. }
  rewrite IH, deliver_heap, deliver_queue.
  rewrite calls_deliver.
  destruct (stale (heap st) (q_state (queue st)) a) eqn:Hs.
  - rewrite filter_cons_True by done. by rewrite <- app_assoc.
  - rewrite filter_cons_False by (by rewrite Hs). by rewrite app_nil_r.
Qed.

Lemma erase_state h h' a :
  erase h' = erase h → state <$> h' !! a = state <$> h !! a.
Proof.
  intros He. pose proof (erase_lookup _ _ a He) as Ha.
  destruct (h' !! a) as [[]|], (h !! a) as [[]|]; simpl in *; by simplify_eq.
Qed.

Lemma visits_elem h R a :
  a ∈ visits h R [] ↔ a ∈ R ∧ live h a = true.
Proof.
  unfold visits. destruct (last R) as [t|]; [destruct (live h t)|];
    rewrite ?elem_of_app, ?list_elem_of_filter, ?elem_of_nil; tauto.
Qed.

(** A pass started on an idle, non-empty ring of passive subscribers runs
    to completion; it relinks the ring around the dead nodes, processes
    the nodes of [visits], and ends with the cursor on the tail. *)
Lemma doUpdateWork_idle st R fuel :
  ring st R → R ≠ [] →
  cursorNode (queue st) = lastNode (queue st) → isWorking st = false →
  passive_heap (heap st) → 2 * length R ≤ fuel →
  ∃ h', erase h' = erase (heap st) ∧
    let S := filter (λ a, live (heap st) a = true) R in
    cyc h' S ∧
    doUpdateWork fuel st =
      Some (Normal,
            completeUpdate
              (relink h' (mkQueue (q_state (queue st)) (last S) (last S))
                 (foldl deliver st (visits (heap st) R [])))).
Proof.
  intros (HC & Hlast & Hcur) Hne Hidle Hw Hpas Hf.
  assert (lap st R []) as Hlap.
  { unfold lap. rewrite app_nil_r. split_and!; try done. congruence. }
  destruct (workLoop_lap R [] st fuel Hlap) as (h' & He & HC' & Hrun);
    try done.
  { intros a Ha. by apply elem_of_nil in Ha. }
  { simpl. lia. }
  exists h'. split; [done|]. split; [done|].
  unfold doUpdateWork, doUpdateWork_with. rewrite Hw, Hlast.
  destruct (last R) eqn:Ht; [done|]. by apply last_None in Ht.
Qed.
End pass_results.

(** ** Rings built by [create] *)

Section built_rings.
Implicit Types (st : sched) (cells : list (option callback)).

Lemma passive_heapb_sound h : passive_heapb h = true → passive_heap h.
Proof.
  unfold passive_heapb. rewrite forallb_forall.
  intros Hall a nd cb Ha Hcb.
  assert (In nd h) as Hin.
  { apply list_elem_of_In, list_elem_of_lookup. eauto. }
  specialize (Hall nd Hin). rewrite Hcb in Hall. simpl in Hall.
  by destruct cb as [|[] cb].
Qed.

Lemma create_idle st u :
  cursorNode (queue st) = lastNode (queue st) →
  cursorNode (queue (create u st).2) = lastNode (queue (create u st).2).
Proof.
  intros Hidle. unfold create, appendNodeToQueue. simpl.
  destruct (lastNode (queue st)) as [t|] eqn:Ht; [|done].
  rewrite bool_decide_eq_true_2 by done. done.
Qed.

Lemma ring_of_snoc cells u :
  ring_of (cells ++ [u]) = (create u (ring_of cells)).2.
Proof. unfold ring_of. by rewrite foldl_app. Qed.

Lemma ring_of_ring cells :
  ring (ring_of cells) (seq 0 (length cells)) ∧
  length (heap (ring_of cells)) = length cells ∧
  cursorNode (queue (ring_of cells)) = lastNode (queue (ring_of cells)).
Proof.
  induction cells as [|u cells IH] using rev_ind.
  - split_and!; [apply ring_createUpdater | done | done].
  - destruct IH as (HR & Hlen & Hidle). rewrite ring_of_snoc.
    split_and!.
    + rewrite length_app, seq_app. simpl.
      pose proof (create_ring _ _ u HR) as H. by rewrite Hlen in H.
    + unfold create, appendNodeToQueue. simpl.
      destruct (lastNode _); [destruct (bool_decide _)|]; simpl;
        rewrite ?length_set_next, !length_app, Hlen; done.
    + by apply create_idle.
Qed.
End built_rings.

(** C1, the code against the claim.  One subscriber, created under the
    initial [null] state, with a callback that returns; the state [VObj 1]
    is submitted.  The pass runs to completion with the cursor on the tail
    and the node still live; its callback was called once, but with no
    argument instead of the snapshot, and the node's stamp is still [null]
    and not the snapshot [VObj 1] that the pass was started against. *)
Theorem pass_leaves_stamp_behind :
  ∃ st',
    newState (doUpdateWork 2) (VObj 1) (ring_of [Some []]) = Some (Normal, st') ∧
    cursorNode (queue st') = lastNode (queue st') ∧
    lastNode (queue st') = Some 0 ∧
    live (heap st') 0 = true ∧
    calls st' = [mkCall 0 [] (VObj 1)] ∧
    q_state (queue st') = VObj 1 ∧
    state <$> heap st' !! 0 = Some VNull.
Proof. eexists. split; [vm_compute; reflexivity|]. by vm_compute. Qed.

(** What a pass does do.  Started on an idle, non-empty ring of passive
    subscribers it runs to completion: every live node of the ring whose
    stamp differs from the queue's state has its callback called while that
    state is the queue's state; the pass changes neither the queue's state
    nor the stamp of any node, and it ends with the cursor on the tail. *)
Lemma pass_calls_stale_nodes st R fuel :
  ring st R → R ≠ [] →
  cursorNode (queue st) = lastNode (queue st) → isWorking st = false →
  passive_heap (heap st) → 2 * length R ≤ fuel →
  ∃ st',
    doUpdateWork fuel st = Some (Normal, st') ∧
    (∀ a, a ∈ R → live (heap st) a = true →
          stale (heap st) (q_state (queue st)) a = true →
          ∃ c, c ∈ drop (length (calls st)) (calls st') ∧
               callee c = a ∧ during c = q_state (queue st)) ∧
    (∀ a, state <$> heap st' !! a = state <$> heap st !! a) ∧
    q_state (queue st') = q_state (queue st) ∧
    cursorNode (queue st') = lastNode (queue st').
Proof.
  intros HR Hne Hidle Hw Hpas Hf.
  destruct (doUpdateWork_idle _ _ _ HR Hne Hidle Hw Hpas Hf)
    as (h' & He & _ & Hrun).
  eexists. split; [exact Hrun|].
  match goal with |- context [completeUpdate ?X] =>
    destruct (completeUpdate_frame X) as (Hh & Hq & Hc & _) end.
  rewrite Hh, Hq, Hc. simpl. split_and!; try done.
  - intros a Ha Hlive Hstale. rewrite calls_foldl_deliver.
    rewrite drop_app_length.
    exists (mkCall a [] (q_state (queue st))). split_and!; [|done|done].
    apply list_elem_of_fmap. exists a. split; [done|].
    apply list_elem_of_filter. split; [done|]. by apply visits_elem.
  - intros a. by apply erase_state.
Qed.

(** ** What no run of the updater undoes *)

Section grows_lemmas.
Implicit Types (st : sched) (h : list node).

Lemma grows_refl st : grows st st.
Proof. split; [done|]. eauto. Qed.

Lemma grows_trans st1 st2 st3 : grows st1 st2 → grows st2 st3 → grows st1 st3.
Proof.
  intros [Hc1 Hh1] [Hc2 Hh2]. split; [lia|].
  intros a nd Ha. destruct (Hh1 a nd Ha) as (nd' & Ha' & Hs & Hi).
  destruct (Hh2 a nd' Ha') as (nd'' & ? & ? & ?).
  exists nd''. split_and!; congruence.
Qed.

Lemma grows_heap st h :
  (∀ a nd, heap st !! a = Some nd →
     ∃ nd', h !! a = Some nd' ∧ state nd' = state nd ∧ index nd' = index nd) →
  grows st (set_heap h st).
Proof. intros Hh. split; [done|]. apply Hh. Qed.

Lemma kept_alter st (f : node → node) a :
  (∀ nd, state (f nd) = state nd ∧ index (f nd) = index nd) →
  grows st (set_heap (alter f a (heap st)) st).
Proof.
  intros Hf. apply grows_heap. intros b nd Hb.
  destruct (decide (a = b)) as [->|Hne].
  - rewrite list_lookup_alter_eq, Hb. simpl. eexists. split; [done|]. apply Hf.
  - rewrite list_lookup_alter_ne by done. eauto.
Qed.

Lemma grows_same_heap st st' :
  heap st' = heap st → stateCt st ≤ stateCt st' → grows st st'.
Proof. intros Hh Hc. split; [done|]. rewrite Hh. eauto. Qed.

Lemma grows_set_next st a nx : grows st (set_heap (set_next a nx (heap st)) st).
Proof. by apply kept_alter. Qed.

Lemma grows_appendNodeToQueue st n : grows st (appendNodeToQueue n st).
Proof.
  unfold appendNodeToQueue. destruct (lastNode (queue st)) as [t|].
  - eapply grows_trans; [apply (grows_set_next st n (next_of (heap st) t))|].
    eapply grows_trans; [apply (grows_set_next _ t (Some n))|].
    destruct (bool_decide _); by apply grows_same_heap.
  - eapply grows_trans; [apply (grows_set_next st n (Some n))|].
    by apply grows_same_heap.
Qed.

Lemma grows_create st u : grows st (create u st).2.
Proof.
  unfold create. simpl. eapply grows_trans; [|apply grows_appendNodeToQueue].
  split; [done|]. simpl. intros a nd Ha.
  exists nd. by rewrite lookup_app_l by (by eapply lookup_lt_Some).
Qed.

Lemma grows_removeCurrentNode st : grows st (removeCurrentNode st).2.
Proof.
  unfold removeCurrentNode. destruct (lastNode (queue st)) as [t|];
    [|apply grows_refl].
  case_bool_decide.
  - simpl. eapply grows_trans; [apply (grows_set_next st t None)|].
    by apply grows_same_heap.
  - destruct (cursorNode (queue st)) as [c|]; [|apply grows_refl].
    destruct (next_of (heap st) c) as [r|]; [|apply grows_refl]. simpl.
    eapply grows_trans; [apply (grows_set_next st c (next_of (heap st) r))|].
    destruct (bool_decide _); by apply grows_same_heap.
Qed.

Lemma grows_completeUpdate st : grows st (completeUpdate st).
Proof.
  destruct (completeUpdate_frame st) as (Hh & _).
  apply grows_same_heap; [done|].
  unfold completeUpdate, checkForNextUpdate. cbn zeta.
  set (st1 := set_frames _ st).
  assert (∀ c errs s, stateCt (drainErrors c errs s) = stateCt s) as Hd.
  { intros c errs. induction errs as [|e errs IH]; intros s; simpl; [done|].
    destruct (truthy e); [|done]. by rewrite IH. }
  destruct (isWorking _); simpl; by rewrite Hd.
Qed.

Section with_pass.
Variable pass : sched → option (outcome * sched).
Hypothesis pass_grows : ∀ st, grows_result st (pass st).

Lemma grows_startUpdate st : grows_result st (startUpdate pass st).
Proof.
  intros o st'. unfold startUpdate.
  destruct (isWorking st); [intros [= <- <-]; apply grows_refl|].
  destruct (last (states st)) as [s|]; [|intros [= <- <-]; apply grows_refl].
  simpl. destruct (lastNode (queue st)) as [t|];
    [|intros [= <- <-]; by apply grows_same_heap].
  case_bool_decide; [intros [= <- <-]; by apply grows_same_heap|].
  intros Hp%pass_grows. eapply grows_trans; [|exact Hp].
  by apply grows_same_heap.
Qed.

Lemma newState_counts st s o st' :
  newState pass s st = Some (o, st') →
  grows st st' ∧ (s ≠ q_state (queue st) → stateCt st < stateCt st').
Proof.
  unfold newState, strict_ne. case_bool_decide as Hs.
  - intros [Hc Hh]%grows_startUpdate. simpl in Hc, Hh.
    split; [split; [lia | done]|]. intros _. lia.
  - intros [= <- <-]. split; [apply grows_refl|]. intros Hne. congruence.
Qed.

Lemma grows_run_callback cb : ∀ st, grows_result st (run_callback pass cb st).
Proof.
  induction cb as [|act cb IH]; intros st o st'; simpl.
  { intros [= <- <-]. apply grows_refl. }
  destruct act as [s|u|n|n u|e].
  - destruct (newState pass s st) as [[[|e] st1]|] eqn:Hn; [| |done].
    + intros Hk%IH. eapply grows_trans; [|exact Hk].
      by eapply newState_counts.
    + intros [= <- <-]. by eapply newState_counts.
  - intros Hk%IH. eapply grows_trans; [apply grows_create|exact Hk].
  - intros Hk%IH. eapply grows_trans; [|exact Hk]. by apply grows_same_heap.
  - intros Hk%IH. eapply grows_trans; [|exact Hk]. by apply kept_alter.
  - intros [= <- <-]. apply grows_refl.
Qed.
End with_pass.

Lemma grows_doUpdateWork_with loop :
  (∀ st, grows_result st (loop st)) →
  ∀ st, grows_result st (doUpdateWork_with loop st).
Proof.
  intros Hloop st o st'. unfold doUpdateWork_with.
  destruct (isWorking st); [intros [= <- <-]; apply grows_refl|].
  destruct (lastNode (queue st)); [apply Hloop|].
  intros [= <- <-]. apply grows_completeUpdate.
Qed.

Lemma grows_workStep loop :
  (∀ st, grows_result st (loop st)) →
  ∀ st, grows_result st (workStep loop st).
Proof.
  intros Hloop st o st'. unfold workStep.
  destruct (cursorNode (queue st)) as [c|];
    [|intros [= <- <-]; apply grows_refl].
  destruct (_ ≫= _) as [[n nd]|]; [|intros [= <- <-]; apply grows_refl].
  destruct (updater_current nd) as [cb|].
  - cbn zeta.
    assert (∀ st1, grows st st1 →
      (if isWorking (set_cursorNode (Some n) st1)
       then Some (Normal, scheduleAsMicrotask JContinueUpdate
                            (set_cursorNode (Some n) st1))
       else if bool_decide
                 (cursorNode (queue (set_cursorNode (Some n) st1)) ≠
                  lastNode (queue (set_cursorNode (Some n) st1)))
            then loop (set_cursorNode (Some n) st1)
            else Some (Normal, completeUpdate (set_cursorNode (Some n) st1)))
      = Some (o, st') → grows st st') as Hrest.
    { intros st1 H1. destruct (isWorking _).
      - intros [= <- <-]. eapply grows_trans; [exact H1|].
        by apply grows_same_heap.
      - destruct (bool_decide _).
        + intros Hl%Hloop. eapply grows_trans; [exact H1|].
          eapply grows_trans; [|exact Hl]. by apply grows_same_heap.
        + intros [= <- <-]. eapply grows_trans; [exact H1|].
          eapply grows_trans; [|apply grows_completeUpdate].
          by apply grows_same_heap. }
    destruct (strict_ne _ _); [|apply Hrest, grows_refl].
    destruct (run_callback _ cb _) as [[[|e] st1]|] eqn:Hcb; [| |done].
    + apply Hrest. apply grows_run_callback in Hcb;
        [|by apply grows_doUpdateWork_with].
      eapply grows_trans; [|exact Hcb]. by apply grows_same_heap.
    + apply Hrest. apply grows_run_callback in Hcb;
        [|by apply grows_doUpdateWork_with].
      eapply grows_trans; [|eapply grows_trans; [exact Hcb|]];
        by apply grows_same_heap.
  - pose proof (grows_removeCurrentNode st) as Hrm.
    destruct (removeCurrentNode st) as [[|e] st1]; simpl in Hrm.
    + destruct (lastNode (queue st1)).
      * intros Hl%Hloop. by eapply grows_trans.
      * intros [= <- <-]. eapply grows_trans; [exact Hrm|].
        apply grows_completeUpdate.
    + by intros [= <- <-].
Qed.

Lemma grows_workLoop fuel : ∀ st, grows_result st (workLoop fuel st).
Proof.
  induction fuel as [|fuel IH]; intros st; [by intros ? ?|].
  by apply grows_workStep.
Qed.

Lemma grows_doUpdateWork fuel st : grows_result st (doUpdateWork fuel st).
Proof. apply grows_doUpdateWork_with, grows_workLoop. Qed.
End grows_lemmas.

(** ** What the loop lets escape *)

Section escapes.
Implicit Types (st : sched).

Lemma removeCurrentNode_throws st e st1 :
  removeCurrentNode st = (Throw e, st1) → e = VTypeError.
Proof.
  unfold removeCurrentNode. repeat case_match; by intros [= <- <-].
Qed.

Lemma workStep_throws loop :
  (∀ st e st', loop st = Some (Throw e, st') → e = VTypeError) →
  ∀ st e st', workStep loop st = Some (Throw e, st') → e = VTypeError.
Proof.
  intros Hloop st e st'. unfold workStep.
  destruct (cursorNode (queue st)) as [c|]; [|by intros [= <- <-]].
  destruct (_ ≫= _) as [[n nd]|]; [|by intros [= <- <-]].
  destruct (updater_current nd) as [cb|].
  - cbn zeta.
    destruct (if strict_ne _ _ then _ else _) as [st1|]; [|done].
    destruct (isWorking _); [done|].
    destruct (bool_decide _); [apply Hloop | done].
  - destruct (removeCurrentNode st) as [[|e1] st1] eqn:Hrm.
    + destruct (lastNode (queue st1)); [apply Hloop | done].
    + intros [= <- <-]. by eapply removeCurrentNode_throws.
Qed.

Lemma workLoop_throws fuel :
  ∀ st e st', workLoop fuel st = Some (Throw e, st') → e = VTypeError.
Proof.
  induction fuel as [|fuel IH]; intros st e st'; [done|].
  by apply workStep_throws.
Qed.

Lemma doUpdateWork_throws fuel st e st' :
  doUpdateWork fuel st = Some (Throw e, st') → e = VTypeError.
Proof.
  unfold doUpdateWork, doUpdateWork_with.
  destruct (isWorking st); [done|].
  destruct (lastNode (queue st)); [apply workLoop_throws | done].
Qed.
End escapes.

(** C5. [startUpdate] changes nothing when the working flag is set or when
    no state is pending.  Otherwise it installs the most recent pending
    state as the queue's state and empties the pending buffer, and then:
    returns if the ring is empty, throws the "unfinished update" error if
    the cursor is not on the tail, and runs a pass if it is.  It throws
    that error exactly when it is called with the flag clear, a state
    pending, a non-empty ring and the cursor off the tail. *)
Theorem startUpdate_spec :
  (∀ pass st, isWorking st = true → startUpdate pass st = Some (Normal, st)) ∧
  (∀ pass st, states st = [] → startUpdate pass st = Some (Normal, st)) ∧
  (∀ pass st older s,
     isWorking st = false → states st = older ++ [s] →
     let st1 := set_states [] (set_q_state s st) in
     q_state (queue st1) = s ∧ states st1 = [] ∧
     startUpdate pass st =
       match lastNode (queue st) with
       | None => Some (Normal, st1)
       | Some l =>
           if bool_decide (cursorNode (queue st) = Some l)
           then pass (set_trace (S (updates st)) (stateCt st) st1)
           else Some (Throw unfinished_update, st1)
       end) ∧
  (∀ fuel st,
     (∃ st', startUpdate (doUpdateWork fuel) st
             = Some (Throw unfinished_update, st')) ↔
     isWorking st = false ∧ states st ≠ [] ∧ lastNode (queue st) ≠ None ∧
     cursorNode (queue st) ≠ lastNode (queue st)).
Proof.
  split_and!.
  - intros pass st Hw. unfold startUpdate. by rewrite Hw.
  - intros pass st Hs. unfold startUpdate. rewrite Hs.
    by destruct (isWorking st).
  - intros pass st older s Hw Hs st1. split_and!; [done|done|].
    unfold startUpdate. rewrite Hw, Hs, last_snoc. simpl.
    destruct (lastNode (queue st)) as [l|]; [|done].
    by repeat case_bool_decide.
  - intros fuel st. unfold startUpdate. split.
    + intros [st' H]. destruct (isWorking st); [done|].
      destruct (last (states st)) as [s|] eqn:Hs; [|done].
      simpl in H. destruct (lastNode (queue st)) as [l|]; [|done].
      split_and!; [done | by intros Hn; rewrite Hn in Hs | done |].
      case_bool_decide as Hc; [done|].
      by apply doUpdateWork_throws in H.
    + intros (Hw & Hs & Hl & Hc). rewrite Hw.
      destruct (last (states st)) as [s|] eqn:Hlast;
        [|by apply last_None in Hlast].
      simpl. destruct (lastNode (queue st)) as [l|]; [|done].
      rewrite bool_decide_eq_true_2 by done. eauto.
Qed.

(** C10. [newState s] changes nothing exactly when [s] is the queue's state,
    that is the state installed by the most recent pass start, not the
    state submitted last: any other [s] is counted, pushed on the pending
    buffer and handed to [startUpdate], and the call never leaves the
    updater as it found it.  In particular, while the working flag is set,
    submitting twice the same state that is not the queue's state leaves it
    twice on the pending buffer. *)
Theorem newState_spec :
  (∀ pass st s, s = q_state (queue st) → newState pass s st = Some (Normal, st)) ∧
  (∀ pass st s, s ≠ q_state (queue st) →
     newState pass s st =
     startUpdate pass (set_states (states st ++ [s])
                         (set_stateCt (S (stateCt st)) st))) ∧
  (∀ fuel st s o,
     newState (doUpdateWork fuel) s st = Some (o, st) ↔
     s = q_state (queue st) ∧ o = Normal) ∧
  (∀ pass st s, isWorking st = true → s ≠ q_state (queue st) →
     ∃ st1 st2,
       newState pass s st = Some (Normal, st1) ∧
       newState pass s st1 = Some (Normal, st2) ∧
       states st2 = states st ++ [s; s] ∧
       q_state (queue st2) = q_state (queue st) ∧
       calls st2 = calls st ∧ updates st2 = updates st).
Proof.
  split_and!.
  - intros pass st s ->. unfold newState, strict_ne.
    by rewrite bool_decide_eq_false_2 by (intros ?; done).
  - intros pass st s Hs. unfold newState, strict_ne.
    by rewrite bool_decide_eq_true_2 by congruence.
  - intros fuel st s o. split.
    + intros H. destruct (decide (s = q_state (queue st))) as [->|Hne].
      * split; [done|]. unfold newState, strict_ne in H.
        rewrite bool_decide_eq_false_2 in H by (intros ?; done). congruence.
      * apply newState_counts in H as [_ Hlt]; [|apply grows_doUpdateWork].
        specialize (Hlt Hne). lia.
    + intros [-> ->]. unfold newState, strict_ne.
      by rewrite bool_decide_eq_false_2 by (intros ?; done).
  - intros pass st s Hw Hs.
    set (push := λ st, set_states (states st ++ [s])
                         (set_stateCt (S (stateCt st)) st)).
    assert (∀ st, isWorking st = true → s ≠ q_state (queue st) →
                  newState pass s st = Some (Normal, push st)) as Hpush.
    { intros st0 Hw0 Hs0. unfold newState, strict_ne, startUpdate.
      rewrite bool_decide_eq_true_2 by congruence. simpl. by rewrite Hw0. }
    exists (push st), (push (push st)).
    split_and!; [by apply Hpush | by apply Hpush | | done..].
    simpl. by rewrite <- app_assoc.
Qed.

Lemma appendNodeToQueue_erase n st :
  erase (heap (appendNodeToQueue n st)) = erase (heap st) ∧
  q_state (queue (appendNodeToQueue n st)) = q_state (queue st).
Proof.
  unfold appendNodeToQueue. destruct (lastNode (queue st)) as [t|].
  - destruct (bool_decide _); simpl; by rewrite !erase_set_next.
  - simpl. by rewrite erase_set_next.
Qed.

(** C9. [create] stamps the new node with the queue's state.  When the loop
    reads a live node whose stamp is the queue's state, it does not call
    the callback: it only moves the cursor onto the node and goes on as
    after any node (suspend if the flag is set, stop at the tail, else read
    the next node).  Hence, in a pass over passive subscribers, every call
    made is to a node whose stamp differed from the queue's state. *)
Theorem stamped_nodes_are_skipped :
  (∀ u st, ∃ nd,
     heap (create u st).2 !! (create u st).1 = Some nd ∧
     state nd = q_state (queue st) ∧ updater_current nd = u ∧
     q_state (queue (create u st).2) = q_state (queue st)) ∧
  (∀ loop st c n nd cb,
     cursorNode (queue st) = Some c → next_of (heap st) c = Some n →
     heap st !! n = Some nd → updater_current nd = Some cb →
     state nd = q_state (queue st) →
     let st2 := set_cursorNode (Some n) st in
     calls st2 = calls st ∧ caughtErrors st2 = caughtErrors st ∧
     workStep loop st =
       if isWorking st
       then Some (Normal, scheduleAsMicrotask JContinueUpdate st2)
       else if bool_decide (Some n ≠ lastNode (queue st))
            then loop st2
            else Some (Normal, completeUpdate st2)) ∧
  (∀ st R fuel,
     ring st R → R ≠ [] →
     cursorNode (queue st) = lastNode (queue st) → isWorking st = false →
     passive_heap (heap st) → 2 * length R ≤ fuel →
     ∃ st', doUpdateWork fuel st = Some (Normal, st') ∧
       ∀ c, c ∈ drop (length (calls st)) (calls st') →
            stale (heap st) (q_state (queue st)) (callee c) = true).
Proof.
  split_and!.
  - intros u st. unfold create. cbn [fst snd].
    set (nd0 := mkNode (nodeCount st) u (q_state (queue st)) None).
    set (st0 := set_heap (heap st ++ [nd0])
                  (set_nodeCount (S (nodeCount st)) st)).
    destruct (appendNodeToQueue_erase (length (heap st)) st0) as [He Hq].
    pose proof (erase_lookup _ _ (length (heap st)) He) as Hl.
    assert (heap st0 !! length (heap st) = Some nd0) as H0.
    { simpl. by rewrite list_lookup_middle. }
    rewrite H0 in Hl.
    destruct (heap (appendNodeToQueue _ st0) !! _) as [nd|] eqn:Hnd; [|done].
    exists nd. simpl in Hl. injection Hl as Hi Hu Hs.
    split_and!; [exact Hnd | done | done | exact Hq].
  - intros loop st c n nd cb Hc Hn Hnd Hcb Hs st2. split_and!; [done..|].
    unfold workStep. rewrite Hc, Hn. simpl. rewrite Hnd. simpl.
    rewrite Hcb, Hs. unfold strict_ne.
    by rewrite bool_decide_eq_false_2 by (intros ?; done).
  - intros st R fuel HR Hne Hidle Hw Hpas Hf.
    destruct (doUpdateWork_idle _ _ _ HR Hne Hidle Hw Hpas Hf)
      as (h' & He & _ & Hrun).
    eexists. split; [exact Hrun|].
    match goal with |- context [completeUpdate ?X] =>
      destruct (completeUpdate_frame X) as (_ & _ & Hc & _) end.
    rewrite Hc. simpl. rewrite calls_foldl_deliver, drop_app_length.
    intros c (a & -> & Ha)%list_elem_of_fmap.
    by apply list_elem_of_filter in Ha as [? _].
Qed.

(** ** Runs from the host's point of view *)

(** C2 (the code at the failing input).  Two subscribers; the callback of
    the second one, the tail, calls [updating].  The pass is suspended
    after the tail, with the continuation queued as a microtask and the
    cursor on the tail.  The continuation clears the flag and enters the
    [do ... while] again, whose body reads [cursorNode.nextNode] before the
    cursor is compared with the tail: it goes round the ring once more.
    Within the one pass (the pass counter is 1) both nodes are called
    twice, and the pass is suspended after the tail again. *)
Theorem tail_suspension_repeats_the_lap :
  let st0 := ring_of [Some []; Some [AUpdating 1]] in
  ∃ st1 st2,
    newState (doUpdateWork 4) (VObj 1) st0 = Some (Normal, st1) ∧
    isWorking st1 = true ∧ microtasks st1 = [JContinueUpdate] ∧
    tasks st1 = [] ∧
    cursorNode (queue st1) = lastNode (queue st1) ∧
    calls st1 = [mkCall 0 [] (VObj 1); mkCall 1 [] (VObj 1)] ∧
    host_run 4 JContinueUpdate (set_microtasks [] st1) = Some st2 ∧
    updates st2 = 1 ∧
    calls st2 = [mkCall 0 [] (VObj 1); mkCall 1 [] (VObj 1);
                 mkCall 0 [] (VObj 1); mkCall 1 [] (VObj 1)] ∧
    isWorking st2 = true ∧ microtasks st2 = [JContinueUpdate].
Proof.
  eexists _, _. split; [vm_compute; reflexivity|].
  split_and!; try (vm_compute; reflexivity).
Qed.

(** A suspension before the tail is resumed where it stopped: every node
    is called once and the pass completes. *)
Example inner_suspension_resumes :
  ∃ st',
    host_submit 4 (VObj 1) (ring_of [Some []; Some [AUpdating 1]; Some []])
    = Some st' ∧
    updates st' = 1 ∧ isWorking st' = false ∧
    cursorNode (queue st') = lastNode (queue st') ∧
    calls st' = [mkCall 0 [] (VObj 1); mkCall 1 [] (VObj 1);
                 mkCall 2 [] (VObj 1)].
Proof. eexists. split; [vm_compute; reflexivity|]. by vm_compute. Qed.

(** Whatever truthy errors the buffer holds, [completeUpdate] schedules one
    deferred [throw e] per error, all on the same binding, and leaves
    [undefined] in that binding: this is the value each of them throws. *)
Lemma drainErrors_truthy c errs : ∀ st,
  Forall (λ e, truthy e = true) errs →
  tasks (drainErrors c errs st) =
    tasks st ++ replicate (length errs) (JRethrow c) ∧
  frames (drainErrors c errs st) = <[c := VUndefined]> (frames st) ∧
  caughtErrors (drainErrors c errs st) = [].
Proof.
  induction errs as [|e errs IH]; intros st Hall; simpl.
  { by rewrite app_nil_r. }
  apply Forall_cons in Hall as [-> Hall].
  destruct (IH (scheduleAsTask (JRethrow c)
                  (set_frames (<[c:=e]> (frames st))
                     (set_caughtErrors (rev errs) st))) Hall)
    as (-> & -> & ->).
  simpl. rewrite list_insert_insert_eq, <- app_assoc. done.
Qed.

Lemma completeUpdate_rethrows_undefined st :
  Forall (λ e, truthy e = true) (caughtErrors st) →
  let c := length (frames st) in
  tasks (completeUpdate st) =
    tasks st ++ replicate (length (caughtErrors st)) (JRethrow c) ++
    (if isWorking st then [] else [JStartUpdate]) ∧
  run_job 0 (JRethrow c) (completeUpdate st)
  = Some (Throw VUndefined, completeUpdate st).
Proof.
  intros Hall c. unfold completeUpdate, checkForNextUpdate. cbn zeta.
  set (st1 := set_frames (frames st ++ [VUndefined]) st).
  change (caughtErrors st1) with (caughtErrors st).
  destruct (drainErrors_truthy (length (frames st)) (rev (caughtErrors st)) st1)
    as (Ht & Hf & _).
  { by apply Forall_rev. }
  destruct (drainErrors_frame (length (frames st)) (rev (caughtErrors st)) st1)
    as (_ & _ & _ & Hw & _).
  rewrite Hw. change (isWorking st1) with (isWorking st).
  rewrite length_rev in Ht.
  assert (∀ X, frames X = <[c:=VUndefined]> (frames st1) →
               run_job 0 (JRethrow c) X = Some (Throw VUndefined, X)) as Hrun.
  { intros X HX. simpl. rewrite HX.
    rewrite list_lookup_insert_eq; [done|].
    subst st1 c. simpl. rewrite length_app. simpl. lia. }
  destruct (isWorking st); simpl.
  - rewrite app_nil_r. split; [exact Ht | by apply Hrun].
  - split; [by rewrite Ht, <- app_assoc|].
    apply (Hrun (scheduleAsTask JStartUpdate _)). exact Hf.
Qed.

(** C4 (the code at the failing input).  One subscriber whose callback
    throws the error "boom": the host sees one unhandled fault, and it is
    [undefined], not the error, because every deferred [throw e] reads the
    one binding [e] after the draining loop has ended.  Three subscribers
    throwing "a", [0] and "c": the draining loop stops at the falsy [0], so
    after the pass and the deferred work "a" is still in the buffer and
    the host has seen a single fault, [0]. *)
Theorem rethrown_error_is_lost :
  (∃ st',
     host_submit 4 (VObj 1) (ring_of [Some [AThrow (VError "boom")]]) = Some st' ∧
     calls st' = [mkCall 0 [] (VObj 1)] ∧
     caughtErrors st' = [] ∧ tasks st' = [] ∧
     faults st' = [VUndefined]) ∧
  (∃ st',
     host_submit 6 (VObj 1)
       (ring_of [Some [AThrow (VError "a")]; Some [AThrow (VNum 0)];
                 Some [AThrow (VError "c")]]) = Some st' ∧
     calls st' = [mkCall 0 [] (VObj 1); mkCall 1 [] (VObj 1);
                  mkCall 2 [] (VObj 1)] ∧
     caughtErrors st' = [VError "a"] ∧ tasks st' = [] ∧
     faults st' = [VNum 0]).
Proof.
  split; (eexists; split; [vm_compute; reflexivity|]); by vm_compute.
Qed.


Lemma foldl_deliver_frame st l :
  states (foldl deliver st l) = states st ∧
  updates (foldl deliver st l) = updates st.
Proof.
  revert st. induction l as [|a l IH]; intros st; [done|]. simpl.
  destruct (IH (deliver st a)) as [-> ->]. unfold deliver.
  destruct (heap st !! a) as [nd|]; [|done].
  destruct (strict_ne _ _); [|done]. by destruct (_ ≫= thrown).
Qed.


(** The same through the event loop.  The callback of the only subscriber
    calls [updating], then submits [VObj 2] and [VObj 3], and is passive
    from then on.  Both states wait on the buffer while the pass for
    [VObj 1] is suspended; the continuation finishes that pass (going round
    once more, the node being the tail), and the pass started by the
    deferred [startUpdate] is for [VObj 3]: no call is made under
    [VObj 2]. *)
Example suspended_submissions_coalesce :
  ∃ st',
    host_submit 6 (VObj 1)
      (ring_of [Some [AUpdating 0; ANewState (VObj 2); ANewState (VObj 3);
                      ASetCurrent 0 (Some [])]]) = Some st' ∧
    updates st' = 2 ∧ states st' = [] ∧ q_state (queue st') = VObj 3 ∧
    calls st' = [mkCall 0 [] (VObj 1); mkCall 0 [] (VObj 1);
                 mkCall 0 [] (VObj 3)].
Proof. eexists. split; [vm_compute; reflexivity|]. by vm_compute. Qed.

(** Why the callbacks are taken passive and the ring non-empty in the
    second half.  With a callback that itself submits [VObj 9], the
    [startUpdate] that follows two pending submissions runs two passes,
    the second one nested in the call and under [VObj 9]; with no
    subscriber it runs none. *)
Example coalescing_needs_passive_callbacks :
  (∃ st1 st2 st4,
     newState (doUpdateWork 5) (VObj 1)
       (updating 0 (ring_of [Some [ANewState (VObj 9)]]))
     = Some (Normal, st1) ∧
     newState (doUpdateWork 5) (VObj 2) st1 = Some (Normal, st2) ∧
     startUpdate (doUpdateWork 5) (set_working false None st2)
     = Some (Normal, st4) ∧
     updates st4 = 2 ∧ q_state (queue st4) = VObj 9 ∧
     calls st4 = [mkCall 0 [] (VObj 2); mkCall 0 [] (VObj 9)]) ∧
  (∃ st1 st2 st4,
     newState (doUpdateWork 5) (VObj 1) (updating 0 createUpdater)
     = Some (Normal, st1) ∧
     newState (doUpdateWork 5) (VObj 2) st1 = Some (Normal, st2) ∧
     startUpdate (doUpdateWork 5) (set_working false None st2)
     = Some (Normal, st4) ∧
     updates st4 = 0 ∧ q_state (queue st4) = VObj 2 ∧ calls st4 = []).
Proof.
  split; (eexists _, _, _; split; [vm_compute; reflexivity|];
          split; [vm_compute; reflexivity|];
          split; [vm_compute; reflexivity|]); by vm_compute.
Qed.

(** ** The theorems at concrete updaters *)


Lemma ring_one_linked_one_fresh : ring one_linked_one_fresh [0].
Proof.
  split_and!; [|vm_compute; reflexivity|left].
  split; [apply NoDup_singleton|]. split; [vm_compute; reflexivity|exact I].
Qed.

(** One subscriber: created, then removed. *)
Lemma ring_invariant_preserved_witness :
  ring_invariant (create (Some []) createUpdater).2 ∧
  ring_invariant (removeCurrentNode (create (Some []) createUpdater).2).2.
Proof.
  destruct ring_invariant_preserved as (H0 & _ & Hc & Hr).
  pose proof (Hc createUpdater (Some []) H0) as H1.
  split; [exact H1|]. apply (Hr _ H1). vm_compute. discriminate.
Defined.

(** A ring of one node, to which a second, fresh node is appended. *)
Lemma appendNodeToQueue_spec_witness :
  lastNode (queue (appendNodeToQueue 1 one_linked_one_fresh)) = Some 1.
Proof.
  refine (proj1 (appendNodeToQueue_spec one_linked_one_fresh 1 _ _ _)).
  - exact (ring_sound _ _ ring_one_linked_one_fresh).
  - vm_compute. lia.
  - intros Hres.
    apply (ring_resident _ _ _ ring_one_linked_one_fresh) in Hres.
    apply list_elem_of_singleton in Hres. discriminate.
Defined.


(** A pass over three subscribers behind the queue's state. *)
Lemma pass_calls_stale_nodes_witness :
  ∃ st', doUpdateWork 6 three_behind = Some (Normal, st') ∧
         cursorNode (queue st') = lastNode (queue st').
Proof.
  destruct (pass_calls_stale_nodes three_behind [0; 1; 2] 6)
    as (st' & Hrun & _ & _ & _ & Hidle).
  - exact (proj1 (ring_of_ring [Some []; None; Some [AThrow (VError "boom")]])).
  - discriminate.
  - vm_compute. reflexivity.
  - vm_compute. reflexivity.
  - apply passive_heapb_sound. vm_compute. reflexivity.
  - vm_compute. lia.
  - exists st'. split; [exact Hrun | exact Hidle].
Defined.

(** The same pass: its calls are to stale nodes. *)
Lemma stamped_nodes_are_skipped_witness :
  ∃ st', doUpdateWork 6 three_behind = Some (Normal, st') ∧
    ∀ c, c ∈ drop (length (calls three_behind)) (calls st') →
         stale (heap three_behind) (q_state (queue three_behind)) (callee c)
         = true.
Proof.
  destruct stamped_nodes_are_skipped as (_ & _ & Hpass).
  apply (Hpass three_behind [0; 1; 2] 6).
  - exact (proj1 (ring_of_ring [Some []; None; Some [AThrow (VError "boom")]])).
  - discriminate.
  - vm_compute. reflexivity.
  - vm_compute. reflexivity.
  - apply passive_heapb_sound. vm_compute. reflexivity.
  - vm_compute. lia.
Defined.

(** An updater whose cursor was left off the tail. *)
Lemma startUpdate_spec_witness :
  ∃ st', startUpdate (doUpdateWork 3) unfinished
         = Some (Throw unfinished_update, st').
Proof.
  destruct startUpdate_spec as (_ & _ & _ & Hthrow).
  apply Hthrow. split; [vm_compute; reflexivity|]. split; [vm_compute; discriminate|].
  split; vm_compute; discriminate.
Defined.

(** The same state submitted twice while the working flag is set. *)
Lemma newState_spec_witness :
  ∃ st1 st2,
    newState (doUpdateWork 3) (VObj 1) (updating 0 (ring_of [Some []]))
    = Some (Normal, st1) ∧
    newState (doUpdateWork 3) (VObj 1) st1 = Some (Normal, st2) ∧
    states st2 = [VObj 1; VObj 1].
Proof.
  destruct newState_spec as (_ & _ & _ & Htwice).
  destruct (Htwice (doUpdateWork 3) (updating 0 (ring_of [Some []])) (VObj 1))
    as (st1 & st2 & H1 & H2 & Hs & _).
  - vm_compute. reflexivity.
  - vm_compute. discriminate.
  - exists st1, st2. split; [exact H1|]. split; [exact H2 | exact Hs].
Defined.


(** * Further properties of the updater *)

(** ** A submission that starts a pass *)

Lemma newState_starts_pass pass st s l :
  isWorking st = false → s ≠ q_state (queue st) →
  lastNode (queue st) = Some l → cursorNode (queue st) = Some l →
  newState pass s st = pass (pass_start s st).
Proof.
  intros Hw Hs Hl Hc. unfold newState, strict_ne, startUpdate.
  rewrite bool_decide_eq_true_2 by congruence. simpl.
  rewrite Hw, last_snoc, Hl, Hc.
  by rewrite bool_decide_eq_false_2 by (intros ?; done).
Qed.

Lemma newState_idle st R fuel s :
  ring st R → R ≠ [] →
  cursorNode (queue st) = lastNode (queue st) → isWorking st = false →
  passive_heap (heap st) → s ≠ q_state (queue st) → 2 * length R ≤ fuel →
  ∃ h', erase h' = erase (heap st) ∧
    let S := filter (λ a, live (heap st) a = true) R in
    cyc h' S ∧
    newState (doUpdateWork fuel) s st =
      Some (Normal,
            completeUpdate
              (relink h' (mkQueue s (last S) (last S))
                 (foldl deliver (pass_start s st) (visits (heap st) R [])))).
Proof.
  intros HR Hne Hidle Hw Hpas Hs Hf.
  pose proof HR as (_ & Hlast & _).
  destruct (last R) as [l|] eqn:Hl; [|by apply last_None in Hl].
  rewrite (newState_starts_pass _ _ _ l) by congruence.
  by apply (doUpdateWork_idle (pass_start s st) R fuel).
Qed.

Lemma due_visits h s R t :
  last R = Some t → live h t = true →
  filter (λ a, stale h s a = true) (visits h R []) = due h s R.
Proof.
  intros Ht Hlive. unfold visits, due. rewrite Ht, Hlive.
  rewrite list_filter_filter. apply list_filter_iff. intros a. tauto.
Qed.


Lemma stale_pass_start s st a :
  stale (heap (pass_start s st)) (q_state (queue (pass_start s st))) a
  = stale (heap st) s a.
Proof. reflexivity. Qed.

(** Lazy reaping.  A submission that starts a pass on an idle ring of
    passive subscribers returns normally and leaves in the ring exactly the
    nodes that were live, in their order, with the cursor on the tail; no
    node changes from dead to live or back. *)
Theorem pass_reaps_dead_nodes st R fuel s :
  ring st R → R ≠ [] →
  cursorNode (queue st) = lastNode (queue st) → isWorking st = false →
  passive_heap (heap st) → s ≠ q_state (queue st) → 2 * length R ≤ fuel →
  ∃ st',
    newState (doUpdateWork fuel) s st = Some (Normal, st') ∧
    ring st' (filter (λ a, live (heap st) a = true) R) ∧
    ring_invariant st' ∧
    cursorNode (queue st') = lastNode (queue st') ∧
    (∀ y, resident st' y ↔ y ∈ R ∧ live (heap st) y = true) ∧
    (∀ a, live (heap st') a = live (heap st) a).
Proof.
  intros HR Hne Hidle Hw Hpas Hs Hf.
  destruct (newState_idle _ _ _ _ HR Hne Hidle Hw Hpas Hs Hf)
    as (h' & He & HC & Hrun).
  eexists. split; [exact Hrun|].
  match goal with |- context [completeUpdate ?X] =>
    destruct (completeUpdate_frame X) as (Hh & Hq & _) end.
  set (S := filter (λ a, live (heap st) a = true) R) in *.
  match goal with |- context [completeUpdate ?X] =>
    assert (ring (completeUpdate X) S) as HR' end.
  { unfold ring. rewrite Hh, Hq. simpl. split_and!; [done|done|].
    destruct (last S) as [c|] eqn:Hc; [by apply last_elem_of|].
    by apply last_None in Hc. }
  split_and!; [done | by eapply ring_sound | by rewrite Hq | |].
  - intros y. rewrite (ring_resident _ _ _ HR').
    subst S. rewrite list_elem_of_filter. tauto.
  - intros a. rewrite Hh. simpl. by apply erase_live.
Qed.

Lemma newState_live_tail st R fuel s t :
  ring st R → last R = Some t → live (heap st) t = true →
  cursorNode (queue st) = lastNode (queue st) → isWorking st = false →
  passive_heap (heap st) → s ≠ q_state (queue st) → 2 * length R ≤ fuel →
  ∃ st',
    newState (doUpdateWork fuel) s st = Some (Normal, st') ∧
    calls st' = calls st ++ ((λ a, mkCall a [] s) <$> due (heap st) s R) ∧
    q_state (queue st') = s ∧ states st' = [] ∧
    updates st' = S (updates st).
Proof.
  intros HR Ht Hlive Hidle Hw Hpas Hs Hf.
  assert (R ≠ []) as Hne by (by intros ->).
  destruct (newState_idle _ _ _ _ HR Hne Hidle Hw Hpas Hs Hf)
    as (h' & He & HC & Hrun).
  eexists. split; [exact Hrun|].
  match goal with |- context [completeUpdate ?X] =>
    destruct (completeUpdate_frame X) as (_ & Hq & Hc & _ & Hst & Hu & _) end.
  rewrite Hq, Hc, Hst, Hu. simpl.
  destruct (foldl_deliver_frame (pass_start s st) (visits (heap st) R []))
    as [-> ->].
  split_and!; [|done..]. rewrite calls_foldl_deliver. simpl.
  by rewrite (due_visits _ _ _ t).
Qed.

(** Order of the calls.  When the tail of the ring is live, such a pass
    calls every node that is live and whose stamp is not the submitted
    state exactly once, in ring order from the head, without argument, and
    calls no other node. *)
Theorem pass_calls_in_ring_order st R fuel s t :
  ring st R → last R = Some t → live (heap st) t = true →
  cursorNode (queue st) = lastNode (queue st) → isWorking st = false →
  passive_heap (heap st) → s ≠ q_state (queue st) → 2 * length R ≤ fuel →
  ∃ st',
    newState (doUpdateWork fuel) s st = Some (Normal, st') ∧
    calls st' = calls st ++ ((λ a, mkCall a [] s) <$> due (heap st) s R) ∧
    q_state (queue st') = s ∧ states st' = [] ∧
    updates st' = S (updates st).
Proof. apply newState_live_tail. Qed.


(** ** The error collector and the deferred work *)

Lemma drainErrors_stops c l1 f l2 : ∀ st,
  Forall (λ e, truthy e = true) l1 → truthy f = false →
  c < length (frames st) →
  tasks (drainErrors c (l1 ++ f :: l2) st) =
    tasks st ++ replicate (length l1) (JRethrow c) ∧
  frames (drainErrors c (l1 ++ f :: l2) st) !! c = Some f ∧
  caughtErrors (drainErrors c (l1 ++ f :: l2) st) = rev l2.
Proof.
  induction l1 as [|e l1 IH]; intros st Hall Hf Hc; simpl.
  - rewrite Hf. simpl. rewrite app_nil_r.
    by rewrite list_lookup_insert_eq.
  - apply Forall_cons in Hall as [-> Hall].
    destruct (IH (scheduleAsTask (JRethrow c)
                    (set_frames (<[c:=e]> (frames st))
                       (set_caughtErrors (rev (l1 ++ f :: l2)) st))) Hall Hf)
      as (-> & -> & ->).
    { simpl. by rewrite length_insert. }
    simpl. by rewrite <- app_assoc.
Qed.

Lemma completeUpdate_empties st :
  Forall (λ e, truthy e = true) (caughtErrors st) →
  caughtErrors (completeUpdate st) = [].
Proof.
  intros Hall. unfold completeUpdate, checkForNextUpdate. cbn zeta.
  set (st1 := set_frames (frames st ++ [VUndefined]) st).
  change (caughtErrors st1) with (caughtErrors st).
  destruct (drainErrors_truthy (length (frames st)) (rev (caughtErrors st)) st1)
    as (_ & _ & Hce); [by apply Forall_rev|].
  destruct (isWorking (drainErrors _ _ _)); simpl; exact Hce.
Qed.

(** The error collector on a buffer of truthy thrown values: the buffer is
    emptied, one deferred [throw e] is queued per buffered value, after the
    tasks already queued and before the deferred [startUpdate] (queued only
    when the working flag is clear), and what each of them throws when it
    runs is [undefined]. *)
Theorem completeUpdate_schedules_rethrows st :
  Forall (λ e, truthy e = true) (caughtErrors st) →
  let c := length (frames st) in
  let st' := completeUpdate st in
  caughtErrors st' = [] ∧
  tasks st' =
    tasks st ++ replicate (length (caughtErrors st)) (JRethrow c) ++
    (if isWorking st then [] else [JStartUpdate]) ∧
  run_job 0 (JRethrow c) st' = Some (Throw VUndefined, st').
Proof.
  intros Hall c st'.
  destruct (completeUpdate_rethrows_undefined st Hall) as [Ht Hrun].
  split_and!; [|exact Ht|exact Hrun].
  by apply completeUpdate_empties.
Qed.

(** The error collector stops at a falsy thrown value.  With the buffer
    [older ++ f :: newer], [f] falsy and [newer] truthy, it queues one
    deferred throw per value of [newer], drops [f], leaves [older] in the
    buffer, and what the deferred throws raise is [f]. *)
Theorem completeUpdate_stops_at_falsy st older f newer :
  caughtErrors st = older ++ f :: newer →
  truthy f = false → Forall (λ e, truthy e = true) newer →
  let c := length (frames st) in
  let st' := completeUpdate st in
  caughtErrors st' = older ∧
  tasks st' =
    tasks st ++ replicate (length newer) (JRethrow c) ++
    (if isWorking st then [] else [JStartUpdate]) ∧
  run_job 0 (JRethrow c) st' = Some (Throw f, st').
Proof.
  intros Hce Hf Hall c st'.
  subst c st'. unfold completeUpdate, checkForNextUpdate. cbn zeta.
  set (st1 := set_frames (frames st ++ [VUndefined]) st).
  change (caughtErrors st1) with (caughtErrors st).
  rewrite Hce, rev_app_distr. simpl. rewrite <- app_assoc. simpl.
  destruct (drainErrors_stops (length (frames st)) (rev newer) f (rev older) st1)
    as (Ht & Hfr & Hc'); [by apply Forall_rev | done | |].
  { subst st1. simpl. rewrite length_app. simpl. lia. }
  destruct (drainErrors_frame (length (frames st))
              (rev newer ++ f :: rev older) st1) as (_ & _ & _ & Hw & _).
  rewrite Hw. change (isWorking st1) with (isWorking st).
  rewrite length_rev in Ht. rewrite rev_involutive in Hc'.
  destruct (isWorking st); simpl.
  - rewrite app_nil_r. split_and!; [done|done|]. by rewrite Hfr.
  - split_and!; [done | by rewrite Ht, <- app_assoc |]. by rewrite Hfr.
Qed.

Lemma caughtErrors_foldl_deliver st l :
  caughtErrors (foldl deliver st l) =
  caughtErrors st ++
    omap (throws_of (heap st))
      (filter (λ a, stale (heap st) (q_state (queue st)) a = true) l).
Proof.
  revert st. induction l as [|a l IH]; intros st; simpl.
  { by rewrite app_nil_r. }
  rewrite IH, deliver_heap, deliver_queue.
  unfold deliver, stale, throws_of.
  destruct (heap st !! a) as [nd|] eqn:Ha.
  - destruct (strict_ne (state nd) (q_state (queue st))) eqn:Hs.
    + rewrite filter_cons_True by (by rewrite Ha). simpl. rewrite Ha. simpl.
      destruct (updater_current nd ≫= thrown) as [e|]; simpl.
      * by rewrite <- app_assoc.
      * done.
    + by rewrite filter_cons_False by (by rewrite Ha, Hs).
  - by rewrite filter_cons_False by (by rewrite Ha).
Qed.

Lemma foldl_deliver_host st l :
  microtasks (foldl deliver st l) = microtasks st ∧
  tasks (foldl deliver st l) = tasks st ∧
  frames (foldl deliver st l) = frames st ∧
  faults (foldl deliver st l) = faults st.
Proof.
  revert st. induction l as [|a l IH]; intros st; [done|]. simpl.
  destruct (IH (deliver st a)) as (-> & -> & -> & ->). unfold deliver.
  destruct (heap st !! a) as [nd|]; [|done].
  destruct (strict_ne _ _); [|done]. by destruct (_ ≫= thrown).
Qed.

Lemma event_loop_done fuel st :
  microtasks st = [] → tasks st = [] → event_loop fuel st = Some st.
Proof. intros Hm Ht. destruct fuel; simpl; by rewrite Hm, Ht. Qed.

Lemma event_loop_task fuel st j js :
  microtasks st = [] → tasks st = j :: js →
  event_loop (S fuel) st =
    st' ← host_run fuel j (set_tasks js st); event_loop fuel st'.
Proof. intros Hm Ht. cbn [event_loop]. by rewrite Hm, Ht. Qed.

Lemma event_loop_rethrows k : ∀ st fuel c,
  microtasks st = [] →
  tasks st = replicate k (JRethrow c) ++ [JStartUpdate] →
  default VUndefined (frames st !! c) = VUndefined → states st = [] →
  k < fuel →
  event_loop fuel st =
    Some (set_faults (faults st ++ replicate k VUndefined) (set_tasks [] st)).
Proof.
  induction k as [|k IH]; intros st fuel c Hm Ht Hfr Hs Hf;
    (destruct fuel as [|fuel]; [lia|]); simpl in Ht;
    rewrite (event_loop_task _ _ _ _ Hm Ht).
  - assert (host_run fuel JStartUpdate (set_tasks [] st)
            = Some (set_tasks [] st)) as ->.
    { unfold host_run, run_job, startUpdate. simpl. rewrite Hs.
      by destruct (isWorking st). }
    cbn [mbind option_bind]. rewrite event_loop_done by done.
    rewrite app_nil_r. by destruct st.
  - assert (host_run fuel (JRethrow c) (set_tasks (replicate k (JRethrow c) ++ [JStartUpdate]) st)
            = Some (set_faults (faults st ++ [VUndefined])
                      (set_tasks (replicate k (JRethrow c) ++ [JStartUpdate]) st)))
      as ->.
    { unfold host_run, run_job. simpl. by rewrite Hfr. }
    cbn [mbind option_bind]. rewrite (IH _ fuel c); try done; [|lia].
    simpl. rewrite <- app_assoc. by destruct st.
Qed.

Lemma length_omap_le {A B} (f : A → option B) (l : list A) :
  length (omap f l) ≤ length l.
Proof.
  induction l as [|x l IH]; csimpl; [done|]. destruct (f x); csimpl; lia.
Qed.

Lemma length_due_le h s l : length (due h s l) ≤ length l.
Proof. apply length_filter. Qed.

(** A submission seen from the host, when every value that a callback
    throws is truthy.  Submitted to an idle ring of passive subscribers
    with a live tail, with nothing queued and nothing buffered, a state that
    is not the queue's state is delivered in one pass, and the event loop
    then comes to rest with nothing queued, nothing buffered and nothing
    pending; the host has seen one unhandled fault per call that threw, and
    each fault is [undefined]. *)
Theorem submission_settles st R fuel s t :
  ring st R → last R = Some t → live (heap st) t = true →
  cursorNode (queue st) = lastNode (queue st) → isWorking st = false →
  passive_heap (heap st) → s ≠ q_state (queue st) →
  microtasks st = [] → tasks st = [] → caughtErrors st = [] →
  (∀ a e, throws_of (heap st) a = Some e → truthy e = true) →
  2 * length R + 1 < fuel →
  ∃ st',
    host_submit fuel s st = Some st' ∧
    microtasks st' = [] ∧ tasks st' = [] ∧
    caughtErrors st' = [] ∧ states st' = [] ∧
    q_state (queue st') = s ∧
    cursorNode (queue st') = lastNode (queue st') ∧
    calls st' = calls st ++ ((λ a, mkCall a [] s) <$> due (heap st) s R) ∧
    faults st' =
      faults st ++
      replicate (length (omap (throws_of (heap st)) (due (heap st) s R)))
        VUndefined.
Proof.
  intros HR Ht Hlive Hidle Hw Hpas Hs Hm Hts Hce Htruthy Hf.
  assert (R ≠ []) as Hne by (by intros ->).
  destruct (newState_idle st R fuel s HR Hne Hidle Hw Hpas Hs)
    as (h' & He & HC & Hrun); [lia|].
  unfold host_submit. rewrite Hrun.
  set (V := visits (heap st) R []) in *.
  set (X := relink h' _ (foldl deliver (pass_start s st) V)).
  destruct (foldl_deliver_host (pass_start s st) V) as (HXm & HXt & HXf & HXfa).
  destruct (foldl_deliver_frame (pass_start s st) V) as [HXs HXu].
  pose proof (caughtErrors_foldl_deliver (pass_start s st) V) as HXc.
  simpl in HXc. rewrite Hce in HXc. simpl in HXc.
  unfold V in HXc. rewrite (due_visits _ _ _ t) in HXc by done. fold V in HXc.
  assert (Forall (λ e, truthy e = true) (caughtErrors X)) as Hall.
  { subst X. simpl. rewrite HXc. apply Forall_forall. intros e He'.
    apply list_elem_of_omap in He' as (a & _ & Ha).
    by eapply Htruthy. }
  destruct (completeUpdate_rethrows_undefined X Hall) as [HT Hrj].
  pose proof (completeUpdate_empties X Hall) as HE.
  destruct (completeUpdate_frame X)
    as (_ & HQ & HCa & _ & HS & _ & HM & HF).
  assert (isWorking X = false) as HwX.
  { subst X. simpl. by rewrite foldl_deliver_isWorking. }
  rewrite HwX in HT.
  assert (tasks X = []) as HtX by (subst X; simpl; by rewrite HXt).
  rewrite HtX in HT. simpl in HT.
  rewrite (event_loop_rethrows (length (caughtErrors X)) _ _
             (length (frames X))).
  - eexists. split; [done|]. simpl. rewrite HE, HS, HQ, HCa, HF, HM.
    subst X. simpl. rewrite HXs, HXfa, HXc, HXm, calls_foldl_deliver. simpl.
    unfold V. rewrite (due_visits _ _ _ t) by done.
    split_and!; done.
  - rewrite HM. subst X. simpl. by rewrite HXm.
  - exact HT.
  - simpl in Hrj. by injection Hrj.
  - rewrite HS. subst X. simpl. by rewrite HXs.
  - subst X. simpl. rewrite HXc.
    pose proof (length_omap_le (throws_of (heap st)) (due (heap st) s R)).
    pose proof (length_due_le (heap st) s R). lia.
Qed.

(** ** Suspension and resumption *)

Section suspension.
Implicit Types (h : list node) (l R : list nat) (st : sched).

Lemma erase_callback_of h h' a :
  erase h' = erase h → callback_of h' a = callback_of h a.
Proof.
  intros He. pose proof (erase_lookup _ _ a He) as Ha. unfold callback_of.
  destruct (h' !! a) as [[]|], (h !! a) as [[]|]; simpl in *; by simplify_eq.
Qed.

Lemma erase_passive_on h h' l :
  erase h' = erase h → passive_on h l → passive_on h' l.
Proof.
  intros He Hp a cb Ha. rewrite (erase_callback_of _ _ a He). by apply Hp.
Qed.

Lemma passive_on_app h l1 l2 :
  passive_on h (l1 ++ l2) ↔ passive_on h l1 ∧ passive_on h l2.
Proof.
  unfold passive_on. split.
  - intros H. split; intros a cb Ha; apply H; apply elem_of_app;
      [by left | by right].
  - intros [H1 H2] a cb [Ha|Ha]%elem_of_app; [by apply H1 | by apply H2].
Qed.

Lemma passive_on_filter h (P : nat → Prop) `{∀ a, Decision (P a)} l :
  passive_on h l → passive_on h (filter P l).
Proof. intros Hp a cb [_ Ha]%list_elem_of_filter. by apply Hp. Qed.

Lemma due_filter_live h s l :
  filter (λ a, stale h s a = true) (filter (λ a, live h a = true) l)
  = due h s l.
Proof.
  unfold due. rewrite list_filter_filter. apply list_filter_iff.
  intros a. tauto.
Qed.

Lemma due_app h s l1 l2 : due h s (l1 ++ l2) = due h s l1 ++ due h s l2.
Proof. apply filter_app. Qed.

Lemma erase_stale h h' s a : erase h' = erase h → stale h' s a = stale h s a.
Proof.
  intros He. pose proof (erase_lookup _ _ a He) as Ha. unfold stale.
  destruct (h' !! a) as [[]|], (h !! a) as [[]|]; simpl in *; by simplify_eq.
Qed.

Lemma due_ext h h' s l :
  (∀ x, x ∈ l → live h' x = live h x ∧ stale h' s x = stale h s x) →
  due h' s l = due h s l.
Proof.
  unfold due. induction l as [|x l IH]; intros Hext; [done|].
  destruct (Hext x) as [Hl Hs]; [left|].
  rewrite !filter_cons, Hl, Hs, IH; [done|].
  intros y Hy. apply Hext. by right.
Qed.

Lemma due_erase h h' s l : erase h' = erase h → due h' s l = due h s l.
Proof.
  intros He. apply due_ext. intros x _.
  by rewrite (erase_live _ _ x He), (erase_stale _ _ s x He).
Qed.

Lemma relinked_relink h q X st1 :
  q_state q = q_state (queue X) → erase h = erase (heap X) →
  relinked (relink h q X) st1 → relinked X st1.
Proof.
  intros Hq He (H1 & H2 & H3). split_and!; [exact H1 | |]; simpl in *;
    congruence.
Qed.

(** The fields that relinking leaves alone. *)
Lemma relinked_fields X st1 :
  relinked X st1 →
  calls st1 = calls X ∧ isWorking st1 = isWorking X ∧
  caughtErrors st1 = caughtErrors X ∧ microtasks st1 = microtasks X ∧
  tasks st1 = tasks X ∧ states st1 = states X ∧
  updates st1 = updates X ∧ faults st1 = faults X.
Proof. intros (-> & _ & _). done. Qed.

Lemma workStep_live_on loop st r todo done :
  lap st (r :: todo) done → live (heap st) r = true →
  passive_on (heap st) [r] → isWorking st = false →
  let st2 :=
    relink (heap st)
      (mkQueue (q_state (queue st)) (lastNode (queue st)) (Some r))
      (deliver st r) in
  workStep loop st =
    match todo with
    | [] => Some (Normal, completeUpdate st2)
    | _ :: _ => loop st2
    end ∧
  match todo with
  | [] => lap st2 (done ++ [r]) []
  | _ :: _ => lap st2 todo (done ++ [r])
  end.
Proof.
  intros Hlap Hlive Hpas Hwork st2.
  destruct (lap_head _ _ _ _ Hlap) as (c & nd & Hc & Hn & Hnd).
  pose proof Hlap as (HC & _ & Hlast & _).
  assert (set_cursorNode (Some r) (deliver st r) = st2) as Hst2.
  { rewrite set_cursorNode_relink. by rewrite deliver_heap, deliver_queue. }
  assert (isWorking st2 = false) as Hw2.
  { subst st2. simpl. by rewrite deliver_isWorking. }
  assert (cursorNode (queue st2) = Some r) as Hc2 by done.
  assert (lastNode (queue st2) = lastNode (queue st)) as Hl2 by done.
  split.
  - unfold workStep. rewrite Hc, Hn. simpl. rewrite Hnd. simpl.
    unfold live in Hlive. rewrite Hnd in Hlive.
    destruct (updater_current nd) as [cb|] eqn:Hcb;
      [|by apply bool_decide_eq_true in Hlive as [? ?]].
    assert ((if strict_ne (state nd) (q_state (queue st)) then
               match run_callback (doUpdateWork_with loop) cb
                 (set_calls (calls st ++ [mkCall r [] (q_state (queue st))]) st)
               with
               | None => None
               | Some (Normal, st1) => Some st1
               | Some (Throw e, st1) =>
                   Some (set_caughtErrors (caughtErrors st1 ++ [e]) st1)
               end
             else Some st) = Some (deliver st r)) as ->.
    { unfold deliver. rewrite Hnd, Hcb. simpl.
      destruct (strict_ne _ _); [|done].
      rewrite run_callback_passive.
      - by destruct (thrown cb).
      - apply (Hpas r); [left|]. unfold callback_of. by rewrite Hnd. }
    rewrite Hst2, deliver_isWorking, Hwork, deliver_queue, Hlast.
    destruct todo as [|y todo].
    + by rewrite bool_decide_eq_false_2 by (intros ?; done).
    + rewrite bool_decide_eq_true_2; [done|].
      rewrite last_cons_ne by done. intros Hr.
      destruct HC as [Hnd' _]. simpl in Hnd'.
      apply NoDup_cons in Hnd' as [Hr' _]. apply Hr'.
      change (r ∈ (y :: todo) ++ done).
      apply elem_of_app. left. by apply last_elem_of.
  - change (cyc (heap st) (r :: todo ++ done)) in HC.
    apply cyc_rotate1 in HC. rewrite <- app_assoc in HC.
    assert (heap st2 = heap st) as Hh2 by done.
    destruct todo as [|y todo]; unfold lap; rewrite Hh2, Hc2, Hl2, Hlast.
    + simpl in *. rewrite app_nil_r, last_snoc. split_and!; done.
    + split_and!; try done.
      by rewrite app_assoc, last_snoc.
Qed.

Lemma workStep_dead_with loop st r todo done st1 :
  lap st (r :: todo) done → live (heap st) r = false →
  removeCurrentNode st = (Normal, st1) →
  workStep loop st =
    match lastNode (queue st1) with
    | None => Some (Normal, completeUpdate st1)
    | Some _ => loop st1
    end.
Proof.
  intros Hlap Hdead Hrm.
  destruct (lap_head _ _ _ _ Hlap) as (c & nd & Hc & Hn & Hnd).
  unfold workStep. rewrite Hc, Hn. simpl. rewrite Hnd. simpl.
  unfold live in Hdead. rewrite Hnd in Hdead.
  destruct (updater_current nd) as [cb|].
  - exfalso. apply bool_decide_eq_false in Hdead. apply Hdead. eauto.
  - by rewrite Hrm.
Qed.

Lemma workStep_suspends loop st r todo done w k :
  lap st (r :: todo) done →
  callback_of (heap st) r = Some (AUpdating w :: k) → passive k →
  stale (heap st) (q_state (queue st)) r = true →
  workStep loop st = Some (Normal, suspend w k r st).
Proof.
  intros Hlap Hcb Hk Hst.
  destruct (lap_head _ _ _ _ Hlap) as (c & nd & Hc & Hn & Hnd).
  unfold workStep. rewrite Hc, Hn. simpl. rewrite Hnd. simpl.
  unfold callback_of in Hcb. rewrite Hnd in Hcb. simpl in Hcb. rewrite Hcb.
  unfold stale in Hst. rewrite Hnd in Hst. rewrite Hst.
  cbn [run_callback]. rewrite run_callback_passive by done.
  unfold suspend. by destruct (thrown k).
Qed.

(** The loop over a prefix of passive nodes: the dead ones are removed,
    the live ones processed, and the loop goes on with the rest; it needs
    one unit of fuel per node of the prefix. *)
Lemma workLoop_prefix pre : ∀ done st rest,
  lap st (pre ++ rest) done → rest ≠ [] →
  passive_on (heap st) pre → isWorking st = false →
  ∃ st1,
    lap st1 rest (done ++ filter (λ a, live (heap st) a = true) pre) ∧
    relinked (foldl deliver st (filter (λ a, live (heap st) a = true) pre))
      st1 ∧
    (∀ fuel, workLoop (length pre + fuel) st = workLoop fuel st1) ∧
    (∀ fuel, fuel ≤ length pre → workLoop fuel st = None).
Proof.
  induction pre as [|r P IH]; intros dn st rest Hlap Hne Hpas Hw.
  - exists st. simpl. rewrite app_nil_r. split_and!; [done| |done|].
    + split_and!; [by destruct st|done|done].
    + intros fuel Hf. by replace fuel with 0 by (simpl in Hf; lia).
  - change ((r :: P) ++ rest) with (r :: (P ++ rest)) in Hlap.
    assert (P ++ rest ≠ []) as HPr by (intros [_ ?]%app_nil; done).
    destruct (live (heap st) r) eqn:Hr.
    + assert (passive_on (heap st) [r]) as Hpr.
      { intros a cb ->%list_elem_of_singleton. apply Hpas. left. }
      pose proof (λ loop, workStep_live_on loop _ _ _ _ Hlap Hr Hpr Hw)
        as Hstep.
      cbn zeta in Hstep.
      set (st2 := relink (heap st)
                    (mkQueue (q_state (queue st)) (lastNode (queue st))
                       (Some r)) (deliver st r)) in *.
      assert (lap st2 (P ++ rest) (dn ++ [r]) ∧
              ∀ loop, workStep loop st = loop st2) as [Hlap2 Hs].
      { destruct (P ++ rest) as [|y T]; [done|].
        split; [apply (Hstep (λ _, None)) | intros loop; apply Hstep]. }
      destruct (IH (dn ++ [r]) st2 rest Hlap2 Hne)
        as (st1 & Hlap1 & Hrel & Hrun & Hnone).
      { intros a cb Ha. apply Hpas. by right. }
      { subst st2. simpl. by rewrite deliver_isWorking. }
      exists st1. rewrite filter_cons_True by done.
      change (heap st2) with (heap st) in Hlap1, Hrel.
      split_and!.
      * by rewrite <- app_assoc in Hlap1.
      * simpl. subst st2.
        rewrite foldl_deliver_relink in Hrel
          by (by rewrite ?deliver_queue, ?deliver_heap).
        eapply relinked_relink; [| |exact Hrel];
          by rewrite ?foldl_deliver_queue, ?foldl_deliver_heap,
                     ?deliver_queue, ?deliver_heap.
      * intros fuel. simpl. rewrite Hs. apply Hrun.
      * intros [|fuel] Hf; [done|]. simpl. rewrite Hs. apply Hnone.
        simpl in Hf. lia.
    + destruct (removeCurrentNode_lap _ _ _ _ Hlap)
        as (st1' & Hrm & Hrel' & Hshape).
      assert (lap st1' (P ++ rest) dn) as Hlap2
        by (destruct (P ++ rest); done).
      assert (∀ loop, workStep loop st = loop st1') as Hs.
      { intros loop. rewrite (workStep_dead_with loop _ _ _ _ _ Hlap Hr Hrm).
        destruct Hlap2 as (_ & _ & -> & _).
        destruct (last (P ++ rest)) eqn:E; [done|]. by apply last_None in E. }
      pose proof Hrel' as (Hst1 & Hq1 & He1).
      destruct (IH dn st1' rest Hlap2 Hne)
        as (st1 & Hlap1 & Hrel & Hrun & Hnone).
      { eapply erase_passive_on; [exact He1|].
        intros a cb Ha. apply Hpas. by right. }
      { by rewrite Hst1. }
      exists st1. rewrite filter_cons_False by (by rewrite Hr).
      rewrite (list_filter_iff (λ a, live (heap st1') a = true)
                 (λ a, live (heap st) a = true)) in Hlap1, Hrel
        by (intros a; by rewrite (erase_live _ _ a He1)).
      split_and!; [done| | |].
      * rewrite (foldl_deliver_relinked _ _ _ Hrel') in Hrel.
        eapply relinked_relink; [| |exact Hrel];
          by rewrite ?foldl_deliver_queue, ?foldl_deliver_heap.
      * intros fuel. simpl. rewrite Hs. apply Hrun.
      * intros [|fuel] Hf; [done|]. simpl. rewrite Hs. apply Hnone.
        simpl in Hf. lia.
Qed.

Lemma workLoop_suspends st pre x post dn w k :
  lap st (pre ++ x :: post) dn → isWorking st = false →
  passive_on (heap st) pre →
  callback_of (heap st) x = Some (AUpdating w :: k) → passive k →
  stale (heap st) (q_state (queue st)) x = true →
  ∃ st1,
    lap st1 (x :: post) (dn ++ filter (λ a, live (heap st) a = true) pre) ∧
    relinked (foldl deliver st (filter (λ a, live (heap st) a = true) pre))
      st1 ∧
    (∀ fuel, length pre < fuel →
             workLoop fuel st = Some (Normal, suspend w k x st1)) ∧
    (∀ fuel, fuel ≤ length pre → workLoop fuel st = None).
Proof.
  intros Hlap Hw Hpas Hcb Hk Hst.
  destruct (workLoop_prefix pre dn st (x :: post) Hlap)
    as (st1 & Hlap1 & Hrel & Hrun & Hnone); [done..|].
  exists st1. split_and!; [done|done| |done].
  intros fuel Hf.
  replace fuel with (length pre + S (fuel - length pre - 1)) by lia.
  rewrite Hrun. cbn [workLoop].
  pose proof Hrel as (_ & Hq & He).
  rewrite foldl_deliver_queue in Hq. rewrite foldl_deliver_heap in He.
  apply (workStep_suspends _ _ _ _ _ _ _ Hlap1); [|done|].
  - by rewrite (erase_callback_of _ _ x He).
  - by rewrite Hq, (erase_stale _ _ _ x He).
Qed.

(** The updater as a suspension leaves it. *)
Lemma suspend_facts st st1 pre x post dn w k :
  let L := filter (λ a, live (heap st) a = true) pre in
  let s := q_state (queue st) in
  lap st1 (x :: post) (dn ++ L) → relinked (foldl deliver st L) st1 →
  let st' := suspend w k x st1 in
  calls st' =
    calls st ++ ((λ a, mkCall a [] s) <$> due (heap st) s pre) ++
    [mkCall x [] s] ∧
  isWorking st' = true ∧ workNode st' = Some w ∧
  cursorNode (queue st') = Some x ∧ lastNode (queue st') = last (x :: post) ∧
  q_state (queue st') = s ∧
  microtasks st' = microtasks st ++ [JContinueUpdate] ∧
  tasks st' = tasks st ∧
  caughtErrors st' =
    caughtErrors st ++ omap (throws_of (heap st)) (due (heap st) s pre) ++
    option_list (thrown k) ∧
  states st' = states st ∧ updates st' = updates st ∧
  erase (heap st') = erase (heap st) ∧
  ring st' (dn ++ L ++ x :: post).
Proof.
  intros L s Hlap Hrel st'.
  destruct (relinked_fields _ _ Hrel) as (Hc & Hw & Hce & Hm & Ht & Hs & Hu & _).
  pose proof Hrel as (_ & Hq & He).
  rewrite foldl_deliver_queue in Hq. rewrite foldl_deliver_heap in He.
  destruct (foldl_deliver_host st L) as (Hm' & Ht' & _ & _).
  destruct (foldl_deliver_frame st L) as (Hs' & Hu').
  pose proof Hlap as (HC & _ & Hl & _).
  assert (heap st' = heap st1 ∧ lastNode (queue st') = lastNode (queue st1) ∧
          q_state (queue st') = q_state (queue st1) ∧
          cursorNode (queue st') = Some x ∧
          calls st' = calls st1 ++ [mkCall x [] (q_state (queue st1))] ∧
          isWorking st' = true ∧ workNode st' = Some w ∧
          microtasks st' = microtasks st1 ++ [JContinueUpdate] ∧
          tasks st' = tasks st1 ∧
          caughtErrors st' = caughtErrors st1 ++ option_list (thrown k) ∧
          states st' = states st1 ∧ updates st' = updates st1)
    as (Hh' & Hl' & Hq' & Hcur' & Hc' & Hw' & Hwn' & Hmi' & Hta' & Hce' & Hst' & Hu'').
  { subst st'. unfold suspend. destruct (thrown k); simpl;
      rewrite ?app_nil_r; done. }
  split_and!; try done.
  - rewrite Hc', Hc, Hq, calls_foldl_deliver. subst L.
    by rewrite due_filter_live, <- app_assoc.
  - by rewrite Hl'.
  - by rewrite Hq'.
  - by rewrite Hmi', Hm, Hm'.
  - by rewrite Hta', Ht, Ht'.
  - rewrite Hce', Hce, caughtErrors_foldl_deliver. subst L.
    by rewrite due_filter_live, <- app_assoc.
  - by rewrite Hst', Hs, Hs'.
  - by rewrite Hu'', Hu, Hu'.
  - by rewrite Hh'.
  - unfold ring. rewrite Hh', Hl', Hcur', Hl. split_and!.
    + apply cyc_swap in HC. by rewrite <- app_assoc in HC.
    + rewrite !last_app.
      destruct (last (x :: post)) eqn:E; [done|]. by apply last_None in E.
    + rewrite !elem_of_app. right. right. left.
Qed.

Lemma callback_of_live h a cb : callback_of h a = Some cb → live h a = true.
Proof.
  unfold callback_of, live. destruct (h !! a) as [nd|]; [|done]. simpl.
  intros ->. by apply bool_decide_eq_true_2.
Qed.

Lemma newState_suspends st pre x post fuel s w k :
  ring st (pre ++ x :: post) →
  cursorNode (queue st) = lastNode (queue st) → isWorking st = false →
  passive_on (heap st) pre →
  callback_of (heap st) x = Some (AUpdating w :: k) → passive k →
  stale (heap st) s x = true → s ≠ q_state (queue st) →
  ∃ st1,
    lap st1 (x :: post) ([] ++ filter (λ a, live (heap st) a = true) pre) ∧
    relinked
      (foldl deliver (pass_start s st)
         (filter (λ a, live (heap st) a = true) pre)) st1 ∧
    (length pre < fuel →
     newState (doUpdateWork fuel) s st = Some (Normal, suspend w k x st1)) ∧
    (fuel ≤ length pre → newState (doUpdateWork fuel) s st = None).
Proof.
  intros (HC & Hlast & Hcur) Hidle Hw Hpas Hcb Hk Hst Hs.
  destruct (last (pre ++ x :: post)) as [l|] eqn:Hl;
    [|apply last_None in Hl; by destruct pre].
  assert (lap (pass_start s st) (pre ++ x :: post) []) as Hlap.
  { unfold lap. rewrite app_nil_r. simpl. split_and!; try done; congruence. }
  destruct (workLoop_suspends (pass_start s st) pre x post [] w k Hlap)
    as (st1 & Hlap1 & Hrel & Hrun & Hnone); try done.
  exists st1. rewrite (newState_starts_pass _ _ _ l) by congruence.
  unfold doUpdateWork, doUpdateWork_with.
  change (isWorking (pass_start s st)) with (isWorking st).
  change (lastNode (queue (pass_start s st))) with (lastNode (queue st)).
  rewrite Hw, Hlast. split_and!; [done|done| |].
  - intros Hf. by apply Hrun.
  - intros Hf. by apply Hnone.
Qed.

(** The rest of a lap whose tail is live, over passive nodes. *)
Lemma workLoop_live_tail st dn todo fuel t :
  lap st todo dn → last todo = Some t → live (heap st) t = true →
  passive_on (heap st) todo → isWorking st = false → length todo ≤ fuel →
  ∃ h', erase h' = erase (heap st) ∧
    cyc h' (dn ++ filter (λ a, live (heap st) a = true) todo) ∧
    last (filter (λ a, live (heap st) a = true) todo) = Some t ∧
    workLoop fuel st =
      Some (Normal,
            completeUpdate
              (relink h' (mkQueue (q_state (queue st)) (Some t) (Some t))
                 (foldl deliver st
                    (filter (λ a, live (heap st) a = true) todo)))).
Proof.
  intros Hlap Ht Hlive Hpas Hw Hf.
  apply last_Some in Ht as [P ->].
  assert (∃ f, fuel = length P + S f) as [f ->].
  { exists (fuel - length P - 1). rewrite length_app in Hf. simpl in Hf. lia. }
  apply passive_on_app in Hpas as [HpP Hpt].
  destruct (workLoop_prefix P dn st [t] Hlap)
    as (st1 & Hlap1 & Hrel & Hrun & _); [done..|].
  assert (filter (λ a, live (heap st) a = true) (P ++ [t])
          = filter (λ a, live (heap st) a = true) P ++ [t]) as HL.
  { rewrite filter_app. by rewrite (filter_cons_True _ t) by done. }
  rewrite HL.
  set (L := filter (λ a, live (heap st) a = true) P) in *.
  pose proof Hrel as (_ & Hq & He).
  rewrite foldl_deliver_queue in Hq. rewrite foldl_deliver_heap in He.
  destruct (relinked_fields _ _ Hrel) as (_ & Hw1 & _).
  rewrite foldl_deliver_isWorking in Hw1.
  destruct (workStep_live_on (workLoop f) st1 t [] _ Hlap1)
    as [Hstep Hlap2].
  { by rewrite (erase_live _ _ t He). }
  { by eapply erase_passive_on. }
  { congruence. }
  exists (heap st1). split; [done|]. split_and!.
  - destruct Hlap2 as (HC2 & _). by rewrite app_nil_r, <- app_assoc in HC2.
  - by rewrite last_snoc.
  - rewrite Hrun. cbn [workLoop]. rewrite Hstep. do 3 f_equal.
    rewrite foldl_app. simpl. rewrite (relinked_eq _ _ Hrel) at 4.
    rewrite deliver_relink
      by (by rewrite ?foldl_deliver_queue, ?foldl_deliver_heap).
    rewrite relink_relink. f_equal.
    destruct Hlap1 as (_ & _ & -> & _). by rewrite Hq.
Qed.

(** Resuming with a live tail ahead. *)
Lemma continueUpdate_live_tail st dn todo fuel t :
  ring st (dn ++ todo) → dn ≠ [] → cursorNode (queue st) = last dn →
  last todo = Some t → live (heap st) t = true →
  passive_on (heap st) todo → length todo ≤ fuel →
  ∃ st',
    continueUpdate fuel st = Some (Normal, st') ∧
    calls st' =
      calls st ++
      ((λ a, mkCall a [] (q_state (queue st)))
         <$> due (heap st) (q_state (queue st)) todo) ∧
    isWorking st' = false ∧
    cursorNode (queue st') = lastNode (queue st') ∧
    updates st' = updates st ∧
    ring st' (dn ++ filter (λ a, live (heap st) a = true) todo).
Proof.
  intros (HC & Hlast & _) Hdn Hcur Ht Hlive Hpas Hf.
  set (st0 := set_working false None st).
  assert (lap st0 todo dn) as Hlap.
  { split_and!; simpl.
    - by apply cyc_swap.
    - rewrite Hcur, last_app. destruct (last dn) eqn:E; [done|].
      by apply last_None in E.
    - by rewrite Hlast, last_app, Ht.
    - by intros ->. }
  destruct (workLoop_live_tail st0 dn todo fuel t Hlap)
    as (h' & He & HC' & HLt & Hrun); try done.
  unfold continueUpdate, doUpdateWork, doUpdateWork_with. fold st0.
  change (isWorking st0) with false. cbn iota.
  change (lastNode (queue st0)) with (lastNode (queue st)).
  rewrite Hlast, last_app, Ht, Hrun.
  eexists. split; [done|].
  match goal with |- context [completeUpdate ?X] =>
    destruct (completeUpdate_frame X) as (Hh & Hq' & Hc & Hw & _ & Hu & _)
  end.
  change (heap st0) with (heap st) in *.
  set (L := filter (λ a, live (heap st) a = true) todo) in *.
  destruct (foldl_deliver_frame st0 L) as [_ Hu0].
  split_and!.
  - rewrite Hc. simpl. rewrite calls_foldl_deliver.
    unfold st0, L. simpl. by rewrite due_filter_live.
  - rewrite Hw. simpl. by rewrite foldl_deliver_isWorking.
  - by rewrite Hq'.
  - rewrite Hu. simpl. by rewrite Hu0.
  - unfold ring. rewrite Hh, Hq'. simpl. rewrite last_app, HLt.
    split_and!; [done | done |].
    rewrite elem_of_app. right. by apply last_elem_of.
Qed.

Lemma workStep_resubmits loop st r todo dn s2 k :
  lap st (r :: todo) dn → dn ≠ [] → isWorking st = false →
  callback_of (heap st) r = Some (ANewState s2 :: k) →
  stale (heap st) (q_state (queue st)) r = true →
  s2 ≠ q_state (queue st) →
  let st2 := resubmit s2 r st in
  workStep loop st =
    match todo with
    | [] => Some (Normal, completeUpdate st2)
    | _ :: _ => loop st2
    end ∧
  match todo with
  | [] => lap st2 (dn ++ [r]) []
  | _ :: _ => lap st2 todo (dn ++ [r])
  end.
Proof.
  intros Hlap Hdn Hw Hcb Hst Hs2 st2.
  destruct (lap_head _ _ _ _ Hlap) as (c & nd & Hc & Hn & Hnd).
  pose proof Hlap as (HC & Hcur & Hlast & _).
  assert (cursorNode (queue st) ≠ lastNode (queue st)) as Hoff.
  { rewrite Hcur, Hlast, last_app.
    destruct (last dn) as [d|] eqn:Hd; [|by apply last_None in Hd].
    destruct (last (r :: todo)) as [l|] eqn:Hl; [|done].
    intros [= ->]. destruct HC as [Hnd' _].
    apply NoDup_app in Hnd' as (_ & Hdisj & _).
    apply (Hdisj l); by apply last_elem_of. }
  assert (heap st2 = heap st) as Hh2 by done.
  assert (cursorNode (queue st2) = Some r) as Hc2 by done.
  assert (lastNode (queue st2) = lastNode (queue st)) as Hl2 by done.
  split.
  - unfold workStep. rewrite Hc, Hn. simpl. rewrite Hnd. simpl.
    unfold callback_of in Hcb. rewrite Hnd in Hcb. simpl in Hcb. rewrite Hcb.
    unfold stale in Hst. rewrite Hnd in Hst. rewrite Hst.
    cbn [run_callback]. unfold newState, strict_ne.
    rewrite bool_decide_eq_true_2 by (simpl; congruence).
    unfold startUpdate. simpl. rewrite Hw, last_snoc.
    destruct (lastNode (queue st)) as [l|] eqn:Hl.
    2:{ symmetry in Hlast. by apply last_None in Hlast. }
    rewrite bool_decide_eq_true_2 by done.
    simpl. rewrite Hw, Hl.
    destruct todo as [|y todo].
    + simpl in Hlast. injection Hlast as ->.
      by rewrite bool_decide_eq_false_2 by (intros ?; done).
    + rewrite bool_decide_eq_true_2; [done|].
      rewrite last_cons_ne in Hlast by done. intros [= ->].
      destruct HC as [Hnd' _]. simpl in Hnd'.
      apply NoDup_cons in Hnd' as [Hr' _]. apply Hr'.
      change (l ∈ (y :: todo) ++ dn).
      apply elem_of_app. left. by apply last_elem_of.
  - change (cyc (heap st) (r :: todo ++ dn)) in HC.
    apply cyc_rotate1 in HC. rewrite <- app_assoc in HC.
    destruct todo as [|y todo]; unfold lap; rewrite Hh2, Hc2, Hl2, Hlast.
    + simpl in *. rewrite app_nil_r, last_snoc. split_and!; done.
    + split_and!; try done.
      by rewrite app_assoc, last_snoc.
Qed.

Lemma workStep_same_state loop st r todo dn k :
  lap st (r :: todo) dn → isWorking st = false →
  callback_of (heap st) r = Some (ANewState (q_state (queue st)) :: k) →
  passive k →
  let st2 := set_cursorNode (Some r) (deliver_rest k st r) in
  workStep loop st =
    match todo with
    | [] => Some (Normal, completeUpdate st2)
    | _ :: _ => loop st2
    end ∧
  match todo with
  | [] => lap st2 (dn ++ [r]) []
  | _ :: _ => lap st2 todo (dn ++ [r])
  end.
Proof.
  intros Hlap Hw Hcb Hk st2.
  destruct (lap_head _ _ _ _ Hlap) as (c & nd & Hc & Hn & Hnd).
  pose proof Hlap as (HC & Hcur & Hlast & _).
  assert (heap st2 = heap st ∧ cursorNode (queue st2) = Some r ∧
          lastNode (queue st2) = lastNode (queue st) ∧
          isWorking st2 = isWorking st) as (Hh2 & Hc2 & Hl2 & Hw2).
  { subst st2. unfold deliver_rest, buffer_thrown.
    destruct (stale _ _ _); [destruct (thrown k)|]; done. }
  split.
  - unfold workStep. rewrite Hc, Hn. simpl. rewrite Hnd. simpl.
    unfold callback_of in Hcb. rewrite Hnd in Hcb. simpl in Hcb. rewrite Hcb.
    assert ((if strict_ne (state nd) (q_state (queue st)) then
               match run_callback (doUpdateWork_with loop)
                       (ANewState (q_state (queue st)) :: k)
                 (set_calls (calls st ++ [mkCall r [] (q_state (queue st))]) st)
               with
               | None => None
               | Some (Normal, st1) => Some st1
               | Some (Throw e, st1) =>
                   Some (set_caughtErrors (caughtErrors st1 ++ [e]) st1)
               end
             else Some st) = Some (deliver_rest k st r)) as ->.
    { unfold deliver_rest, stale, buffer_thrown. rewrite Hnd.
      destruct (strict_ne (state nd) _); [|done].
      cbn [run_callback]. unfold newState, strict_ne. simpl.
      rewrite bool_decide_eq_false_2 by (intros Hne; by apply Hne).
      rewrite run_callback_passive by done.
      by destruct (thrown k). }
    fold st2.
    change (isWorking (deliver_rest k st r)) with (isWorking st2).
    change (lastNode (queue (deliver_rest k st r)))
      with (lastNode (queue st2)).
    rewrite Hw2, Hw, Hl2, Hlast.
    destruct todo as [|y todo].
    + by rewrite bool_decide_eq_false_2 by (intros ?; done).
    + rewrite bool_decide_eq_true_2; [done|].
      rewrite last_cons_ne by done. intros Hr.
      destruct HC as [Hnd' _]. simpl in Hnd'.
      apply NoDup_cons in Hnd' as [Hr' _]. apply Hr'.
      change (r ∈ (y :: todo) ++ dn).
      apply elem_of_app. left. by apply last_elem_of.
  - change (cyc (heap st) (r :: todo ++ dn)) in HC.
    apply cyc_rotate1 in HC. rewrite <- app_assoc in HC.
    destruct todo as [|y todo]; unfold lap; rewrite Hh2, Hc2, Hl2, Hlast.
    + simpl in *. rewrite app_nil_r, last_snoc. split_and!; done.
    + split_and!; try done.
      by rewrite app_assoc, last_snoc.
Qed.

(** The callback of the node read submits a state while the cursor is on
    the tail: the submission runs a nested pass, [loop] from [stN]. *)
Lemma workStep_nested loop st r todo s2 k stN' :
  lap st (r :: todo) [] → isWorking st = false →
  callback_of (heap st) r = Some (ANewState s2 :: k) → passive k →
  stale (heap st) (q_state (queue st)) r = true →
  s2 ≠ q_state (queue st) →
  loop (pass_start s2
          (set_calls (calls st ++ [mkCall r [] (q_state (queue st))]) st))
  = Some (Normal, stN') →
  isWorking stN' = false → lastNode (queue stN') ≠ Some r →
  workStep loop st = loop (set_cursorNode (Some r) (buffer_thrown k stN')).
Proof.
  intros Hlap Hw Hcb Hk Hst Hs2 Hnest HwN HlN.
  destruct (lap_head _ _ _ _ Hlap) as (c & nd & Hc & Hn & Hnd).
  pose proof Hlap as (HC & Hcur & Hlast & _).
  rewrite app_nil_r in Hcur.
  unfold workStep. rewrite Hc, Hn. simpl. rewrite Hnd. simpl.
  unfold callback_of in Hcb. rewrite Hnd in Hcb. simpl in Hcb. rewrite Hcb.
  unfold stale in Hst. rewrite Hnd in Hst. rewrite Hst.
  cbn [run_callback]. unfold newState, strict_ne.
  rewrite bool_decide_eq_true_2 by (simpl; congruence).
  unfold startUpdate. simpl. rewrite Hw, last_snoc.
  destruct (lastNode (queue st)) as [l|] eqn:Hl.
  2:{ symmetry in Hlast. by apply last_None in Hlast. }
  rewrite bool_decide_eq_false_2 by (intros Hne; apply Hne; congruence).
  unfold doUpdateWork_with at 1. simpl. rewrite Hw, Hl.
  match goal with |- context [loop ?X] =>
    match X with context [set_trace] =>
      change (loop X)
        with (loop (pass_start s2
                      (set_calls
                         (calls st ++ [mkCall r [] (q_state (queue st))]) st)))
    end
  end.
  rewrite Hnest. rewrite run_callback_passive by done.
  assert (∀ X, isWorking (set_cursorNode (Some r) X) = isWorking X) as Hiw
    by done.
  unfold buffer_thrown.
  destruct (thrown k) as [e|]; simpl; rewrite HwN;
    by rewrite bool_decide_eq_true_2 by congruence.
Qed.

Lemma filter_live_none h l :
  (∀ a, a ∈ l → live h a = false) → filter (λ a, live h a = true) l = [].
Proof.
  intros Hd. induction l as [|a l IH]; [done|].
  rewrite filter_cons_False by (rewrite Hd; [done|left]).
  apply IH. intros b Hb. apply Hd. by right.
Qed.

Lemma filter_live_all h l :
  (∀ a, a ∈ l → live h a = true) → filter (λ a, live h a = true) l = l.
Proof.
  intros Hd. induction l as [|a l IH]; [done|].
  rewrite filter_cons_True by (apply Hd; left).
  f_equal. apply IH. intros b Hb. apply Hd. by right.
Qed.

Lemma newState_mid_pass st pre x post fuel s s2 k t :
  ring st (pre ++ x :: post) → last post = Some t →
  live (heap st) t = true →
  cursorNode (queue st) = lastNode (queue st) → isWorking st = false →
  passive_on (heap st) (pre ++ post) →
  (∃ a, a ∈ pre ∧ live (heap st) a = true) →
  callback_of (heap st) x = Some (ANewState s2 :: k) →
  stale (heap st) s x = true → s ≠ q_state (queue st) → s2 ≠ s →
  length (pre ++ x :: post) ≤ fuel →
  ∃ st1 h',
    relinked
      (foldl deliver (pass_start s st)
         (filter (λ a, live (heap st) a = true) pre)) st1 ∧
    erase h' = erase (heap st) ∧
    newState (doUpdateWork fuel) s st =
      Some (Normal,
            completeUpdate
              (relink h' (mkQueue s2 (Some t) (Some t))
                 (foldl deliver (resubmit s2 x st1)
                    (filter (λ a, live (heap st) a = true) post)))).
Proof.
  intros (HC & Hlast & Hcur) Ht Hlive Hidle Hw Hpas (a & Ha & Hla) Hcb Hst
    Hs Hs2 Hf.
  apply passive_on_app in Hpas as [Hpre Hpost].
  rewrite length_app in Hf. simpl in Hf.
  destruct (last (pre ++ x :: post)) as [l|] eqn:Hl;
    [|apply last_None in Hl; by destruct pre].
  assert (lap (pass_start s st) (pre ++ x :: post) []) as Hlap.
  { unfold lap. rewrite app_nil_r. simpl. split_and!; try done; congruence. }
  destruct (workLoop_prefix pre [] (pass_start s st) (x :: post) Hlap)
    as (st1 & Hlap1 & Hrel & Hrun & _); [done..|].
  change (heap (pass_start s st)) with (heap st) in *.
  set (L := filter (λ a, live (heap st) a = true) pre) in *.
  assert (L ≠ []) as HL.
  { intros HL. assert (a ∈ L) as HaL by (by apply list_elem_of_filter).
    rewrite HL in HaL. by apply elem_of_nil in HaL. }
  pose proof Hrel as (_ & Hq & He).
  rewrite foldl_deliver_queue in Hq. rewrite foldl_deliver_heap in He.
  change (heap (pass_start s st)) with (heap st) in He.
  change (q_state (queue (pass_start s st))) with s in Hq.
  destruct (relinked_fields _ _ Hrel) as (_ & Hw1 & _).
  rewrite foldl_deliver_isWorking in Hw1.
  change (isWorking (pass_start s st)) with (isWorking st) in Hw1.
  assert (∃ f, fuel = length pre + S f ∧ length post ≤ f) as (f & -> & Hf').
  { exists (fuel - length pre - 1). lia. }
  destruct (workStep_resubmits (workLoop f) st1 x post ([] ++ L) s2 k Hlap1)
    as [Hstep Hlap2]; try done.
  { congruence. }
  { by rewrite (erase_callback_of _ _ x He). }
  { by rewrite Hq, (erase_stale _ _ _ x He). }
  { congruence. }
  destruct post as [|y post]; [done|].
  set (st2 := resubmit s2 x st1) in *.
  destruct (workLoop_live_tail st2 (([] ++ L) ++ [x]) (y :: post) f t Hlap2)
    as (h' & He' & _ & _ & Hrun2); try done.
  { change (heap st2) with (heap st1). by rewrite (erase_live _ _ t He). }
  { change (heap st2) with (heap st1). by eapply erase_passive_on. }
  { change (isWorking st2) with (isWorking st1). congruence. }
  change (heap st2) with (heap st1) in *.
  exists st1, h'. split; [done|]. split; [congruence|].
  rewrite (newState_starts_pass _ _ _ l) by congruence.
  unfold doUpdateWork, doUpdateWork_with.
  change (isWorking (pass_start s st)) with (isWorking st).
  change (lastNode (queue (pass_start s st))) with (lastNode (queue st)).
  rewrite Hw, Hlast, Hrun. cbn [workLoop]. rewrite Hstep, Hrun2.
  change (q_state (queue st2)) with s2.
  by rewrite (list_filter_iff (λ a, live (heap st1) a = true)
                (λ a, live (heap st) a = true))
    by (intros b; by rewrite (erase_live _ _ b He)).
Qed.

Lemma deliver_rest_frame k st a :
  heap (deliver_rest k st a) = heap st ∧
  queue (deliver_rest k st a) = queue st ∧
  isWorking (deliver_rest k st a) = isWorking st ∧
  states (deliver_rest k st a) = states st ∧
  updates (deliver_rest k st a) = updates st ∧
  calls (deliver_rest k st a) =
    calls st ++ (if stale (heap st) (q_state (queue st)) a
                 then [mkCall a [] (q_state (queue st))] else []).
Proof.
  unfold deliver_rest, buffer_thrown.
  destruct (stale _ _ _); [destruct (thrown k)|]; simpl;
    rewrite ?app_nil_r; done.
Qed.

Lemma buffer_thrown_frame k st :
  heap (buffer_thrown k st) = heap st ∧
  queue (buffer_thrown k st) = queue st ∧
  isWorking (buffer_thrown k st) = isWorking st ∧
  states (buffer_thrown k st) = states st ∧
  updates (buffer_thrown k st) = updates st ∧
  calls (buffer_thrown k st) = calls st.
Proof. unfold buffer_thrown. by destruct (thrown k). Qed.

Lemma newState_nested st pre x post fuel s s2 k t :
  ring st (pre ++ x :: post) → last post = Some t →
  live (heap st) t = true →
  cursorNode (queue st) = lastNode (queue st) → isWorking st = false →
  (∀ a, a ∈ pre → live (heap st) a = false) →
  passive_on (heap st) post →
  callback_of (heap st) x = Some (ANewState s2 :: k) → passive k →
  stale (heap st) s x = true → s ≠ q_state (queue st) → s2 ≠ s →
  S (length (pre ++ x :: post)) ≤ fuel →
  ∃ st',
    newState (doUpdateWork fuel) s st = Some (Normal, st') ∧
    calls st' =
      calls st ++ [mkCall x [] s] ++
      ((λ a, mkCall a [] s2)
         <$> due (heap st) s2 (x :: post) ++ due (heap st) s2 post) ∧
    q_state (queue st') = s2 ∧ states st' = [] ∧ isWorking st' = false ∧
    cursorNode (queue st') = lastNode (queue st') ∧
    updates st' = S (S (updates st)).
Proof.
  intros (HC & Hlast & Hcur) Ht Hlive Hidle Hw Hdead Hpost Hcb Hk Hst
    Hs Hs2 Hf.
  rewrite length_app in Hf. simpl in Hf.
  assert (passive_on (heap st) pre) as Hpre.
  { intros a cb Ha Hc. apply callback_of_live in Hc.
    rewrite Hdead in Hc; done. }
  assert (x ∉ post) as Hxp.
  { destruct HC as [Hnd _]. apply NoDup_app in Hnd as (_ & _ & Hnd).
    by apply NoDup_cons in Hnd as [? _]. }
  destruct (last (pre ++ x :: post)) as [l|] eqn:Hl;
    [|apply last_None in Hl; by destruct pre].
  assert (lap (pass_start s st) (pre ++ x :: post) []) as Hlap.
  { unfold lap. rewrite app_nil_r. simpl. split_and!; try done; congruence. }
  destruct (workLoop_prefix pre [] (pass_start s st) (x :: post) Hlap)
    as (st1 & Hlap1 & Hrel & Hrun & _); [done..|].
  change (heap (pass_start s st)) with (heap st) in *.
  rewrite (filter_live_none _ _ Hdead) in Hlap1, Hrel.
  simpl in Hlap1, Hrel.
  pose proof Hrel as (_ & Hq & He).
  change (q_state (queue (pass_start s st))) with s in Hq.
  change (heap (pass_start s st)) with (heap st) in He.
  destruct (relinked_fields _ _ Hrel) as (Hc1 & Hw1 & _ & _ & _ & Hs1 & Hu1 & _).
  change (calls (pass_start s st)) with (calls st) in Hc1.
  change (isWorking (pass_start s st)) with (isWorking st) in Hw1.
  change (updates (pass_start s st)) with (S (updates st)) in Hu1.
  rewrite Hw in Hw1.
  assert (∃ f, fuel = length pre + S (S f) ∧ length post ≤ f)
    as (f & -> & Hf').
  { exists (fuel - length pre - 2). lia. }
  assert (post ≠ []) as Hpne by (by intros ->).
  set (Lp := filter (λ a, live (heap st) a = true) post).
  assert (∀ h, erase h = erase (heap st) →
            filter (λ a, live h a = true) post = Lp) as HLp.
  { intros h Hh. apply list_filter_iff. intros a.
    by rewrite (erase_live _ _ a Hh). }
  (* the nested pass *)
  set (stN := pass_start s2
                (set_calls (calls st1 ++ [mkCall x [] (q_state (queue st1))])
                   st1)).
  assert (lap stN (x :: post) []) as HlapN by exact Hlap1.
  destruct (workStep_same_state (workLoop f) stN x post [] k HlapN)
    as [HstepN HlapX]; [done | | done |].
  { change (heap stN) with (heap st1).
    change (q_state (queue stN)) with s2.
    by rewrite (erase_callback_of _ _ x He). }
  cbn zeta in HstepN, HlapX.
  set (stX := set_cursorNode (Some x) (deliver_rest k stN x)) in *.
  destruct (deliver_rest_frame k stN x) as (HhX & HqX & HwX & HsX & HuX & HcX).
  assert (heap stX = heap st1) as HhX' by (by unfold stX; simpl; rewrite HhX).
  assert (lap stX post ([] ++ [x]) ∧
          workStep (workLoop f) stN = workLoop f stX) as [HlapX' HstepN'].
  { by destruct post. }
  destruct (workLoop_live_tail stX ([] ++ [x]) post f t HlapX')
    as (h' & He' & HC' & HLt & HrunX); try done.
  { by rewrite HhX', (erase_live _ _ t He). }
  { rewrite HhX'. by eapply erase_passive_on. }
  { unfold stX. simpl. by rewrite HwX. }
  rewrite HhX' in He'. rewrite (HLp (heap stX)) in HC', HLt, HrunX
    by (by rewrite HhX').
  assert (q_state (queue stX) = s2) as HqX'
    by (unfold stX; simpl; by rewrite HqX).
  rewrite HqX' in HrunX.
  set (stN' := completeUpdate
                 (relink h' (mkQueue s2 (Some t) (Some t))
                    (foldl deliver stX Lp))) in *.
  assert (workLoop (S f) stN = Some (Normal, stN')) as Hnest.
  { cbn [workLoop]. by rewrite HstepN'. }
  destruct (completeUpdate_frame
              (relink h' (mkQueue s2 (Some t) (Some t)) (foldl deliver stX Lp)))
    as (HhN & HqN & HcN & HwN & HsN & HuN & _).
  fold stN' in HhN, HqN, HcN, HwN, HsN, HuN. simpl in HhN, HqN.
  destruct (foldl_deliver_frame stX Lp) as [HsXL HuXL].
  assert (isWorking stN' = false) as HwN'.
  { rewrite HwN. simpl. rewrite foldl_deliver_isWorking.
    unfold stX. simpl. by rewrite HwX. }
  (* back in the outer pass *)
  set (st2 := set_cursorNode (Some x) (buffer_thrown k stN')).
  destruct (buffer_thrown_frame k stN') as (Hh2 & Hq2 & Hw2 & Hs2' & Hu2 & Hc2).
  assert (workStep (workLoop (S f)) st1 = workLoop (S f) st2) as Hstep.
  { apply (workStep_nested _ _ _ post s2 k stN' Hlap1); try done.
    - by rewrite (erase_callback_of _ _ x He).
    - by rewrite Hq, (erase_stale _ _ _ x He).
    - congruence.
    - rewrite HqN. simpl. intros [= ->]. apply Hxp.
      by apply last_elem_of. }
  assert (lap st2 Lp [x]) as Hlap2.
  { unfold lap, st2. simpl. rewrite Hh2, Hq2, HhN, HqN. simpl.
    split_and!.
    - by apply (cyc_swap _ [x]).
    - by rewrite last_snoc.
    - done.
    - intros HL. by rewrite HL in HLt. }
  assert (heap st2 = h') as Hh2' by (unfold st2; simpl; by rewrite Hh2).
  assert (filter (λ a, live (heap st2) a = true) Lp = Lp) as HLL.
  { apply filter_live_all. intros a Ha.
    rewrite Hh2', (erase_live _ _ a He'), (erase_live _ _ a He).
    unfold Lp in Ha. by apply list_elem_of_filter in Ha as [? _]. }
  destruct (workLoop_live_tail st2 [x] Lp (S f) t Hlap2)
    as (h'' & He'' & HC'' & _ & Hrun2); try done.
  { by rewrite Hh2', (erase_live _ _ t He'), (erase_live _ _ t He). }
  { rewrite Hh2'. eapply erase_passive_on; [exact He'|].
    eapply erase_passive_on; [exact He|]. by apply passive_on_filter. }
  { unfold st2. simpl. by rewrite Hw2. }
  { pose proof (length_filter (λ a, live (heap st) a = true) post).
    fold Lp in H. lia. }
  rewrite HLL in Hrun2.
  assert (q_state (queue st2) = s2) as Hq2'.
  { unfold st2. simpl. by rewrite Hq2, HqN. }
  rewrite Hq2' in Hrun2.
  rewrite (newState_starts_pass _ _ _ l) by congruence.
  unfold doUpdateWork, doUpdateWork_with.
  change (isWorking (pass_start s st)) with (isWorking st).
  change (lastNode (queue (pass_start s st))) with (lastNode (queue st)).
  rewrite Hw, Hlast, Hrun.
  change (workLoop (S (S f)) st1) with (workStep (workLoop (S f)) st1).
  rewrite Hstep, Hrun2. eexists. split; [done|].
  match goal with |- context [completeUpdate ?X] =>
    destruct (completeUpdate_frame X) as (_ & HqF & HcF & HwF & HsF & HuF & _)
  end.
  destruct (foldl_deliver_frame st2 Lp) as [Hs2L Hu2L].
  assert (∀ h, erase h = erase (heap st) →
            filter (λ a, stale h s2 a = true) Lp = due (heap st) s2 post)
    as Hdue.
  { intros h Hh. unfold Lp. rewrite <- due_filter_live.
    apply list_filter_iff. intros a. by rewrite (erase_stale _ _ _ a Hh). }
  assert (calls stX =
          calls st ++ [mkCall x [] s] ++
          (if stale (heap st) s2 x then [mkCall x [] s2] else [])) as HcallsX.
  { unfold stX. simpl. rewrite HcX.
    change (calls stN) with (calls st1 ++ [mkCall x [] (q_state (queue st1))]).
    change (heap stN) with (heap st1). change (q_state (queue stN)) with s2.
    by rewrite Hc1, Hq, (erase_stale _ _ _ x He), <- app_assoc. }
  assert (calls stN' =
          calls stX ++ ((λ a, mkCall a [] s2) <$> due (heap st) s2 post))
    as HcallsN.
  { rewrite HcN. simpl. rewrite calls_foldl_deliver, HqX'.
    rewrite (Hdue (heap stX)); [done|]. by rewrite HhX'. }
  assert (calls st2 = calls stN') as Hcalls2 by (unfold st2; simpl; exact Hc2).
  assert (states st2 = []) as Hstates2.
  { unfold st2. simpl. rewrite Hs2', HsN. simpl. rewrite HsXL.
    unfold stX. simpl. by rewrite HsX. }
  assert (updates st2 = S (S (updates st))) as Hupdates2.
  { unfold st2. simpl. rewrite Hu2, HuN. simpl. rewrite HuXL.
    unfold stX. simpl. rewrite HuX.
    change (updates stN) with (S (updates st1)). by rewrite Hu1. }
  assert (isWorking st2 = false) as Hworking2.
  { unfold st2. simpl. by rewrite Hw2. }
  split_and!.
  - rewrite HcF. simpl. rewrite calls_foldl_deliver, Hq2'.
    rewrite (Hdue (heap st2)) by (rewrite Hh2', He'; done).
    rewrite Hcalls2, HcallsN, HcallsX, <- !app_assoc. do 2 f_equal.
    rewrite fmap_app, app_assoc. f_equal.
    unfold due at 2. rewrite filter_cons.
    fold (due (heap st) s2 post).
    rewrite (callback_of_live _ _ _ Hcb).
    destruct (stale (heap st) s2 x) eqn:Hx2.
    + by rewrite decide_True by done.
    + by rewrite decide_False by (intros [_ ?]; done).
  - by rewrite HqF.
  - rewrite HsF. simpl. by rewrite Hs2L.
  - rewrite HwF. simpl. by rewrite foldl_deliver_isWorking.
  - by rewrite HqF.
  - rewrite HuF. simpl. by rewrite Hu2L.
Qed.


End suspension.

(** Suspension.  In a pass started on an idle ring, let [x] be the first
    node whose callback is not passive: it calls [updating(w)]. The nodes
    before [x] are processed as usual; after the call of [x] the loop
    stops with the cursor on [x] and the working flag set, the
    continuation is queued as a microtask, and [completeUpdate] is not
    reached: no task is queued and the thrown values stay in the buffer. *)
Theorem updating_suspends_the_pass st pre x post fuel s w k :
  ring st (pre ++ x :: post) →
  cursorNode (queue st) = lastNode (queue st) → isWorking st = false →
  passive_on (heap st) pre →
  callback_of (heap st) x = Some (AUpdating w :: k) → passive k →
  stale (heap st) s x = true → s ≠ q_state (queue st) →
  length pre < fuel →
  ∃ st',
    newState (doUpdateWork fuel) s st = Some (Normal, st') ∧
    calls st' =
      calls st ++ ((λ a, mkCall a [] s) <$> due (heap st) s pre) ++
      [mkCall x [] s] ∧
    isWorking st' = true ∧ workNode st' = Some w ∧
    cursorNode (queue st') = Some x ∧
    lastNode (queue st') = last (x :: post) ∧
    microtasks st' = microtasks st ++ [JContinueUpdate] ∧
    tasks st' = tasks st ∧
    caughtErrors st' =
      caughtErrors st ++ omap (throws_of (heap st)) (due (heap st) s pre) ++
      option_list (thrown k) ∧
    ring st' (filter (λ a, live (heap st) a = true) pre ++ x :: post).
Proof.
  intros HR Hidle Hw Hpas Hcb Hk Hst Hs Hf.
  destruct (newState_suspends st pre x post fuel s w k)
    as (st1 & Hlap1 & Hrel & Hrun & _); try done.
  rewrite (Hrun Hf). eexists. split; [done|].
  destruct (suspend_facts (pass_start s st) st1 pre x post [] w k Hlap1 Hrel)
    as (Hc & Hw' & Hwn & Hcu & Hl & _ & Hm & Ht & Hce & _ & _ & _ & HR').
  split_and!; done.
Qed.

(** Resumption.  A pass suspended before the tail, with the nodes [dn]
    behind the cursor and the passive nodes [todo] still ahead, the last of
    them live: the continuation clears the working flag, processes exactly
    the nodes ahead (each live one whose stamp is not the queue's state is
    called once, in ring order), removes the dead ones, and ends the pass
    with the cursor on the tail. *)
Theorem continuation_finishes_the_lap st dn todo fuel t :
  ring st (dn ++ todo) → dn ≠ [] → cursorNode (queue st) = last dn →
  last todo = Some t → live (heap st) t = true →
  passive_on (heap st) todo → length todo ≤ fuel →
  ∃ st',
    continueUpdate fuel st = Some (Normal, st') ∧
    calls st' =
      calls st ++
      ((λ a, mkCall a [] (q_state (queue st)))
         <$> due (heap st) (q_state (queue st)) todo) ∧
    isWorking st' = false ∧
    cursorNode (queue st') = lastNode (queue st') ∧
    updates st' = updates st ∧
    ring st' (dn ++ filter (λ a, live (heap st) a = true) todo).
Proof. apply continueUpdate_live_tail. Qed.

(** A suspension before the tail, on a ring whose tail is live.  A state
    that is not the queue's state is submitted.  On an idle ring with a
    live tail, let the node [x], not the tail, be live with a stamp that
    is not the submitted state and a callback that calls
    [updating(w)] and is passive after that, all the other callbacks being
    passive.  The submission returns with the pass suspended and the
    continuation queued, and the continuation completes the same pass; over
    the two, every live node whose stamp is not the submitted state is
    called exactly once, in ring order. *)
Theorem suspension_before_the_tail_resumes st pre x post fuel s w k t :
  ring st (pre ++ x :: post) → last post = Some t →
  live (heap st) t = true →
  cursorNode (queue st) = lastNode (queue st) → isWorking st = false →
  passive_on (heap st) (pre ++ post) →
  callback_of (heap st) x = Some (AUpdating w :: k) → passive k →
  stale (heap st) s x = true → s ≠ q_state (queue st) →
  length (pre ++ x :: post) ≤ fuel →
  ∃ st1 st2,
    newState (doUpdateWork fuel) s st = Some (Normal, st1) ∧
    isWorking st1 = true ∧
    microtasks st1 = microtasks st ++ [JContinueUpdate] ∧
    continueUpdate fuel st1 = Some (Normal, st2) ∧
    calls st2 =
      calls st ++
      ((λ a, mkCall a [] s) <$> due (heap st) s (pre ++ x :: post)) ∧
    isWorking st2 = false ∧
    cursorNode (queue st2) = lastNode (queue st2) ∧
    updates st2 = S (updates st).
Proof.
  intros HR Ht Hlive Hidle Hw Hpas Hcb Hk Hst Hs Hf.
  apply passive_on_app in Hpas as [Hpre Hpost].
  rewrite length_app in Hf. simpl in Hf.
  destruct (newState_suspends st pre x post fuel s w k)
    as (st1 & Hlap1 & Hrel & Hrun & _); try done.
  rewrite Hrun by lia.
  destruct (suspend_facts (pass_start s st) st1 pre x post [] w k Hlap1 Hrel)
    as (Hc & Hw' & _ & Hcu & _ & Hq & Hm & _ & _ & _ & Hu & He & HR').
  cbn zeta in *. simpl in HR'.
  change (heap (pass_start s st)) with (heap st) in *.
  change (q_state (queue (pass_start s st))) with s in *.
  set (st' := suspend w k x st1) in *.
  set (L := filter (λ a, live (heap st) a = true) pre) in *.
  destruct (continueUpdate_live_tail st' (L ++ [x]) post fuel t)
    as (st2 & Hrun2 & Hc2 & Hw2 & Hcu2 & Hu2 & _).
  { by rewrite <- app_assoc. }
  { by intros [_ ?]%app_nil. }
  { by rewrite Hcu, last_snoc. }
  { done. }
  { by rewrite (erase_live _ _ t He). }
  { by eapply erase_passive_on. }
  { lia. }
  exists st', st2. split_and!; try done.
  - rewrite Hc2, Hc, Hq, (due_erase _ _ _ _ He), !due_app. unfold due at 4.
    rewrite filter_cons_True by (split; [by eapply callback_of_live | done]).
    fold (due (heap st) s post).
    by rewrite !fmap_app, <- !app_assoc.
  - by rewrite Hu2, Hu.
Qed.

Lemma omap_throws_erase (h h' : list node) (l : list nat) :
  erase h' = erase h → omap (throws_of h') l = omap (throws_of h) l.
Proof.
  intros He. induction l as [|a l IH]; [done|]. csimpl. rewrite IH.
  assert (throws_of h' a = throws_of h a) as ->; [|done].
  pose proof (erase_lookup _ _ a He) as Ha. unfold throws_of.
  destruct (h' !! a) as [[]|], (h !! a) as [[]|]; simpl in *; by simplify_eq.
Qed.

Lemma stateCt_drainErrors c errs : ∀ st,
  stateCt (drainErrors c errs st) = stateCt st.
Proof.
  induction errs as [|e errs IH]; intros st; simpl; [done|].
  destruct (truthy e); [|done]. by rewrite IH.
Qed.

Lemma stateCt_completeUpdate st : stateCt (completeUpdate st) = stateCt st.
Proof.
  unfold completeUpdate, checkForNextUpdate. cbn zeta.
  destruct (isWorking _); simpl; by rewrite stateCt_drainErrors.
Qed.

Lemma stateCt_foldl_deliver st l : stateCt (foldl deliver st l) = stateCt st.
Proof.
  revert st. induction l as [|a l IH]; intros st; [done|]. simpl.
  rewrite IH. unfold deliver.
  destruct (heap st !! a) as [nd|]; [|done].
  destruct (strict_ne _ _); [|done]. by destruct (_ ≫= thrown).
Qed.

(** A state submitted from inside a callback while the cursor is off the
    tail, on a ring whose tail is live.  A state [s] that is not the
    queue's state is submitted.  On an idle ring with a live tail, let the
    node [x], not the tail, have a stamp that is not [s] and a callback
    that begins with [newState(s2)], [s2] not [s]; let some node before
    [x] be live and all the other callbacks be passive.  The inner submission installs [s2] as the queue's state and
    then fails with the "unfinished update" error, which ends the callback;
    the outer submission returns normally.  The pass goes on under [s2]: the
    nodes before [x] that were due for [s] have been called under [s] only,
    [x] under [s], the nodes after it that are due for [s2] under [s2]
    only; one pass and two submissions are counted.  Nothing is left
    pending, so that [startUpdate] then finds nothing to do.  The error is
    buffered like a value thrown by a
    callback: the buffer that the pass hands to [completeUpdate] is the
    buffer it started with, the values thrown by the calls before [x], the
    error, and the values thrown by the calls after [x], in this order. *)
Theorem submission_in_mid_pass st pre x post fuel s s2 k t :
  ring st (pre ++ x :: post) → last post = Some t →
  live (heap st) t = true →
  cursorNode (queue st) = lastNode (queue st) → isWorking st = false →
  passive_on (heap st) (pre ++ post) →
  (∃ a, a ∈ pre ∧ live (heap st) a = true) →
  callback_of (heap st) x = Some (ANewState s2 :: k) →
  stale (heap st) s x = true → s ≠ q_state (queue st) → s2 ≠ s →
  length (pre ++ x :: post) ≤ fuel →
  ∃ st',
    newState (doUpdateWork fuel) s st = Some (Normal, st') ∧
    calls st' =
      calls st ++
      ((λ a, mkCall a [] s) <$> due (heap st) s pre ++ [x]) ++
      ((λ a, mkCall a [] s2) <$> due (heap st) s2 post) ∧
    q_state (queue st') = s2 ∧ states st' = [] ∧
    isWorking st' = false ∧
    cursorNode (queue st') = lastNode (queue st') ∧
    updates st' = S (updates st) ∧ stateCt st' = S (S (stateCt st)) ∧
    startUpdate (doUpdateWork fuel) st' = Some (Normal, st') ∧
    ∃ X, st' = completeUpdate X ∧
         caughtErrors X =
           caughtErrors st ++
           omap (throws_of (heap st)) (due (heap st) s pre) ++
           [unfinished_update] ++
           omap (throws_of (heap st)) (due (heap st) s2 post).
Proof.
  intros HR Ht Hlive Hidle Hw Hpas Hex Hcb Hst Hs Hs2 Hf.
  destruct (newState_mid_pass st pre x post fuel s s2 k t)
    as (st1 & h' & Hrel & He' & Hrun); try done.
  rewrite Hrun. eexists. split; [done|].
  set (L := filter (λ a, live (heap st) a = true) pre) in *.
  set (Lp := filter (λ a, live (heap st) a = true) post) in *.
  pose proof Hrel as (_ & Hq & He).
  rewrite foldl_deliver_queue in Hq. rewrite foldl_deliver_heap in He.
  change (heap (pass_start s st)) with (heap st) in He.
  change (q_state (queue (pass_start s st))) with s in Hq.
  destruct (relinked_fields _ _ Hrel)
    as (Hc1 & Hw1 & Hce1 & _ & _ & _ & Hu1 & _).
  rewrite foldl_deliver_isWorking in Hw1.
  destruct (foldl_deliver_frame (pass_start s st) L) as [_ Hu0].
  rewrite Hu0 in Hu1.
  assert (stateCt st1 = S (stateCt st)) as Hct1.
  { rewrite (relinked_eq _ _ Hrel). simpl. by rewrite stateCt_foldl_deliver. }
  set (st2 := resubmit s2 x st1) in *.
  match goal with |- context [completeUpdate ?X] =>
    destruct (completeUpdate_frame X)
      as (Hh & Hq' & Hc & Hwk & Hsts & Hu & _);
    pose proof (stateCt_completeUpdate X) as Hct
  end.
  destruct (foldl_deliver_frame st2 Lp) as [Hs2' Hu2].
  pose proof (stateCt_foldl_deliver st2 Lp) as Hct2.
  assert (states (completeUpdate
            (relink h' (mkQueue s2 (Some t) (Some t)) (foldl deliver st2 Lp)))
          = []) as Hstates.
  { rewrite Hsts. simpl. by rewrite Hs2'. }
  assert (isWorking (completeUpdate
            (relink h' (mkQueue s2 (Some t) (Some t)) (foldl deliver st2 Lp)))
          = false) as Hworking.
  { rewrite Hwk. simpl. rewrite foldl_deliver_isWorking.
    change (isWorking st2) with (isWorking st1). by rewrite Hw1. }
  split_and!.
  - rewrite Hc. simpl. rewrite calls_foldl_deliver.
    change (calls st2) with (calls st1 ++ [mkCall x [] (q_state (queue st1))]).
    change (q_state (queue st2)) with s2.
    change (heap st2) with (heap st1).
    rewrite Hc1, Hq, calls_foldl_deliver. simpl.
    unfold L, Lp. rewrite due_filter_live.
    rewrite (list_filter_iff (λ a, stale (heap st1) s2 a = true)
               (λ a, stale (heap st) s2 a = true))
      by (intros b; by rewrite (erase_stale _ _ _ b He)).
    by rewrite due_filter_live, !fmap_app, <- !app_assoc.
  - by rewrite Hq'.
  - done.
  - done.
  - by rewrite Hq'.
  - rewrite Hu. simpl. rewrite Hu2. change (updates st2) with (updates st1).
    by rewrite Hu1.
  - rewrite Hct. simpl. rewrite Hct2.
    change (stateCt st2) with (S (stateCt st1)). by rewrite Hct1.
  - unfold startUpdate. by rewrite Hworking, Hstates.
  - eexists. split; [reflexivity|]. simpl.
    rewrite caughtErrors_foldl_deliver.
    change (caughtErrors st2) with (caughtErrors st1 ++ [unfinished_update]).
    change (q_state (queue st2)) with s2.
    change (heap st2) with (heap st1).
    rewrite Hce1, caughtErrors_foldl_deliver. simpl.
    unfold L, Lp. rewrite due_filter_live.
    rewrite (list_filter_iff (λ a, stale (heap st1) s2 a = true)
               (λ a, stale (heap st) s2 a = true))
      by (intros b; by rewrite (erase_stale _ _ _ b He)).
    rewrite due_filter_live, (omap_throws_erase _ _ _ He).
    by rewrite <- !app_assoc.
Qed.

(** A state submitted from inside the callback of the first node that a
    pass processes, on a ring whose tail is live.  A state [s] that is not
    the queue's state is submitted.  On an idle ring with a live tail, let
    the node [x], not the tail, have only dead nodes before it, a stamp
    that is not [s], and a callback that
    is [newState(s2)], [s2] not [s], followed by a passive rest; let the
    callbacks of the nodes after [x] be passive.  The cursor is still on
    the tail when [x] is called under [s], so the inner submission starts a
    pass of its own, nested in the call: that pass calls [x] again,
    re-entrantly, if the stamp of [x] is not [s2], and then every live
    node after [x] whose stamp is not [s2], under [s2]; when it has
    completed, the outer pass goes on from [x] and calls those nodes after
    [x] a second time under [s2].  Two passes are counted and the outer
    submission returns normally. *)
Theorem submission_from_the_first_node st pre x post fuel s s2 k t :
  ring st (pre ++ x :: post) → last post = Some t →
  live (heap st) t = true →
  cursorNode (queue st) = lastNode (queue st) → isWorking st = false →
  (∀ a, a ∈ pre → live (heap st) a = false) →
  passive_on (heap st) post →
  callback_of (heap st) x = Some (ANewState s2 :: k) → passive k →
  stale (heap st) s x = true → s ≠ q_state (queue st) → s2 ≠ s →
  S (length (pre ++ x :: post)) ≤ fuel →
  ∃ st',
    newState (doUpdateWork fuel) s st = Some (Normal, st') ∧
    calls st' =
      calls st ++ [mkCall x [] s] ++
      ((λ a, mkCall a [] s2)
         <$> due (heap st) s2 (x :: post) ++ due (heap st) s2 post) ∧
    q_state (queue st') = s2 ∧ states st' = [] ∧ isWorking st' = false ∧
    cursorNode (queue st') = lastNode (queue st') ∧
    updates st' = S (S (updates st)).
Proof. apply newState_nested. Qed.




(** ** What escapes a submission *)


(** ** What no host run undoes *)

Lemma grows_run_job fuel j st : grows_result st (run_job fuel j st).
Proof.
  destruct j; simpl.
  - intros o st' H%grows_doUpdateWork. eapply grows_trans; [|exact H].
    by apply grows_same_heap.
  - apply grows_startUpdate. intros st0. apply grows_doUpdateWork.
  - intros o st' [= <- <-]. apply grows_refl.
Qed.

Lemma grows_host_run fuel j st st' :
  host_run fuel j st = Some st' → grows st st'.
Proof.
  unfold host_run. pose proof (grows_run_job fuel j st) as H.
  destruct (run_job fuel j st) as [[[|e] st1]|]; [| |done].
  - intros [= <-]. by eapply H.
  - intros [= <-]. eapply grows_trans; [by eapply H|].
    by apply grows_same_heap.
Qed.

Lemma grows_event_loop fuel : ∀ st st',
  event_loop fuel st = Some st' → grows st st'.
Proof.
  induction fuel as [|fuel IH]; intros st st'; simpl.
  - destruct (microtasks st); [|done]. destruct (tasks st); [|done].
    intros [= <-]. apply grows_refl.
  - destruct (microtasks st) as [|j js]; [destruct (tasks st) as [|j js]|].
    + intros [= <-]. apply grows_refl.
    + destruct (host_run fuel j _) as [st1|] eqn:Hj; [|done]. simpl.
      intros H%IH. apply grows_host_run in Hj.
      eapply grows_trans; [|eapply grows_trans; [exact Hj | exact H]].
      by apply grows_same_heap.
    + destruct (host_run fuel j _) as [st1|] eqn:Hj; [|done]. simpl.
      intros H%IH. apply grows_host_run in Hj.
      eapply grows_trans; [|eapply grows_trans; [exact Hj | exact H]].
      by apply grows_same_heap.
Qed.

(** Whatever the callbacks do (submit states, register subscribers, set
    the working flag, replace or clear callbacks, throw), a submission
    followed by the run of all the deferred work it causes never removes a
    node object, never changes a node's stamp and never changes a node's
    index. *)
Theorem stamps_and_indices_are_kept fuel s st st' :
  host_submit fuel s st = Some st' →
  ∀ a nd, heap st !! a = Some nd →
    ∃ nd', heap st' !! a = Some nd' ∧ state nd' = state nd ∧
           index nd' = index nd.
Proof.
  unfold host_submit. intros H.
  enough (grows st st') as [_ Hk] by exact Hk.
  destruct (newState _ s st) as [[[|e] st1]|] eqn:Hn; [| |done].
  - apply newState_counts in Hn as [Hg _]; [|apply grows_doUpdateWork].
    apply grows_event_loop in H. by eapply grows_trans.
  - apply newState_counts in Hn as [Hg _]; [|apply grows_doUpdateWork].
    apply grows_event_loop in H.
    eapply grows_trans; [exact Hg|]. eapply grows_trans; [|exact H].
    by apply grows_same_heap.
Qed.

(** ** Registering between passes *)

Lemma create_frame u st :
  (create u st).1 = length (heap st) ∧
  calls (create u st).2 = calls st ∧
  q_state (queue (create u st).2) = q_state (queue st) ∧
  isWorking (create u st).2 = isWorking st ∧
  erase (heap (create u st).2) =
    erase (heap st ++ [mkNode (nodeCount st) u (q_state (queue st)) None]).
Proof.
  unfold create, appendNodeToQueue. simpl.
  destruct (lastNode (queue st)); [destruct (bool_decide _)|]; simpl;
    by rewrite ?erase_set_next.
Qed.

(** A subscriber with a passive callback, registered while the updater is
    idle and the callbacks in the ring are passive, is called in the next
    pass, and last: the pass calls every live node of the old ring whose
    stamp is not the submitted state exactly once, in ring order (also
    when the old tail is dead: the newcomer is the tail now, and it is
    live), and then the newcomer. *)
Theorem late_subscriber_is_called_last st R fuel s cb :
  ring st R → cursorNode (queue st) = lastNode (queue st) →
  isWorking st = false → passive_heap (heap st) → passive cb →
  s ≠ q_state (queue st) → 2 * S (length R) ≤ fuel →
  ∃ st',
    newState (doUpdateWork fuel) s (create (Some cb) st).2
    = Some (Normal, st') ∧
    calls st' =
      calls st ++ ((λ a, mkCall a [] s) <$> due (heap st) s R) ++
      [mkCall (create (Some cb) st).1 [] s].
Proof.
  intros HR Hidle Hw Hpas Hcb Hs Hf.
  destruct (create_frame (Some cb) st) as (Ha & Hc & Hq & Hw1 & He).
  set (nd0 := mkNode (nodeCount st) (Some cb) (q_state (queue st)) None) in *.
  set (st1 := (create (Some cb) st).2) in *.
  set (a := length (heap st)) in *.
  assert (ring st1 (R ++ [a])) as HR1 by (by apply create_ring).
  assert ((heap st ++ [nd0]) !! a = Some nd0) as Hnd0
    by (by apply list_lookup_middle).
  assert (live (heap st1) a = true) as Hla.
  { rewrite (erase_live _ _ a He). unfold live. by rewrite Hnd0. }
  assert (passive_heap (heap st1)) as Hpas1.
  { eapply erase_passive; [exact He|]. intros x nd c Hx Hc'.
    apply lookup_app_Some in Hx as [Hx|[_ Hx]]; [by eapply Hpas|].
    destruct (x - length (heap st)) as [|k]; simpl in Hx; [|done].
    injection Hx as <-. simpl in Hc'. by injection Hc' as <-. }
  destruct (newState_live_tail st1 (R ++ [a]) fuel s a)
    as (st' & Hrun & Hcalls & _); try done.
  { by rewrite last_snoc. }
  { by apply create_idle. }
  { congruence. }
  { congruence. }
  { rewrite length_app. simpl. lia. }
  exists st'. split; [exact Hrun|]. rewrite Hcalls, Hc, Ha. f_equal.
  enough (due (heap st1) s (R ++ [a]) = due (heap st) s R ++ [a]) as ->
    by (by rewrite fmap_app).
  unfold due at 1. rewrite filter_app. fold (due (heap st1) s R).
  pose proof HR as (HC & _).
  rewrite (due_ext (heap st) (heap st1) s R).
  - f_equal. rewrite filter_cons_True; [done|]. split; [done|].
    rewrite (erase_stale _ _ s a He). unfold stale, strict_ne. rewrite Hnd0.
    simpl. by rewrite bool_decide_eq_true_2 by congruence.
  - intros x Hx. pose proof (cyc_lt _ _ _ HC Hx) as Hlt.
    rewrite (erase_live _ _ x He), (erase_stale _ _ s x He).
    unfold live, stale. by rewrite lookup_app_l by done.
Qed.

(** ** The ring as a queue *)

(** On an idle ring the two ring operations make a first-in first-out
    queue: appending a fresh node puts the cursor on it, so that
    [removeCurrentNode] then removes the head, the node that has been in
    the ring longest, and the appended node stays the tail. *)
Theorem append_then_remove_takes_the_head st x R n :
  ring st (x :: R) → cursorNode (queue st) = lastNode (queue st) →
  n < length (heap st) → n ∉ x :: R →
  ∃ st',
    removeCurrentNode (appendNodeToQueue n st) = (Normal, st') ∧
    ring st' (R ++ [n]) ∧
    cursorNode (queue st') = Some n ∧ lastNode (queue st') = Some n.
Proof.
  intros HR Hidle Hn Hfresh.
  pose proof (appendNodeToQueue_ring _ _ _ HR Hfresh Hn) as HR1.
  set (st1 := appendNodeToQueue n st) in *.
  pose proof HR1 as (HC1 & Hl1 & _).
  rewrite last_snoc in Hl1.
  assert (cursorNode (queue st1) = Some n) as Hc1.
  { subst st1. unfold appendNodeToQueue. pose proof HR as (_ & Hl & _).
    destruct (lastNode (queue st)) as [t|] eqn:Ht.
    - by rewrite bool_decide_eq_true_2 by done.
    - symmetry in Hl. by apply last_None in Hl. }
  destruct (removeCurrentNode_ring st1 _ HR1)
    as (c & r & st' & Hc & Hr & Hrm & _ & _ & HR' & _ & Hmore).
  { by rewrite Hl1. }
  rewrite Hc1 in Hc. injection Hc as <-.
  assert (r = x) as ->.
  { change ((x :: R) ++ [n]) with (x :: (R ++ [n])) in HC1.
    pose proof (cyc_last_next _ x (R ++ [n]) n HC1) as Hnx.
    rewrite Hnx in Hr; [by injection Hr|].
    change (x :: R ++ [n]) with ((x :: R) ++ [n]). by rewrite last_snoc. }
  exists st'. split; [exact Hrm|].
  assert (filter (λ y, y ≠ x) ((x :: R) ++ [n]) = R ++ [n]) as Hfil.
  { simpl. rewrite filter_cons_False by (intros Hx; by apply Hx).
    apply filter_ne_notin. destruct HC1 as [Hnd _]. simpl in Hnd.
    by apply NoDup_cons in Hnd as [? _]. }
  rewrite Hfil in HR'. split; [exact HR'|].
  destruct Hmore as (_ & Hc' & Hl').
  { intros [= Heq]. by destruct R. }
  split; [exact Hc'|]. rewrite Hl', Hl1.
  rewrite bool_decide_eq_false_2; [done|].
  intros [= ->]. apply Hfresh. left.
Qed.

(** ** The ring dump *)

Lemma printLoop_chain st z t : ∀ l p fuel,
  next_of (heap st) p = head l → chain (heap st) l z →
  last l = Some t → lastNode (queue st) = Some t → NoDup l →
  (∀ n, n ∈ l → ∃ nd nx,
     heap st !! n = Some nd ∧
     nextNode nd ≫= (λ m, heap st !! m) = Some nx) →
  length l ≤ fuel →
  printLoop fuel (heap st) (queue st) p = Some (Some (dump_entry st <$> l)).
Proof.
  induction l as [|n l IH]; intros p fuel Hp Hch Hl Ht Hnd Hal Hf; [done|].
  destruct fuel as [|fuel]; [simpl in Hf; lia|].
  destruct (Hal n) as (nd & nx & Hn & Hnx); [left|].
  apply NoDup_cons in Hnd as [Hnl Hnd]. destruct Hch as [Hnn Hch].
  simpl in Hp. cbn [printLoop]. rewrite Hp. cbn [mbind option_bind].
  rewrite Hn. cbn [mbind option_bind]. rewrite Hnx. cbn [mbind option_bind].
  assert (dump_entry st n =
          nodeStr (bool_decide (cursorNode (queue st) = Some n))
            (index nd) (index nx)) as Hstr.
  { unfold dump_entry. rewrite Hn. cbn [mbind option_bind].
    by rewrite Hnx. }
  rewrite Ht. destruct l as [|m l].
  - injection Hl as ->.
    by rewrite bool_decide_eq_false_2, fmap_cons, Hstr by (intros ?; done).
  - rewrite last_cons_ne in Hl by done.
    rewrite bool_decide_eq_true_2.
    + rewrite (IH n fuel); try done.
      * by rewrite (fmap_cons _ n), Hstr.
      * intros k Hk. apply Hal. by right.
      * simpl in *. lia.
    + intros [= ->]. by apply Hnl, last_elem_of.
Qed.

(** The dump of a well-formed ring.  [printQueue] raises nothing and logs
    one entry per node of the ring, each node once, from the head to the
    tail; the entry of a node shows its index and the index of its
    successor in the ring, and is marked [cur] exactly for the cursor. *)
Theorem printQueue_lists_the_ring st R fuel :
  ring st R → length R ≤ fuel →
  printQueue fuel st =
    Some (Logged
            (if bool_decide (R = []) then "printQueue, queue is empty"
             else "printQueue, queue " +:+
                  String.concat ", " (dump_entry st <$> R))) ∧
  ∀ a, a ∈ R →
    ∃ nd b nx,
      heap st !! a = Some nd ∧ next_of (heap st) a = Some b ∧ b ∈ R ∧
      heap st !! b = Some nx ∧
      dump_entry st a =
        nodeStr (bool_decide (cursorNode (queue st) = Some a))
          (index nd) (index nx).
Proof.
  intros (HC & Hlast & Hcur) Hf.
  assert (∀ a, a ∈ R →
    ∃ nd b nx,
      heap st !! a = Some nd ∧ next_of (heap st) a = Some b ∧ b ∈ R ∧
      heap st !! b = Some nx ∧
      nextNode nd ≫= (λ m, heap st !! m) = Some nx) as Hal.
  { intros a Ha. destruct (cyc_next_in _ _ _ HC Ha) as (b & Hb & HbR).
    pose proof (cyc_lt _ _ _ HC HbR) as Hblt.
    destruct (lookup_lt_is_Some_2 _ _ Hblt) as [nx Hnx].
    unfold next_of in Hb.
    destruct (heap st !! a) as [nd|] eqn:Hnd; [|done]. simpl in Hb.
    exists nd, b, nx. split_and!; try done.
    - unfold next_of. by rewrite Hnd.
    - by rewrite Hb. }
  split.
  - unfold printQueue. rewrite Hlast.
    destruct R as [|x R]; [done|].
    destruct (last (x :: R)) as [t|] eqn:Ht; [|by apply last_None in Ht].
    rewrite (printLoop_chain st x t (x :: R)); try done.
    + by apply (cyc_last_next _ x R t).
    + apply HC.
    + apply HC.
    + intros n Hn. destruct (Hal n Hn) as (nd & b & nx & ? & _ & _ & _ & ?).
      eauto.
  - intros a Ha. destruct (Hal a Ha) as (nd & b & nx & Hnd & Hb & HbR & Hnx & Hn).
    exists nd, b, nx. split_and!; try done.
    unfold dump_entry. rewrite Hnd. cbn [mbind option_bind]. by rewrite Hn.
Qed.

(** The dump of a ring of three nodes: the cursor is on the tail. *)
Example printQueue_three :
  printQueue 3 (ring_of [Some []; None; Some []])
  = Some (Logged "printQueue, queue 0->1, 1->2, cur(2)->0").
Proof. vm_compute. reflexivity. Qed.

(** ** The store pass-through *)

(** [dispatch] throws its own error while no store is attached.  Once
    [setStore s] has returned or thrown, [s] is the attached store (also
    when [getState] or the submission of the state threw), [dispatch]
    forwards its arguments to that store, and attaching the same store
    again does nothing.  A store that was already attached is not asked for
    its state; for another store, [setStore] is the submission of the state
    that [getState] returns, and what [getState] throws is thrown on with
    the scheduler untouched. *)
Theorem setStore_attaches :
  (∀ args up, store up = None → dispatch args up = Raise no_store) ∧
  (∀ fuel s up o up',
     setStore fuel s up = Some (o, up') →
     (∃ c, store up' = Some c ∧ store_ref c = store_ref s ∧
           ∀ args, dispatch args up' = store_dispatch c args) ∧
     (∀ fuel' s', store_ref s' = store_ref s →
                  setStore fuel' s' up' = Some (Normal, up')) ∧
     (other_store (store up) s = true →
        store up' = Some s ∧
        match getState s with
        | Return v =>
            newState (doUpdateWork fuel) v (core up) = Some (o, core up')
        | Raise e => o = Throw e ∧ core up' = core up
        end) ∧
     (other_store (store up) s = false → up' = up ∧ o = Normal)).
Proof.
  split.
  - intros args up Hs. unfold dispatch. by rewrite Hs.
  - intros fuel s up o up'. unfold setStore.
    destruct (other_store (store up) s) eqn:Ho.
    + assert (∀ fuel' s' st', store_ref s' = store_ref s →
                setStore fuel' s' (mkUpdater st' (Some s))
                = Some (Normal, mkUpdater st' (Some s))) as Hsame.
      { intros fuel' s' st' Hs'. unfold setStore, other_store. simpl.
        by rewrite bool_decide_eq_false_2 by (intros Hne; by apply Hne). }
      destruct (getState s) as [v|e].
      * destruct (newState _ _ _) as [[o1 st1]|]; [|done].
        intros [= <- <-]. simpl. split_and!; [eauto| |done|done].
        intros fuel' s' Hs'. by apply Hsame.
      * intros [= <- <-]. simpl. split_and!; [eauto| |done|done].
        intros fuel' s' Hs'. by apply Hsame.
    + intros [= <- <-]. unfold other_store in Ho.
      destruct (store up) as [c|] eqn:Hc; [|done].
      apply bool_decide_eq_false in Ho.
      assert (store_ref c = store_ref s) as Href.
      { destruct (decide (store_ref c = store_ref s)); [done|]. by destruct Ho. }
      split_and!; [|  |done|done].
      * exists c. split_and!; [done|done|]. intros args.
        unfold dispatch. by rewrite Hc.
      * intros fuel' s' Hs'. unfold setStore, other_store.
        by rewrite bool_decide_eq_false_2 by (intros Hne; apply Hne; congruence).
Qed.

(** ** Node indices *)

Section indexed_lemmas.
Implicit Types (st : sched).

Lemma indexed_same st st' :
  heap st' = heap st → nodeCount st' = nodeCount st →
  indexed st → indexed st'.
Proof. intros Hh Hn [? ?]. unfold indexed. by rewrite Hh, Hn. Qed.

Lemma indexed_alter st (f : node → node) a :
  (∀ nd, index (f nd) = index nd) →
  indexed st → indexed (set_heap (alter f a (heap st)) st).
Proof.
  intros Hf [Hn Hi]. split; simpl; [by rewrite length_alter|].
  intros b nd. destruct (decide (a = b)) as [->|Hne].
  - rewrite list_lookup_alter_eq.
    destruct (heap st !! b) as [nd0|] eqn:Hb; [|done].
    intros [= <-]. rewrite Hf. by apply Hi.
  - rewrite list_lookup_alter_ne by done. apply Hi.
Qed.

Lemma indexed_set_next st a nx :
  indexed st → indexed (set_heap (set_next a nx (heap st)) st).
Proof. by apply indexed_alter. Qed.

Lemma indexed_appendNodeToQueue st n :
  indexed st → indexed (appendNodeToQueue n st).
Proof.
  intros Hi. unfold appendNodeToQueue.
  destruct (lastNode (queue st)) as [t|].
  - apply (indexed_set_next _ n (next_of (heap st) t)) in Hi.
    apply (indexed_set_next _ t (Some n)) in Hi.
    destruct (bool_decide _); by eapply indexed_same; [| |exact Hi].
  - apply (indexed_set_next _ n (Some n)) in Hi.
    by eapply indexed_same; [| |exact Hi].
Qed.

Lemma indexed_create st u : indexed st → indexed (create u st).2.
Proof.
  intros [Hn Hi]. unfold create. simpl. apply indexed_appendNodeToQueue.
  split; simpl.
  - rewrite length_app. simpl. lia.
  - intros a nd [Ha|[Hge Ha]]%lookup_app_Some; [by apply Hi|].
    destruct (a - length (heap st)) as [|k] eqn:Hk; simpl in Ha; [|done].
    injection Ha as <-. simpl. lia.
Qed.

Lemma indexed_removeCurrentNode st :
  indexed st → indexed (removeCurrentNode st).2.
Proof.
  intros Hi. unfold removeCurrentNode.
  destruct (lastNode (queue st)) as [t|]; [|done].
  case_bool_decide.
  - simpl. apply (indexed_set_next _ t None) in Hi.
    by eapply indexed_same; [| |exact Hi].
  - destruct (cursorNode (queue st)) as [c|]; [|done].
    destruct (next_of (heap st) c) as [r|]; [|done]. simpl.
    apply (indexed_set_next _ c (next_of (heap st) r)) in Hi.
    destruct (bool_decide _); by eapply indexed_same; [| |exact Hi].
Qed.

Lemma nodeCount_drainErrors c errs : ∀ st,
  nodeCount (drainErrors c errs st) = nodeCount st.
Proof.
  induction errs as [|e errs IH]; intros st; simpl; [done|].
  destruct (truthy e); [|done]. by rewrite IH.
Qed.

Lemma indexed_completeUpdate st : indexed st → indexed (completeUpdate st).
Proof.
  destruct (completeUpdate_frame st) as (Hh & _).
  apply indexed_same; [done|].
  unfold completeUpdate, checkForNextUpdate. cbn zeta.
  destruct (isWorking _); simpl; by rewrite nodeCount_drainErrors.
Qed.

Lemma indexed_startUpdate pass st o st' :
  (∀ st o st', indexed st → pass st = Some (o, st') → indexed st') →
  indexed st → startUpdate pass st = Some (o, st') → indexed st'.
Proof.
  intros Hpass Hi. unfold startUpdate.
  destruct (isWorking st); [by intros [= <- <-]|].
  destruct (last (states st)) as [s|]; [|by intros [= <- <-]]. simpl.
  destruct (lastNode (queue st)) as [t|]; [|by intros [= <- <-]].
  case_bool_decide; [by intros [= <- <-]|].
  apply Hpass. by eapply indexed_same; [| |exact Hi].
Qed.

Lemma indexed_newState pass s st o st' :
  (∀ st o st', indexed st → pass st = Some (o, st') → indexed st') →
  indexed st → newState pass s st = Some (o, st') → indexed st'.
Proof.
  intros Hpass Hi. unfold newState. destruct (strict_ne _ _).
  - apply indexed_startUpdate; [done|]. by eapply indexed_same; [| |exact Hi].
  - by intros [= <- <-].
Qed.

Lemma indexed_run_callback pass cb :
  (∀ st o st', indexed st → pass st = Some (o, st') → indexed st') →
  ∀ st o st', indexed st → run_callback pass cb st = Some (o, st') →
              indexed st'.
Proof.
  intros Hpass. induction cb as [|act cb IH]; intros st o st' Hi; simpl.
  { by intros [= <- <-]. }
  destruct act as [s|u|n|n u|e].
  - destruct (newState pass s st) as [[[|e] st1]|] eqn:Hn; [| |done].
    + apply IH. exact (indexed_newState pass s st _ _ Hpass Hi Hn).
    + intros [= <- <-]. exact (indexed_newState pass s st _ _ Hpass Hi Hn).
  - apply IH. by apply indexed_create.
  - apply IH. by eapply indexed_same; [| |exact Hi].
  - apply IH. by apply indexed_alter.
  - by intros [= <- <-].
Qed.

Lemma indexed_doUpdateWork_with loop :
  (∀ st o st', indexed st → loop st = Some (o, st') → indexed st') →
  ∀ st o st', indexed st → doUpdateWork_with loop st = Some (o, st') →
              indexed st'.
Proof.
  intros Hloop st o st' Hi. unfold doUpdateWork_with.
  destruct (isWorking st); [by intros [= <- <-]|].
  destruct (lastNode (queue st)); [by apply Hloop|].
  intros [= <- <-]. by apply indexed_completeUpdate.
Qed.

Lemma indexed_workStep loop :
  (∀ st o st', indexed st → loop st = Some (o, st') → indexed st') →
  ∀ st o st', indexed st → workStep loop st = Some (o, st') → indexed st'.
Proof.
  intros Hloop st o st' Hi. unfold workStep.
  destruct (cursorNode (queue st)) as [c|]; [|by intros [= <- <-]].
  destruct (_ ≫= _) as [[n nd]|]; [|by intros [= <- <-]].
  destruct (updater_current nd) as [cb|].
  - cbn zeta.
    assert (∀ st1, indexed st1 →
      (if isWorking (set_cursorNode (Some n) st1)
       then Some (Normal, scheduleAsMicrotask JContinueUpdate
                            (set_cursorNode (Some n) st1))
       else if bool_decide
                 (cursorNode (queue (set_cursorNode (Some n) st1)) ≠
                  lastNode (queue (set_cursorNode (Some n) st1)))
            then loop (set_cursorNode (Some n) st1)
            else Some (Normal, completeUpdate (set_cursorNode (Some n) st1)))
      = Some (o, st') → indexed st') as Hrest.
    { intros st1 H1. destruct (isWorking _).
      - intros [= <- <-]. by eapply indexed_same; [| |exact H1].
      - destruct (bool_decide _).
        + apply Hloop. by eapply indexed_same; [| |exact H1].
        + intros [= <- <-]. apply indexed_completeUpdate.
          by eapply indexed_same; [| |exact H1]. }
    destruct (strict_ne _ _); [|by apply Hrest].
    destruct (run_callback _ cb _) as [[[|e] st1]|] eqn:Hcb; [| |done].
    + apply Hrest. eapply indexed_run_callback; [| |exact Hcb].
      * by apply indexed_doUpdateWork_with.
      * by eapply indexed_same; [| |exact Hi].
    + apply Hrest.
      assert (indexed st1) as H1.
      { eapply indexed_run_callback; [| |exact Hcb].
        - by apply indexed_doUpdateWork_with.
        - by eapply indexed_same; [| |exact Hi]. }
      by eapply indexed_same; [| |exact H1].
  - pose proof (indexed_removeCurrentNode st Hi) as Hrm.
    destruct (removeCurrentNode st) as [[|e] st1]; simpl in Hrm.
    + destruct (lastNode (queue st1)); [by apply Hloop|].
      intros [= <- <-]. by apply indexed_completeUpdate.
    + by intros [= <- <-].
Qed.

Lemma indexed_workLoop fuel :
  ∀ st o st', indexed st → workLoop fuel st = Some (o, st') → indexed st'.
Proof.
  induction fuel as [|fuel IH]; intros st o st' Hi; [done|].
  by apply indexed_workStep.
Qed.

Lemma indexed_doUpdateWork fuel st o st' :
  indexed st → doUpdateWork fuel st = Some (o, st') → indexed st'.
Proof. apply indexed_doUpdateWork_with, indexed_workLoop. Qed.

Lemma indexed_host_run fuel j st st' :
  indexed st → host_run fuel j st = Some st' → indexed st'.
Proof.
  intros Hi. unfold host_run.
  assert (∀ o st1, run_job fuel j st = Some (o, st1) → indexed st1) as Hj.
  { intros o st1. destruct j; simpl.
    - apply indexed_doUpdateWork. by eapply indexed_same; [| |exact Hi].
    - apply indexed_startUpdate; [|done]. intros ? ? ?.
      apply indexed_doUpdateWork.
    - by intros [= <- <-]. }
  destruct (run_job fuel j st) as [[[|e] st1]|]; [| |done].
  - intros [= <-]. by eapply Hj.
  - intros [= <-]. eapply indexed_same; [| |by eapply Hj]; done.
Qed.

Lemma indexed_event_loop fuel : ∀ st st',
  indexed st → event_loop fuel st = Some st' → indexed st'.
Proof.
  induction fuel as [|fuel IH]; intros st st' Hi; simpl.
  - destruct (microtasks st); [|done]. destruct (tasks st); [|done].
    by intros [= <-].
  - destruct (microtasks st) as [|j js]; [destruct (tasks st) as [|j js]|].
    + by intros [= <-].
    + destruct (host_run fuel j _) as [st1|] eqn:Hj; [|done]. simpl.
      apply IH. eapply indexed_host_run; [|exact Hj].
      by eapply indexed_same; [| |exact Hi].
    + destruct (host_run fuel j _) as [st1|] eqn:Hj; [|done]. simpl.
      apply IH. eapply indexed_host_run; [|exact Hj].
      by eapply indexed_same; [| |exact Hi].
Qed.
End indexed_lemmas.

(** Node indices are never reused.  Starting from [createUpdater], and
    whatever the callbacks do, registrations and submissions (with the
    deferred work they cause) keep the indices of the node objects equal
    to their order of creation: two distinct node objects never have the
    same index, and every index is below the node counter. *)
Theorem indices_follow_creation :
  indexed createUpdater ∧
  (∀ u st, indexed st → indexed (create u st).2) ∧
  (∀ fuel s st st', indexed st → host_submit fuel s st = Some st' →
                    indexed st') ∧
  (∀ st, indexed st →
     ∀ a b nda ndb, heap st !! a = Some nda → heap st !! b = Some ndb →
       (index nda = index ndb → a = b) ∧ index nda < nodeCount st).
Proof.
  split_and!.
  - split; [done|]. intros a nd Ha. done.
  - intros u st. apply indexed_create.
  - intros fuel s st st' Hi. unfold host_submit.
    destruct (newState _ s st) as [[[|e] st1]|] eqn:Hn; [| |done].
    + apply indexed_event_loop. eapply indexed_newState; [|exact Hi|exact Hn].
      intros ? ? ?. apply indexed_doUpdateWork.
    + apply indexed_event_loop.
      assert (indexed st1) as H1.
      { eapply indexed_newState; [|exact Hi|exact Hn].
        intros ? ? ?. apply indexed_doUpdateWork. }
      by eapply indexed_same; [| |exact H1].
  - intros st [Hn Hi] a b nda ndb Ha Hb. split.
    + rewrite (Hi a nda Ha), (Hi b ndb Hb). done.
    + rewrite (Hi a nda Ha), Hn. by eapply lookup_lt_Some.
Qed.

(** ** The further properties at concrete updaters *)

Lemma ring_three_subscribers : ring three_subscribers [0; 1; 2].
Proof. exact (proj1 (ring_of_ring [Some []; None; Some [AThrow (VError "boom")]])). Qed.


Lemma ring_suspended_after_first : ring suspended_after_first ([0] ++ [1; 2]).
Proof.
  destruct (ring_of_ring [Some [AUpdating 0]; Some []; Some []])
    as ((HC & Hl & _) & _).
  split_and!; [exact HC | exact Hl | left].
Qed.

Lemma ring_suspending_second : ring suspending_second ([0] ++ 1 :: [2]).
Proof. exact (proj1 (ring_of_ring [Some []; Some [AUpdating 1]; Some []])). Qed.


Lemma passive_onb_sound h l : passive_onb h l = true → passive_on h l.
Proof.
  unfold passive_onb. rewrite forallb_forall. intros Hall a cb Ha Hcb.
  apply list_elem_of_In in Ha. specialize (Hall a Ha). rewrite Hcb in Hall.
  simpl in Hall. by destruct cb as [|[] cb].
Qed.


(** A pass over three subscribers, the second of which is torn down. *)
Lemma pass_reaps_dead_nodes_witness :
  ∃ st', newState (doUpdateWork 6) (VObj 1) three_subscribers
         = Some (Normal, st') ∧
         ring st' [0; 2].
Proof.
  destruct (pass_reaps_dead_nodes three_subscribers [0; 1; 2] 6 (VObj 1))
    as (st' & Hrun & HR & _).
  - exact ring_three_subscribers.
  - discriminate.
  - vm_compute. reflexivity.
  - vm_compute. reflexivity.
  - apply passive_heapb_sound. vm_compute. reflexivity.
  - vm_compute. discriminate.
  - vm_compute. lia.
  - exists st'. split; [exact Hrun | exact HR].
Defined.

(** The calls of that pass: the first and the third subscriber. *)
Lemma pass_calls_in_ring_order_witness :
  ∃ st', newState (doUpdateWork 6) (VObj 1) three_subscribers
         = Some (Normal, st') ∧
         calls st' = [mkCall 0 [] (VObj 1); mkCall 2 [] (VObj 1)].
Proof.
  destruct (pass_calls_in_ring_order three_subscribers [0; 1; 2] 6 (VObj 1) 2)
    as (st' & Hrun & Hc & _).
  - exact ring_three_subscribers.
  - vm_compute. reflexivity.
  - vm_compute. reflexivity.
  - vm_compute. reflexivity.
  - vm_compute. reflexivity.
  - apply passive_heapb_sound. vm_compute. reflexivity.
  - vm_compute. discriminate.
  - vm_compute. lia.
  - exists st'. split; [exact Hrun | exact Hc].
Defined.


(** Two truthy errors in the buffer. *)
Lemma completeUpdate_schedules_rethrows_witness :
  tasks (completeUpdate
           (set_caughtErrors [VError "a"; VObj 1] createUpdater))
  = [JRethrow 0; JRethrow 0; JStartUpdate].
Proof.
  refine (proj1 (proj2 (completeUpdate_schedules_rethrows
                          (set_caughtErrors [VError "a"; VObj 1] createUpdater) _))).
  vm_compute. repeat constructor.
Defined.

(** A falsy value between two errors. *)
Lemma completeUpdate_stops_at_falsy_witness :
  caughtErrors (completeUpdate
                  (set_caughtErrors [VError "a"; VNum 0; VError "c"]
                     createUpdater))
  = [VError "a"].
Proof.
  refine (proj1 (completeUpdate_stops_at_falsy
                   (set_caughtErrors [VError "a"; VNum 0; VError "c"]
                      createUpdater)
                   [VError "a"] (VNum 0) [VError "c"] _ _ _)).
  - vm_compute. reflexivity.
  - vm_compute. reflexivity.
  - vm_compute. repeat constructor.
Defined.

(** A submission to two subscribers, the second one throwing. *)
Lemma submission_settles_witness :
  ∃ st', host_submit 6 (VObj 1)
           (ring_of [Some []; Some [AThrow (VError "boom")]]) = Some st' ∧
         tasks st' = [] ∧ faults st' = [VUndefined].
Proof.
  destruct (submission_settles
              (ring_of [Some []; Some [AThrow (VError "boom")]])
              [0; 1] 6 (VObj 1) 1)
    as (st' & Hrun & _ & Ht & _ & _ & _ & _ & _ & Hf).
  - exact (proj1 (ring_of_ring [Some []; Some [AThrow (VError "boom")]])).
  - vm_compute. reflexivity.
  - vm_compute. reflexivity.
  - vm_compute. reflexivity.
  - vm_compute. reflexivity.
  - apply passive_heapb_sound. vm_compute. reflexivity.
  - vm_compute. discriminate.
  - vm_compute. reflexivity.
  - vm_compute. reflexivity.
  - vm_compute. reflexivity.
  - intros a e H. destruct a as [|[|a]]; vm_compute in H;
      try discriminate. injection H as <-. reflexivity.
  - vm_compute. lia.
  - exists st'. split; [exact Hrun|]. split; [exact Ht | exact Hf].
Defined.

(** A pass over three subscribers, suspended by the second. *)
Lemma updating_suspends_the_pass_witness :
  ∃ st', newState (doUpdateWork 2) (VObj 1) suspending_second
         = Some (Normal, st') ∧
         calls st' = [mkCall 0 [] (VObj 1); mkCall 1 [] (VObj 1)] ∧
         isWorking st' = true ∧ microtasks st' = [JContinueUpdate] ∧
         tasks st' = [].
Proof.
  destruct (updating_suspends_the_pass suspending_second [0] 1 [2] 2
              (VObj 1) 1 [])
    as (st' & Hrun & Hc & Hw & _ & _ & _ & Hm & Ht & _).
  - exact ring_suspending_second.
  - vm_compute. reflexivity.
  - vm_compute. reflexivity.
  - apply passive_onb_sound. vm_compute. reflexivity.
  - vm_compute. reflexivity.
  - exact I.
  - vm_compute. reflexivity.
  - vm_compute. discriminate.
  - vm_compute. lia.
  - exists st'. split_and!; [exact Hrun | exact Hc | exact Hw | exact Hm | exact Ht].
Defined.

(** The continuation of a pass suspended by the first of three nodes. *)
Lemma continuation_finishes_the_lap_witness :
  ∃ st', continueUpdate 2 suspended_after_first = Some (Normal, st') ∧
         calls st' = [mkCall 1 [] (VObj 1); mkCall 2 [] (VObj 1)] ∧
         isWorking st' = false.
Proof.
  destruct (continuation_finishes_the_lap suspended_after_first
              [0] [1; 2] 2 2)
    as (st' & Hrun & Hc & Hw & _).
  - exact ring_suspended_after_first.
  - discriminate.
  - vm_compute. reflexivity.
  - vm_compute. reflexivity.
  - vm_compute. reflexivity.
  - apply passive_onb_sound. vm_compute. reflexivity.
  - vm_compute. lia.
  - exists st'. split; [exact Hrun|]. split; [exact Hc | exact Hw].
Defined.

(** A pass over three subscribers, suspended by the second and resumed. *)
Lemma suspension_before_the_tail_resumes_witness :
  ∃ st1 st2,
    newState (doUpdateWork 3) (VObj 1) suspending_second
    = Some (Normal, st1) ∧
    continueUpdate 3 st1 = Some (Normal, st2) ∧
    calls st2 = [mkCall 0 [] (VObj 1); mkCall 1 [] (VObj 1);
                 mkCall 2 [] (VObj 1)] ∧
    isWorking st2 = false.
Proof.
  destruct (suspension_before_the_tail_resumes suspending_second [0] 1 [2] 3
              (VObj 1) 1 [] 2)
    as (st1 & st2 & Hrun & _ & _ & Hrun2 & Hc & Hw & _).
  - exact ring_suspending_second.
  - vm_compute. reflexivity.
  - vm_compute. reflexivity.
  - vm_compute. reflexivity.
  - vm_compute. reflexivity.
  - apply passive_onb_sound. vm_compute. reflexivity.
  - vm_compute. reflexivity.
  - exact I.
  - vm_compute. reflexivity.
  - vm_compute. discriminate.
  - vm_compute. lia.
  - exists st1, st2. split_and!; [exact Hrun | exact Hrun2 | exact Hc | exact Hw].
Defined.

(** A pass over three subscribers, the second of which submits a state. *)
Lemma submission_in_mid_pass_witness :
  ∃ st', newState (doUpdateWork 3) (VObj 1) submitting_second
         = Some (Normal, st') ∧
         calls st' = [mkCall 0 [] (VObj 1); mkCall 1 [] (VObj 1);
                      mkCall 2 [] (VObj 2)] ∧
         q_state (queue st') = VObj 2.
Proof.
  destruct (submission_in_mid_pass submitting_second [0] 1 [2] 3
              (VObj 1) (VObj 2) [] 2)
    as (st' & Hrun & Hc & Hq & _).
  - exact (proj1 (ring_of_ring
                    [Some []; Some [ANewState (VObj 2)]; Some []])).
  - vm_compute. reflexivity.
  - vm_compute. reflexivity.
  - vm_compute. reflexivity.
  - vm_compute. reflexivity.
  - apply passive_onb_sound. vm_compute. reflexivity.
  - exists 0. split; [left | vm_compute; reflexivity].
  - vm_compute. reflexivity.
  - vm_compute. reflexivity.
  - vm_compute. discriminate.
  - discriminate.
  - vm_compute. lia.
  - exists st'. split_and!; [exact Hrun | exact Hc | exact Hq].
Defined.

(** A pass over a ring whose first live subscriber submits a state. *)
Lemma submission_from_the_first_node_witness :
  ∃ st', newState (doUpdateWork 5) (VObj 1) submitting_first
         = Some (Normal, st') ∧
         calls st' = [mkCall 1 [] (VObj 1); mkCall 1 [] (VObj 2);
                      mkCall 2 [] (VObj 2); mkCall 3 [] (VObj 2);
                      mkCall 2 [] (VObj 2); mkCall 3 [] (VObj 2)] ∧
         updates st' = 2.
Proof.
  destruct (submission_from_the_first_node submitting_first [0] 1 [2; 3] 5
              (VObj 1) (VObj 2) [] 3)
    as (st' & Hrun & Hc & _ & _ & _ & _ & Hu).
  - exact (proj1 (ring_of_ring
                    [None; Some [ANewState (VObj 2)]; Some []; Some []])).
  - vm_compute. reflexivity.
  - vm_compute. reflexivity.
  - vm_compute. reflexivity.
  - vm_compute. reflexivity.
  - intros a Ha. apply list_elem_of_singleton in Ha. subst a.
    vm_compute. reflexivity.
  - apply passive_onb_sound. vm_compute. reflexivity.
  - vm_compute. reflexivity.
  - exact I.
  - vm_compute. reflexivity.
  - vm_compute. discriminate.
  - discriminate.
  - vm_compute. lia.
  - exists st'. split_and!; [exact Hrun | exact Hc | exact Hu].
Defined.




(** A subscriber whose callback registers another one and submits a
    state. *)
Lemma stamps_and_indices_are_kept_witness :
  match host_submit 6 (VObj 1)
          (ring_of [Some [ACreate (Some []); ANewState (VObj 2)]]) with
  | Some st' => ∃ nd', heap st' !! 0 = Some nd' ∧ state nd' = VNull ∧
                       index nd' = 0
  | None => False
  end.
Proof.
  destruct (host_submit 6 (VObj 1)
              (ring_of [Some [ACreate (Some []); ANewState (VObj 2)]]))
    as [st'|] eqn:H.
  - destruct (stamps_and_indices_are_kept _ _ _ _ H 0
                (mkNode 0 (Some [ACreate (Some []); ANewState (VObj 2)])
                   VNull (Some 0)))
      as (nd' & Hl & Hs & Hi); [vm_compute; reflexivity|].
    exists nd'. split; [exact Hl|]. split; [exact Hs | exact Hi].
  - vm_compute in H. discriminate.
Defined.

(** A third subscriber registered between passes. *)
Lemma late_subscriber_is_called_last_witness :
  ∃ st', newState (doUpdateWork 6) (VObj 1)
           (create (Some []) (ring_of [Some []; Some []])).2
         = Some (Normal, st') ∧
         calls st' = [mkCall 0 [] (VObj 1); mkCall 1 [] (VObj 1);
                      mkCall 2 [] (VObj 1)].
Proof.
  destruct (late_subscriber_is_called_last (ring_of [Some []; Some []])
              [0; 1] 6 (VObj 1) [])
    as (st' & Hrun & Hc).
  - exact (proj1 (ring_of_ring [Some []; Some []])).
  - vm_compute. reflexivity.
  - vm_compute. reflexivity.
  - apply passive_heapb_sound. vm_compute. reflexivity.
  - exact I.
  - vm_compute. discriminate.
  - vm_compute. lia.
  - exists st'. split; [exact Hrun | exact Hc].
Defined.

(** A ring of one node: a second node is appended, the first is removed. *)
Lemma append_then_remove_takes_the_head_witness :
  ∃ st', removeCurrentNode (appendNodeToQueue 1 one_linked_one_fresh)
         = (Normal, st') ∧ ring st' [1].
Proof.
  destruct (append_then_remove_takes_the_head one_linked_one_fresh 0 [] 1)
    as (st' & Hrm & HR & _).
  - exact ring_one_linked_one_fresh.
  - vm_compute. reflexivity.
  - vm_compute. lia.
  - intros H. apply list_elem_of_singleton in H. discriminate.
  - exists st'. split; [exact Hrm | exact HR].
Defined.

(** The dump of three subscribers. *)
Lemma printQueue_lists_the_ring_witness :
  printQueue 3 three_subscribers
  = Some (Logged ("printQueue, queue " +:+
                  String.concat ", " (dump_entry three_subscribers <$> [0; 1; 2]))).
Proof.
  refine (proj1 (printQueue_lists_the_ring three_subscribers [0; 1; 2] 3 _ _)).
  - exact ring_three_subscribers.
  - vm_compute. lia.
Defined.

(** A store attached to a fresh updater. *)
Lemma setStore_attaches_witness :
  match setStore 2 echo_store (mkUpdater createUpdater None) with
  | Some (_, up') =>
      setStore 0 echo_store up' = Some (Normal, up') ∧
      dispatch [VObj 3] up' = Return (VObj 3)
  | None => False
  end.
Proof.
  destruct (setStore 2 echo_store (mkUpdater createUpdater None))
    as [[o up']|] eqn:H.
  - destruct setStore_attaches as [_ Hset].
    destruct (Hset _ _ _ _ _ H) as ((c & Hc & Href & Hd) & Hidem & Hnew & _).
    split; [by apply Hidem|].
    destruct Hnew as [Hs _]; [vm_compute; reflexivity|].
    rewrite Hd. rewrite Hs in Hc. injection Hc as <-. reflexivity.
  - vm_compute in H. discriminate.
Defined.

(** One registration on a fresh updater. *)
Lemma indices_follow_creation_witness :
  indexed (create (Some []) createUpdater).2.
Proof.
  destruct indices_follow_creation as (H0 & Hc & _).
  exact (Hc _ _ H0).
Defined.
